(** * mdlschm: a model struct compiled to a Terraform schema

    A shallow embedding of [mdlschm.go].  Go strings are byte strings
    ([string]); a panic is the [Panic] result of the [result] monad; the maps
    of attributes and blocks are [gmap string _]; the reflected model value is
    the tree [rtype] of its dynamic types and field tags. *)

From Stdlib Require Import String Ascii List ZArith QArith Qabs Lia Bool Sorted Permutation.
From stdpp Require Import base option gmap strings.

Import ListNotations.
Local Open Scope string_scope.
Local Open Scope list_scope.

(** ** Go's [strings] package, on byte strings *)

Module strings.

(** [strings.HasPrefix(s, prefix)]. *)
Definition HasPrefix (s pre : string) : bool := String.prefix pre s.

(** [strings.TrimPrefix(s, prefix)]. *)
Definition TrimPrefix (s pre : string) : string :=
  if HasPrefix s pre
  then String.substring (String.length pre) (String.length s - String.length pre) s
  else s.

(** [strings.HasSuffix(s, suffix)]. *)
Definition HasSuffix (s suf : string) : bool :=
  (String.length suf <=? String.length s)%nat
  && String.eqb (String.substring (String.length s - String.length suf)
                                  (String.length suf) s) suf.

(** [strings.TrimSuffix(s, suffix)]. *)
Definition TrimSuffix (s suf : string) : string :=
  if HasSuffix s suf
  then String.substring 0 (String.length s - String.length suf) s
  else s.

(** [strings.Split(s, sep)] for a one-byte separator, the only kind the
    program uses: the pieces between the separators, [[""]] for the empty
    string. *)
Fixpoint Split (s : string) (sep : ascii) : list string :=
  match s with
  | EmptyString => [EmptyString]
  | String c s' =>
      if Ascii.eqb c sep then EmptyString :: Split s' sep
      else match Split s' sep with
           | h :: t => String c h :: t
           | [] => [String c EmptyString]
           end
  end.

(** The scan of [strings.Replace(s, old, new, -1)] for a non-empty [old]:
    [skip] counts the bytes of the occurrence just replaced that are still
    to be passed over. *)
Fixpoint replaceFrom (old new s : string) (skip : nat) : string :=
  match s with
  | EmptyString => EmptyString
  | String c s' =>
      match skip with
      | S k => replaceFrom old new s' k
      | O =>
          if String.prefix old s
          then new +:+ replaceFrom old new s' (String.length old - 1)
          else String c (replaceFrom old new s' 0)
      end
  end.

(** [strings.Replace(s, old, new, -1)]: every non-overlapping occurrence of
    [old], leftmost first.  Every call of the program has a non-empty
    [old]. *)
Definition Replace (s old new : string) : string := replaceFrom old new s 0.

Definition lowerByte (c : ascii) : ascii :=
  let n := nat_of_ascii c in
  if ((65 <=? n) && (n <=? 90))%nat then ascii_of_nat (n + 32) else c.

(** [strings.ToLower(s)] for a string of ASCII bytes, which Go lowers byte by
    byte.  In a string with other bytes Go also maps the upper-case letters
    beyond ASCII; here they are kept, and what is stated of the result of
    [ToLower] is stated for names of ASCII bytes. *)
Fixpoint ToLower (s : string) : string :=
  match s with
  | EmptyString => EmptyString
  | String c s' => String (lowerByte c) (ToLower s')
  end.

End strings.

(** ** Go's [regexp] package, for the four patterns of the program

    A pattern is a sequence of atoms; [GOpen]/[GClose] delimit a capture
    group.  Matching is the backtracking search whose first success Go's
    leftmost-first semantics returns: a starred class takes the longest run
    that lets the rest of the pattern match. *)

Module regexp.

Inductive atom :=
| Chr (p : ascii -> bool)      (* one byte of a class, or a literal *)
| Star (p : ascii -> bool)     (* [p*], greedy *)
| GOpen
| GClose.

Definition Regexp := list atom.

Definition lit (c : ascii) : atom := Chr (Ascii.eqb c).
Definition notc (c : ascii) : ascii -> bool := fun x => negb (Ascii.eqb c x).
Definition range (lo hi : ascii) : ascii -> bool :=
  fun x => ((nat_of_ascii lo <=? nat_of_ascii x)
            && (nat_of_ascii x <=? nat_of_ascii hi))%nat.

(** [p{n,}]: [n] mandatory bytes, then a greedy star. *)
Definition atLeast (n : nat) (p : ascii -> bool) : list atom :=
  repeat (Chr p) n ++ [Star p].

Definition snoc (s : string) (c : ascii) : string := s +:+ String c EmptyString.

(** [matchHere re s whole cur gs]: match [re] at the start of [s].  [whole]
    is the text matched so far, [cur] the text of the group being read, [gs]
    the groups already closed (last first).  The result is the submatch list
    [$0; $1; ...] and the unmatched rest. *)
Fixpoint matchHere (re : Regexp) (s whole cur : string) (gs : list string)
  : option (list string * string) :=
  match re with
  | [] => Some (whole :: rev gs, s)
  | GOpen :: re' => matchHere re' s whole EmptyString gs
  | GClose :: re' => matchHere re' s whole EmptyString (cur :: gs)
  | Chr p :: re' =>
      match s with
      | String c s' =>
          if p c then matchHere re' s' (snoc whole c) (snoc cur c) gs else None
      | EmptyString => None
      end
  | Star p :: re' =>
      (fix star (s whole cur : string) {struct s} :=
         match s with
         | String c s' =>
             if p c then
               match star s' (snoc whole c) (snoc cur c) with
               | Some r => Some r
               | None => matchHere re' s whole cur gs
               end
             else matchHere re' s whole cur gs
         | EmptyString => matchHere re' s whole cur gs
         end) s whole cur
  end.

(** [re.FindStringSubmatch] anchored at the start of [s]. *)
Definition matchAt (re : Regexp) (s : string) : option (list string * string) :=
  matchHere re s EmptyString EmptyString [].

Definition group (subs : list string) (i : nat) : string := nth i subs EmptyString.

(** The scan of [re.ReplaceAllString]: at each byte the pattern is tried;
    a match is replaced by its expanded template and the scan resumes after
    it ([skip] counts the matched bytes still to pass over); otherwise the
    byte is copied.  None of the program's patterns matches the empty
    string. *)
Fixpoint replaceAllFrom (re : Regexp) (repl : list string -> string)
         (s : string) (skip : nat) : string :=
  match s with
  | EmptyString => EmptyString
  | String c s' =>
      match skip with
      | S k => replaceAllFrom re repl s' k
      | O =>
          match matchAt re s with
          | Some (subs, _) =>
              repl subs +:+ replaceAllFrom re repl s' (String.length (group subs 0) - 1)
          | None => String c (replaceAllFrom re repl s' 0)
          end
      end
  end.

(** [re.ReplaceAllString(s, template)], the template given as a function of
    the submatches. *)
Definition ReplaceAllString (re : Regexp) (s : string) (repl : list string -> string)
  : string :=
  replaceAllFrom re repl s 0.

End regexp.

(** ** Tag keys and values (the constants of the program) *)

Definition TagComputed : string := "computed".
Definition TagOptional : string := "optional".
Definition TagRequired : string := "required".
Definition TagSensitive : string := "sensitive".
Definition TagDeprecationMessage : string := "deprecation".
Definition TagDescription : string := "desc".
Definition TagMarkdownDescription : string := "md".
Definition TagPlanModifiers : string := "pmods".
Definition TagSnakeName : string := "snake".
Definition TagValidators : string := "valid".
Definition TagVersion : string := "version".
Definition TagCollection : string := "collection".

Definition TagCollectionList : string := "list".
Definition TagCollectionSet : string := "set".
Definition TagTrue : string := "true".

Definition TagPlanModifierReplace : string := "replace".
Definition TagPlanModifierDefault : string := "default".
Definition TagPlanModifierUSFU : string := "usfu".

Definition TagValidatorBetween : string := "between".
Definition TagValidatorOneOf : string := "oneof".
Definition TagValidatorNoneOf : string := "noneof".

Definition SpecialTypeBlock : string := "block".

(** The byte [0x22] and the string made of it. *)
Definition dq : ascii := ascii_of_nat 34.
Definition dquote : string := String dq EmptyString.

(** A Go raw string literal written with ['] where the Go source has the
    double quote. *)
Fixpoint raw (s : string) : string :=
  match s with
  | EmptyString => EmptyString
  | String c s' => String (if Ascii.eqb c "'" then dq else c) (raw s')
  end.

(** ** The tag expression parser *)

Definition sentinel : string := "|||||".

(** The template [$1|||||$2]. *)
Definition joinSentinel (subs : list string) : string :=
  regexp.group subs 1 +:+ sentinel +:+ regexp.group subs 2.

(** [re.ReplaceAllString(result, "$1|||||$2")]. *)
Definition hideOnce (re : regexp.Regexp) (result : string) : string :=
  regexp.ReplaceAllString re result joinSentinel.

(** The loop [for true { newResult := ...; if newResult != result { result =
    newResult } else { break } }] of [splitTagValues] and [splitTags], run for
    at most [fuel] rounds. *)
Fixpoint untilStable (re : regexp.Regexp) (fuel : nat) (result : string) : string :=
  match fuel with
  | O => result
  | S n =>
      let newResult := hideOnce re result in
      if String.eqb newResult result then result else untilStable re n newResult
  end.

(** The pattern of [splitTagValues], written with blanks between its parts:
    [( \( [^\)]* ) , ( [^\)]* \) )]. *)
Definition reParenComma : regexp.Regexp :=
  [regexp.GOpen; regexp.lit "("; regexp.Star (regexp.notc ")"); regexp.GClose;
   regexp.lit ",";
   regexp.GOpen; regexp.Star (regexp.notc ")"); regexp.lit ")"; regexp.GClose].

(** The pattern of [splitTags], with [Q] for the double quote, [_] for the
    blank and blanks between its parts: [( : Q [^Q]* ) _ ( [^Q]* Q )]. *)
Definition reQuotedSpace : regexp.Regexp :=
  [regexp.GOpen; regexp.lit ":"; regexp.lit dq; regexp.Star (regexp.notc dq); regexp.GClose;
   regexp.lit " ";
   regexp.GOpen; regexp.Star (regexp.notc dq); regexp.lit dq; regexp.GClose].

(** The part shared by [splitTagValues] and [splitTags]: hide the separators
    the pattern finds behind the sentinel until nothing changes, split on the
    separator, and put the separator back for the sentinel.  Every round that
    changes the string removes a separator from it, so its length bounds the
    number of rounds ([hideSeparators_settled]). *)
Definition hideSeparators (re : regexp.Regexp) (s : string) : string :=
  let result := hideOnce re s in
  untilStable re (String.length result) result.

Definition splitOutside (re : regexp.Regexp) (sep : ascii) (s : string) : list string :=
  let result := hideSeparators re s in
  map (fun v => strings.Replace v sentinel (String sep EmptyString))
      (strings.Split result sep).

Definition splitTagValues (s : string) : list string := splitOutside reParenComma "," s.

Definition splitTags (s : string) : list string := splitOutside reQuotedSpace " " s.

Fixpoint tagValueIn (key : string) (tags : list string) : string :=
  match tags with
  | [] => EmptyString
  | tag :: rest =>
      match strings.Split tag ":" with
      | [k; v] =>
          if String.eqb k key
          then strings.TrimPrefix (strings.TrimSuffix v dquote) dquote
          else tagValueIn key rest
      | _ => tagValueIn key rest
      end
  end.

Definition tagValue (key allTags : string) : string :=
  tagValueIn key (splitTags allTags).

Definition hasTagArg (needle haystack : string) : bool :=
  existsb (fun check => String.eqb check needle
                        || strings.HasPrefix check (needle +:+ "("))
          (splitTagValues haystack).

Fixpoint tagArgsIn (needle : string) (h : list string) : string :=
  match h with
  | [] => EmptyString
  | check :: rest =>
      if strings.HasPrefix check (needle +:+ "(")
      then strings.TrimPrefix (strings.TrimSuffix check ")") (needle +:+ "(")
      else tagArgsIn needle rest
  end.

Definition tagArgs (needle haystack : string) : string :=
  tagArgsIn needle (splitTagValues haystack).

(** ** The name normalizer *)

(** [([a-z])([A-Z]{2,})] *)
Definition reLowerThenCaps : regexp.Regexp :=
  [regexp.GOpen; regexp.Chr (regexp.range "a" "z"); regexp.GClose; regexp.GOpen]
    ++ regexp.atLeast 2 (regexp.range "A" "Z") ++ [regexp.GClose].

(** [([A-Z][a-z])] *)
Definition reCapLower : regexp.Regexp :=
  [regexp.GOpen; regexp.Chr (regexp.range "A" "Z"); regexp.Chr (regexp.range "a" "z");
   regexp.GClose].

Definition snakeCase (camel allTags : string) : string :=
  let snakeName := tagValue TagSnakeName allTags in
  if negb (String.eqb snakeName EmptyString) then snakeName
  else
    let camel := strings.Replace camel "IDs" "Ids" in
    let camel := regexp.ReplaceAllString reLowerThenCaps camel
                   (fun subs => regexp.group subs 1 +:+ "_" +:+ regexp.group subs 2) in
    strings.TrimPrefix
      (strings.ToLower
         (regexp.ReplaceAllString reCapLower camel
            (fun subs => "_" +:+ regexp.group subs 1)))
      "_".

(** ** Go's [strconv] package: [ParseBool], [ParseInt], [ParseFloat] *)

Module strconv.

Inductive NumError := ErrSyntax | ErrRange.

Inductive parsed (A : Type) :=
| Parsed (a : A)
| Failed (e : NumError).
Arguments Parsed {A} a.
Arguments Failed {A} e.

(** A [float64] as the number it stands for: a finite value is the rational
    it equals.  The sign of zero is not represented. *)
Inductive float64 :=
| Fin (v : Q)
| Inf (neg : bool)
| NaN.

Definition ParseBool (str : string) : parsed bool :=
  if existsb (String.eqb str) ["1"; "t"; "T"; "true"; "TRUE"; "True"] then Parsed true
  else if existsb (String.eqb str) ["0"; "f"; "F"; "false"; "FALSE"; "False"]
       then Parsed false
       else Failed ErrSyntax.

Definition isDigit (c : ascii) : bool :=
  ((48 <=? nat_of_ascii c) && (nat_of_ascii c <=? 57))%nat.

Definition digitVal (c : ascii) : Z := Z.of_nat (nat_of_ascii c - 48).

(** [lower(c) = c | ('x' - 'X')]. *)
Definition lower (c : ascii) : ascii :=
  match c with
  | Ascii b0 b1 b2 b3 b4 _ b6 b7 => Ascii b0 b1 b2 b3 b4 true b6 b7
  end.

Definition isHexLetter (c : ascii) : bool :=
  ((97 <=? nat_of_ascii (lower c)) && (nat_of_ascii (lower c) <=? 102))%nat.

Definition hexLetterVal (c : ascii) : Z := Z.of_nat (nat_of_ascii (lower c) - 97 + 10).

(** The digit loop of [ParseUint(s, 10, 64)]: a byte that is not a decimal
    digit is a syntax error; the range error is returned at the digit with
    which the number passes [2^64 - 1], whatever follows it. *)
Fixpoint digits10 (s : string) (n : Z) : parsed Z :=
  match s with
  | EmptyString => Parsed n
  | String c s' =>
      if isDigit c then
        if ((2 ^ 64 - 1) / 10 + 1 <=? n)%Z then Failed ErrRange
        else
          let n1 := (n * 10 + digitVal c)%Z in
          if (2 ^ 64 - 1 <? n1)%Z then Failed ErrRange else digits10 s' n1
      else Failed ErrSyntax
  end.

(** [ParseInt(s, 10, bitSize)] for [bitSize] 64, and 0 on a 64-bit
    platform. *)
Definition ParseInt (s : string) : parsed Z :=
  match s with
  | EmptyString => Failed ErrSyntax
  | String c0 s1 =>
      let neg := Ascii.eqb c0 "-" in
      let s' := if Ascii.eqb c0 "+" || neg then s1 else s in
      match s' with
      | EmptyString => Failed ErrSyntax
      | _ =>
          match digits10 s' 0 with
          | Failed e => Failed e
          | Parsed un =>
              let cutoff := (2 ^ 63)%Z in
              if negb neg && (cutoff <=? un)%Z then Failed ErrRange
              else if neg && (cutoff <? un)%Z then Failed ErrRange
              else Parsed (if neg then (- un)%Z else un)
          end
      end
  end.

Definition foldByte (c : ascii) : ascii :=
  let n := nat_of_ascii c in
  if ((65 <=? n) && (n <=? 90))%nat then ascii_of_nat (n + 32) else c.

Fixpoint commonPrefixLenIgnoreCase (s pre : string) : nat :=
  match s, pre with
  | String c s', String p pre' =>
      if Ascii.eqb (foldByte c) p then S (commonPrefixLenIgnoreCase s' pre') else O
  | _, _ => O
  end.

Definition specialInf (s : string) (neg : bool) (nsign : nat) : option (float64 * nat) :=
  let n := commonPrefixLenIgnoreCase s "infinity" in
  let n := if ((3 <? n) && (n <? 8))%nat then 3%nat else n in
  if ((n =? 3) || (n =? 8))%nat then Some (Inf neg, (nsign + n)%nat) else None.

(** [special(s)]: the value and the number of bytes read for a prefix
    [inf], [infinity] (signed or not) or [nan], in any case of letters. *)
Definition special (s : string) : option (float64 * nat) :=
  match s with
  | EmptyString => None
  | String c0 s1 =>
      if Ascii.eqb c0 "+" || Ascii.eqb c0 "-" then specialInf s1 (Ascii.eqb c0 "-") 1
      else if Ascii.eqb c0 "i" || Ascii.eqb c0 "I" then specialInf s false 0
      else if Ascii.eqb c0 "n" || Ascii.eqb c0 "N" then
             if (commonPrefixLenIgnoreCase s "nan" =? 3)%nat then Some (NaN, 3%nat) else None
      else None
  end.

(** The state of the mantissa loop of [readFloat].  [mant] holds every
    digit counted by [nd] (Go keeps the first 19 and a sticky flag, to the
    same rounded result). *)
Record mantState := MantState {
  nd : Z; dp : Z; mant : Z; sawdot : bool; sawdigits : bool; underscores : bool }.

Fixpoint mantLoop (hex : bool) (s : string) (st : mantState) : mantState * string :=
  match s with
  | EmptyString => (st, s)
  | String c s' =>
      if Ascii.eqb c "_" then
        mantLoop hex s' (MantState (nd st) (dp st) (mant st) (sawdot st) (sawdigits st) true)
      else if Ascii.eqb c "." then
        if sawdot st then (st, s)
        else mantLoop hex s'
               (MantState (nd st) (nd st) (mant st) true (sawdigits st) (underscores st))
      else if isDigit c then
        if Ascii.eqb c "0" && (nd st =? 0)%Z then
          mantLoop hex s'
            (MantState (nd st) (dp st - 1) (mant st) (sawdot st) true (underscores st))
        else
          mantLoop hex s'
            (MantState (nd st + 1) (dp st)
               (mant st * (if hex then 16 else 10) + digitVal c)
               (sawdot st) true (underscores st))
      else if hex && isHexLetter c then
        mantLoop hex s'
          (MantState (nd st + 1) (dp st) (mant st * 16 + hexLetterVal c)
             (sawdot st) true (underscores st))
      else (st, s)
  end.

(** The exponent loop: [e] stops growing once it has reached 10000. *)
Fixpoint expLoop (s : string) (e : Z) (us : bool) : Z * bool * string :=
  match s with
  | EmptyString => (e, us, s)
  | String c s' =>
      if Ascii.eqb c "_" then expLoop s' e true
      else if isDigit c then
        expLoop s' (if (e <? 10000)%Z then e * 10 + digitVal c else e)%Z us
      else (e, us, s)
  end.

(** [underscoreOK(s)]: every underscore separates digits (a base prefix
    counts as a digit).  [saw] is the class of the previous byte. *)
Inductive sawClass := SawStart | SawDigit | SawUnderscore | SawOther.

Fixpoint underscoreLoop (hex : bool) (s : string) (saw : sawClass) : bool :=
  match s with
  | EmptyString => match saw with SawUnderscore => false | _ => true end
  | String c s' =>
      if isDigit c || (hex && isHexLetter c) then underscoreLoop hex s' SawDigit
      else if Ascii.eqb c "_" then
        match saw with
        | SawDigit => underscoreLoop hex s' SawUnderscore
        | _ => false
        end
      else match saw with
           | SawUnderscore => false
           | _ => underscoreLoop hex s' SawOther
           end
  end.

Definition underscoreOK (s : string) : bool :=
  let s := match s with
           | String c s' => if Ascii.eqb c "-" || Ascii.eqb c "+" then s' else s
           | EmptyString => s
           end in
  match s with
  | String c0 (String c1 s') =>
      if Ascii.eqb c0 "0"
         && (Ascii.eqb (lower c1) "b" || Ascii.eqb (lower c1) "o" || Ascii.eqb (lower c1) "x")
      then underscoreLoop (Ascii.eqb (lower c1) "x") s' SawDigit
      else underscoreLoop false s SawStart
  | _ => underscoreLoop false s SawStart
  end.

(** What [readFloat] reads: sign, base, the digits as an integer, and the
    exponent of the base (10, or 2 for a hexadecimal mantissa). *)
Record floatLit := FloatLit { fneg : bool; fhex : bool; fmant : Z; fexp : Z }.

(** [readFloat(s)]: the literal read at the start of [s] and the bytes left
    after it, or [None] where Go returns [ok = false]. *)
Definition readFloat (s : string) : option (floatLit * string) :=
  match s with
  | EmptyString => None
  | String c0 s1 =>
      let neg := Ascii.eqb c0 "-" in
      let t := if Ascii.eqb c0 "+" || neg then s1 else s in
      let '(hex, t1) :=
        match t with
        | String d0 (String d1 (String d2 t')) =>
            if Ascii.eqb d0 "0" && Ascii.eqb (lower d1) "x"
            then (true, String d2 t') else (false, t)
        | _ => (false, t)
        end in
      let '(st, t2) := mantLoop hex t1 (MantState 0 0 0 false false false) in
      if negb (sawdigits st) then None
      else
        let dp0 := if sawdot st then dp st else nd st in
        let dp1 := if hex then (dp0 * 4)%Z else dp0 in
        let ndMant := if hex then (nd st * 4)%Z else nd st in
        let finish (dp2 : Z) (us : bool) (rest : string) :=
          let consumed := String.substring 0 (String.length s - String.length rest) s in
          if us && negb (underscoreOK consumed) then None
          else Some (FloatLit neg hex (mant st)
                       (if (mant st =? 0)%Z then 0 else dp2 - ndMant)%Z, rest) in
        match t2 with
        | String e t3 =>
            if Ascii.eqb (lower e) (if hex then "p" else "e")%char then
              match t3 with
              | EmptyString => None
              | String g t4 =>
                  let esign := if Ascii.eqb g "-" then (-1)%Z else 1%Z in
                  let t5 := if Ascii.eqb g "+" || Ascii.eqb g "-" then t4 else t3 in
                  match t5 with
                  | EmptyString => None
                  | String h _ =>
                      if negb (isDigit h) then None
                      else
                        let '(e, us, rest) := expLoop t5 0 (underscores st) in
                        finish (dp1 + e * esign)%Z us rest
                  end
              end
            else if hex then None
            else finish dp1 (underscores st) t2
        | EmptyString => if hex then None else finish dp1 (underscores st) t2
        end
  end.

Definition scale (base : Z) (m e : Z) : Q :=
  if (0 <=? e)%Z then inject_Z (m * base ^ e)
  else Qred (Qmake m (Z.to_pos (base ^ (- e)))).

Definition litValue (l : floatLit) : Q :=
  let v := scale (if fhex l then 2 else 10) (fmant l) (fexp l) in
  if fneg l then Qopp v else v.

(** A number rounds to a finite binary64 value unless its magnitude reaches
    [2^1024 - 2^970], halfway between the largest one and [2^1024]. *)
Definition overflows (v : Q) : bool :=
  Qle_bool (inject_Z (2 ^ 1024 - 2 ^ 970)) (Qabs v).

(** The integer nearest to [n / d], for [0 <= n] and [0 < d]; of two
    nearest ones the even one. *)
Definition nearestEven (n d : Z) : Z :=
  let q := (n / d)%Z in
  match (2 * (n mod d) ?= d)%Z with
  | Lt => q
  | Gt => (q + 1)%Z
  | Eq => if Z.even q then q else (q + 1)%Z
  end.

(** [v] rounded to binary64, as IEEE 754 rounds to nearest with ties to
    even: with [2^e <= |v| < 2^(e+1)] the result is a multiple of [2^u] for
    [u] the larger of [e - 52] (a mantissa of 53 bits) and [-1074] (the
    subnormal numbers). *)
Definition round64 (v : Q) : Q :=
  let n := Z.abs (Qnum v) in
  let d := Zpos (Qden v) in
  if (n =? 0)%Z then 0
  else
    let e0 := (Z.log2 n - Z.log2 d)%Z in
    let below := if (0 <=? e0)%Z then (n <? d * 2 ^ e0)%Z else (n * 2 ^ (- e0) <? d)%Z in
    let e := if below then (e0 - 1)%Z else e0 in
    let u := Z.max (e - 52) (- 1074) in
    let m := if (0 <=? u)%Z then nearestEven n (d * 2 ^ u)
             else nearestEven (n * 2 ^ (- u)) d in
    let r := if (0 <=? u)%Z then inject_Z (m * 2 ^ u)
             else Qred (Qmake m (Z.to_pos (2 ^ (- u)))) in
    if (Qnum v <? 0)%Z then Qopp r else r.

(** [ParseFloat(s, 64)]: the binary64 value nearest to the literal. *)
Definition ParseFloat (s : string) : parsed float64 :=
  match special s with
  | Some (v, n) => if (n =? String.length s)%nat then Parsed v else Failed ErrSyntax
  | None =>
      match readFloat s with
      | None => Failed ErrSyntax
      | Some (l, rest) =>
          match rest with
          | EmptyString =>
              if overflows (litValue l) then Failed ErrRange
              else Parsed (Fin (round64 (litValue l)))
          | _ => Failed ErrSyntax
          end
      end
  end.

(** The conversions [int(f)] and [int64(f)]: the fraction is discarded; for
    a value outside the range of [int64] Go leaves the result to the
    implementation, taken here as on amd64. *)
Definition toInt (f : float64) : Z :=
  match f with
  | Fin v =>
      let z := Z.quot (Qnum v) (Zpos (Qden v)) in
      if ((- 2 ^ 63 <=? z) && (z <? 2 ^ 63))%Z then z else (- 2 ^ 63)%Z
  | _ => (- 2 ^ 63)%Z
  end.

End strconv.

(** ** Go's [math/big]: [Float.Parse] in base 10 and [NewFloat] *)

Module big.

(** A [*big.Float] as the number it stands for, before rounding to the
    precision of the receiver. *)
Inductive Float :=
| Fin (v : Q)
| Inf (neg : bool).

(** The mantissa loop of [nat.scan] in base 10 with a radix point allowed:
    the digits as an integer, how many of them follow the point, whether a
    digit was seen, and the bytes left. *)
Fixpoint mantLoop (s : string) (fracOk : bool) (m frac : Z) (saw : bool)
  : Z * Z * bool * string :=
  match s with
  | EmptyString => (m, frac, saw, s)
  | String c s' =>
      if Ascii.eqb c "." && fracOk then mantLoop s' false m 0 saw
      else if strconv.isDigit c then
        mantLoop s' fracOk (m * 10 + strconv.digitVal c)%Z
                 (if fracOk then frac else frac + 1)%Z true
      else (m, frac, saw, s)
  end.

Fixpoint expDigits (s : string) (acc : string) : string * string :=
  match s with
  | EmptyString => (acc, s)
  | String c s' =>
      if strconv.isDigit c then expDigits s' (acc +:+ String c EmptyString) else (acc, s)
  end.

(** [scanExponent(r, true, false)]: the exponent, its base (10 after [e],
    2 after [p]) and the bytes left; [None] for an error. *)
Definition scanExponent (s : string) : option (Z * Z * string) :=
  match s with
  | EmptyString => Some (0%Z, 10%Z, s)
  | String c s1 =>
      let ebase := if Ascii.eqb c "e" || Ascii.eqb c "E" then Some 10%Z
                   else if Ascii.eqb c "p" || Ascii.eqb c "P" then Some 2%Z
                   else None in
      match ebase with
      | None => Some (0%Z, 10%Z, s)
      | Some b =>
          let '(neg, s2) :=
            match s1 with
            | String g s2 =>
                if Ascii.eqb g "+" then (false, s2)
                else if Ascii.eqb g "-" then (true, s2) else (false, s1)
            | EmptyString => (false, s1)
            end in
          let '(ds, rest) := expDigits s2 EmptyString in
          match ds with
          | EmptyString => None
          | _ =>
              match strconv.ParseInt (if neg then String "-" ds else ds) with
              | strconv.Parsed x => Some (x, b, rest)
              | strconv.Failed _ => None
              end
          end
      end
  end.

Definition pow (b e : Z) : Q :=
  if (0 <=? e)%Z then inject_Z (b ^ e) else Qinv (inject_Z (b ^ (- e))).

(** [(z *Float).Parse(s, 10)]: [None] where Go returns an error. *)
Definition Parse (s : string) : option Float :=
  if String.eqb s "Inf" || String.eqb s "inf" || String.eqb s "+Inf" || String.eqb s "+inf"
  then Some (Inf false)
  else if String.eqb s "-Inf" || String.eqb s "-inf" then Some (Inf true)
  else
    match s with
    | EmptyString => None
    | String c0 s1 =>
        let neg := Ascii.eqb c0 "-" in
        let t := if Ascii.eqb c0 "+" || neg then s1 else s in
        let '(m, frac, saw, t1) := mantLoop t true 0 0 false in
        if negb saw then None
        else
          match scanExponent t1 with
          | None => None
          | Some (e, ebase, rest) =>
              match rest with
              | EmptyString =>
                  if (m =? 0)%Z then Some (Fin 0)
                  else
                    let exp2 := (Z.log2 m + 1 - frac + e)%Z in
                    if ((- 2 ^ 31 <=? exp2) && (exp2 <? 2 ^ 31))%Z then
                      let v := Qred (inject_Z m * pow 10 (- frac) * pow ebase e) in
                      Some (Fin (if neg then Qopp v else v))
                    else None
              | _ => None
              end
          end
    end.

(** [big.NewFloat(x)]: panics ([None]) for a NaN. *)
Definition NewFloat (x : strconv.float64) : option Float :=
  match x with
  | strconv.Fin v => Some (Fin v)
  | strconv.Inf neg => Some (Inf neg)
  | strconv.NaN => None
  end.

End big.

(** ** The schema tree: the framework's types, as far as the program fills
    them *)

Module types.

Inductive Type_ :=
| BoolType | Float64Type | Int64Type | NumberType | StringType
| MapType (ElemType : Type_)
| ListType (ElemType : Type_)
| SetType (ElemType : Type_).

(** The values [types.Bool{Value: b}], [types.Float64{Value: f}], ... *)
Inductive Value :=
| Bool (Value : bool)
| Float64 (Value : strconv.float64)
| Int64 (Value : Z)
| Number (Value : big.Float)
| String (Value : string).

End types.

(** The validators of the packages [listvalidator], [setvalidator],
    [stringvalidator], [float64validator], [int64validator] and
    [numbervalidator], as descriptors. *)
Inductive AttributeValidator :=
| ListSizeBetween (min max : Z)
| ListSizeAtLeast (min : Z)
| SetSizeBetween (min max : Z)
| SetSizeAtLeast (min : Z)
| StringLengthBetween (min max : Z)
| Float64Between (min max : strconv.float64)
| Int64Between (min max : Z)
| Float64OneOf (values : list strconv.float64)
| Int64OneOf (values : list Z)
| NumberOneOf (values : list big.Float)
| StringOneOf (values : list string)
| Float64NoneOf (values : list strconv.float64)
| Int64NoneOf (values : list Z)
| NumberNoneOf (values : list big.Float)
| StringNoneOf (values : list string).

(** [resource.RequiresReplace()], [resource.UseStateForUnknown()] and the
    program's own [DefaultValue(v)]. *)
Inductive AttributePlanModifier :=
| RequiresReplace
| UseStateForUnknown
| DefaultValue (v : types.Value).

Inductive BlockNestingMode := BlockNestingModeList | BlockNestingModeSet.

Record Attribute := mkAttribute {
  a_Type : types.Type_;
  a_Required : bool;
  a_Optional : bool;
  a_Computed : bool;
  a_Sensitive : bool;
  a_Description : string;
  a_MarkdownDescription : string;
  a_DeprecationMessage : string;
  a_Validators : list AttributeValidator;
  a_PlanModifiers : list AttributePlanModifier }.

(** A nil map and a nil slice are the empty map and the empty list. *)
#[warning="-register-all"] Inductive Block := mkBlock {
  b_Attributes : gmap string Attribute;
  b_Blocks : gmap string Block;
  b_NestingMode : BlockNestingMode;
  b_Description : string;
  b_MarkdownDescription : string;
  b_DeprecationMessage : string;
  b_Validators : list AttributeValidator;
  b_PlanModifiers : list AttributePlanModifier }.

Record Schema := mkSchema {
  s_Attributes : gmap string Attribute;
  s_Blocks : gmap string Block;
  s_Version : Z;
  s_DeprecationMessage : string;
  s_Description : string;
  s_MarkdownDescription : string }.

(** The fields of [nest] the program assigns. *)
Record nest := mkNest {
  schema : option Schema;
  block : option Block;
  attribute : option Attribute }.

(** ** Panics

    One constructor per [panic] of the program, with the values its message
    is formatted from. *)
Inductive panic :=
| PanicExpectedStruct (kind : string)
    (* internal error (expected struct, got %s) *)
| PanicNoSchema
    (* no schema achieved *)
| PanicSliceType (kind : string)
    (* unrecognized slice type: %s *)
| PanicMapKeys
    (* only maps with string keys are supported *)
| PanicUnrecognizedType (type : string)
    (* got unrecognized type: %v *)
| PanicVersion (v : string) (err : strconv.NumError)
    (* version must be an int, not %s: %s *)
| PanicDefaultBool (dv : string) (err : strconv.NumError)
    (* default value (%s) is not a bool: %s *)
| PanicDefaultNumber (dv : string) (err : strconv.NumError)
    (* default value (%s) is not a number: %s *)
| PanicNaN
    (* big.NewFloat: the ErrNaN panic of math/big *)
| PanicBetweenCount (n : nat)
    (* between requires 2 numeric args, got %d *)
| PanicBetweenNumeric (arg : string) (err : strconv.NumError)
    (* between requires 2 numeric args: %s *)
| PanicOneOfNumeric (arg : string)
    (* oneof requires numeric args: %s *)
| PanicNoneOfNumeric (arg : string)
    (* noneof requires numeric args: %s *).

Inductive result (A : Type) :=
| OK (a : A)
| Panic (p : panic).
Arguments OK {A} a.
Arguments Panic {A} p.

Definition bind {A B : Type} (r : result A) (k : A -> result B) : result B :=
  match r with
  | OK a => k a
  | Panic p => Panic p
  end.

Notation "x <- r ;; k" := (bind r (fun x => k))
  (at level 100, r at next level, right associativity).

(** [for _, a := range args { ... append ... }] with a body that may panic. *)
Fixpoint forEach {A B : Type} (f : A -> result B) (l : list A) : result (list B) :=
  match l with
  | [] => OK []
  | a :: l' => b <- f a ;; bs <- forEach f l' ;; OK (b :: bs)
  end.

(** ** The reflected model

    What [reflect] shows of a model value: for every value its dynamic type
    with the string and kind [reflect] prints for it, and for a struct its
    fields in declaration order.  A slice stands for the zero value of its
    element type, the only thing the walker looks at. *)

Record StructField (T : Type) := mkField {
  Name : string;
  IsExported : bool;
  FieldType : T;
  Tag : string }.
Arguments mkField {T} _ _ _ _.
Arguments Name {T} _.
Arguments IsExported {T} _.
Arguments FieldType {T} _.
Arguments Tag {T} _.

#[warning="-register-all"] Inductive rtype :=
| TBasic (str kind : string)                (* neither struct, slice nor map *)
| TStruct (str : string) (fields : list (StructField rtype))
| TSlice (elem : rtype)
| TMap (key elem : rtype).

Inductive Kind := KStruct | KSlice | KMap | KOther (name : string).

Definition kindOf (t : rtype) : Kind :=
  match t with
  | TBasic _ k => KOther k
  | TStruct _ _ => KStruct
  | TSlice _ => KSlice
  | TMap _ _ => KMap
  end.

Definition kindString (k : Kind) : string :=
  match k with
  | KStruct => "struct"
  | KSlice => "slice"
  | KMap => "map"
  | KOther name => name
  end.

(** [reflect.TypeOf(model).String()]. *)
Fixpoint typeString (t : rtype) : string :=
  match t with
  | TBasic str _ => str
  | TStruct str _ => str
  | TSlice elem => "[]" +:+ typeString elem
  | TMap key elem => "map[" +:+ typeString key +:+ "]" +:+ typeString elem
  end.

(** ** The leaf type resolver *)

Definition isIn (s : string) (l : list string) : bool := existsb (String.eqb s) l.

Definition typeOnly (t : types.Type_) : Attribute :=
  mkAttribute t false false false false EmptyString EmptyString EmptyString [] [].

Definition listOrSet (tags : string) (elem : types.Type_) : option Attribute :=
  if String.eqb (tagValue TagCollection tags) TagCollectionSet
  then Some (typeOnly (types.SetType elem))
  else Some (typeOnly (types.ListType elem)).

(** [leaf]: the switch on the type string; [None] is the nil result. *)
Definition leaf (model : rtype) (tags : string) : option Attribute :=
  let t := typeString model in
  if isIn t ["types.Bool"; "bool"] then Some (typeOnly types.BoolType)
  else if isIn t ["types.Float64"; "float"; "float64"] then Some (typeOnly types.Float64Type)
  else if isIn t ["types.Int64"; "int64"; "int"] then Some (typeOnly types.Int64Type)
  else if isIn t ["types.Number"] then Some (typeOnly types.NumberType)
  else if isIn t ["types.String"; "string"] then Some (typeOnly types.StringType)
  else if isIn t ["map[string]types.Bool"; "map[string]bool"]
       then Some (typeOnly (types.MapType types.BoolType))
  else if isIn t ["map[string]types.Float64"; "map[string]float"; "map[string]float64"]
       then Some (typeOnly (types.MapType types.Float64Type))
  else if isIn t ["map[string]types.Int64"; "map[string]int64"; "map[string]int"]
       then Some (typeOnly (types.MapType types.Int64Type))
  else if isIn t ["map[string]types.Number"]
       then Some (typeOnly (types.MapType types.NumberType))
  else if isIn t ["map[string]types.String"; "map[string]string"]
       then Some (typeOnly (types.MapType types.StringType))
  else if isIn t ["[]types.Bool"; "[]bool"] then listOrSet tags types.BoolType
  else if isIn t ["[]types.Float64"; "[]float"; "[]float64"]
       then listOrSet tags types.Float64Type
  else if isIn t ["[]types.Int64"; "[]int64"; "[]int"] then listOrSet tags types.Int64Type
  else if isIn t ["[]types.Number"] then listOrSet tags types.NumberType
  else if isIn t ["[]types.String"; "[]string"] then listOrSet tags types.StringType
  else None.

(** ** The constraint and modifier rule engine *)

Definition parseFloatOr (mk : string -> strconv.NumError -> panic) (a : string)
  : result strconv.float64 :=
  match strconv.ParseFloat a with
  | strconv.Parsed n => OK n
  | strconv.Failed e => Panic (mk a e)
  end.

Definition parseIntOr (mk : string -> panic) (a : string) : result Z :=
  match strconv.ParseInt a with
  | strconv.Parsed n => OK n
  | strconv.Failed _ => Panic (mk a)
  end.

Definition parseBigOr (mk : string -> panic) (a : string) : result big.Float :=
  match big.Parse a with
  | Some bf => OK bf
  | None => Panic (mk a)
  end.

(** The [default] branch of [pMods]: the modifiers to append. *)
Definition defaultMod (dv attrType : string) : result (list AttributePlanModifier) :=
  if isIn attrType ["types.Bool"; "bool"] then
    match strconv.ParseBool dv with
    | strconv.Parsed b => OK [DefaultValue (types.Bool b)]
    | strconv.Failed e => Panic (PanicDefaultBool dv e)
    end
  else if isIn attrType ["types.Float64"; "float"; "float64"] then
    f <- parseFloatOr PanicDefaultNumber dv ;;
    OK [DefaultValue (types.Float64 f)]
  else if isIn attrType ["types.Int64"; "int64"] then
    match strconv.ParseInt dv with
    | strconv.Parsed i => OK [DefaultValue (types.Int64 i)]
    | strconv.Failed e => Panic (PanicDefaultNumber dv e)
    end
  else if isIn attrType ["types.Number"; "int"] then
    f <- parseFloatOr PanicDefaultNumber dv ;;
    match big.NewFloat f with
    | Some bf => OK [DefaultValue (types.Number bf)]
    | None => Panic PanicNaN
    end
  else if isIn attrType ["types.String"; "string"] then
    OK [DefaultValue (types.String dv)]
  else OK [].

Definition pMods (tagValue attrType : string) : result (list AttributePlanModifier) :=
  let pm := [] in
  let pm := if hasTagArg TagPlanModifierReplace tagValue then pm ++ [RequiresReplace] else pm in
  let pm := if hasTagArg TagPlanModifierUSFU tagValue then pm ++ [UseStateForUnknown] else pm in
  if hasTagArg TagPlanModifierDefault tagValue then
    d <- defaultMod (tagArgs TagPlanModifierDefault tagValue) attrType ;;
    OK (pm ++ d)
  else OK pm.

Definition collectionTypes : list string :=
  ["[]types.Bool"; "[]bool";
   "[]types.Float64"; "[]float"; "[]float64";
   "[]types.Int64"; "[]int64"; "[]int";
   "[]types.Number";
   "[]types.String"; "[]string"; SpecialTypeBlock].

Definition betweenValidator (betweenValue attrType tags : string)
  : result (option AttributeValidator) :=
  let ta := tagArgs TagValidatorBetween betweenValue in
  let args := strings.Split ta "," in
  if negb (length args =? 2)%nat then Panic (PanicBetweenCount (length args))
  else
    nums <- forEach (parseFloatOr PanicBetweenNumeric) args ;;
    let n0 := nth 0 nums strconv.NaN in
    let n1 := nth 1 nums strconv.NaN in
    if isIn attrType collectionTypes then
      if String.eqb (tagValue TagCollection tags) TagCollectionSet
      then OK (Some (SetSizeBetween (strconv.toInt n0) (strconv.toInt n1)))
      else OK (Some (ListSizeBetween (strconv.toInt n0) (strconv.toInt n1)))
    else if isIn attrType ["types.ListType"] then
      OK (Some (ListSizeBetween (strconv.toInt n0) (strconv.toInt n1)))
    else if isIn attrType ["types.SetType"] then
      OK (Some (SetSizeBetween (strconv.toInt n0) (strconv.toInt n1)))
    else if isIn attrType ["types.String"; "string"] then
      OK (Some (StringLengthBetween (strconv.toInt n0) (strconv.toInt n1)))
    else if isIn attrType ["types.Float64"; "float"; "float64"; "types.Number"] then
      OK (Some (Float64Between n0 n1))
    else if isIn attrType ["types.Int64"; "int"; "int64"] then
      OK (Some (Int64Between (strconv.toInt n0) (strconv.toInt n1)))
    else OK None.

Definition oneOfValidator (oneOfValue attrType tags : string)
  : result (option AttributeValidator) :=
  let ta := tagArgs TagValidatorOneOf oneOfValue in
  let args := strings.Split ta "," in
  if isIn attrType ["types.Float64"; "float"; "float64"] then
    nums <- forEach (parseFloatOr (fun a _ => PanicOneOfNumeric a)) args ;;
    OK (Some (Float64OneOf nums))
  else if isIn attrType ["types.Int64"; "int64"; "int"] then
    nums <- forEach (parseIntOr PanicOneOfNumeric) args ;;
    OK (Some (Int64OneOf nums))
  else if isIn attrType ["types.Number"] then
    nums <- forEach (parseBigOr PanicOneOfNumeric) args ;;
    OK (Some (NumberOneOf nums))
  else if isIn attrType ["types.String"; "string"] then
    OK (Some (StringOneOf args))
  else OK None.

Definition noneOfValidator (noneOfValue attrType tags : string)
  : result (option AttributeValidator) :=
  let ta := tagArgs TagValidatorNoneOf noneOfValue in
  let args := strings.Split ta "," in
  if isIn attrType ["types.Float64"; "float"; "float64"] then
    nums <- forEach (parseFloatOr (fun a _ => PanicNoneOfNumeric a)) args ;;
    OK (Some (Float64NoneOf nums))
  else if isIn attrType ["types.Int64"; "int64"; "int"] then
    nums <- forEach (parseIntOr PanicNoneOfNumeric) args ;;
    OK (Some (Int64NoneOf nums))
  else if isIn attrType ["types.Number"] then
    nums <- forEach (parseBigOr PanicNoneOfNumeric) args ;;
    OK (Some (NumberNoneOf nums))
  else if isIn attrType ["types.String"; "string"] then
    OK (Some (StringNoneOf args))
  else OK None.

(** [if v := f(...); v != nil { vals = append(vals, v) }]. *)
Definition appendIf (vals : list AttributeValidator) (v : option AttributeValidator)
  : list AttributeValidator :=
  match v with
  | Some v => vals ++ [v]
  | None => vals
  end.

(** The implicit size validators of a block: the two [if]s on the collection
    tag, each with its two [if]s on [fromSlice] and [min]. *)
Definition magicDefaults (fromSlice : bool) (tags : string) : list AttributeValidator :=
  let min := if String.eqb (tagValue TagRequired tags) TagTrue then 1%Z else 0%Z in
  let vals := [] in
  let vals :=
    if String.eqb (tagValue TagCollection tags) TagCollectionSet then
      let vals := if fromSlice && (0 <? min)%Z then vals ++ [SetSizeAtLeast min] else vals in
      if negb fromSlice then vals ++ [SetSizeBetween min 1] else vals
    else vals in
  if negb (String.eqb (tagValue TagCollection tags) TagCollectionSet) then
    let vals := if fromSlice && (0 <? min)%Z then vals ++ [ListSizeAtLeast min] else vals in
    if negb fromSlice then vals ++ [ListSizeBetween min 1] else vals
  else vals.

(** [validators]: the returned slice, nil for no validator. *)
Definition validators (tagV attrType : string) (fromSlice : bool) (tags : string)
  : result (list AttributeValidator) :=
  let vals := [] in
  vals <- (if hasTagArg TagValidatorBetween tagV
           then v <- betweenValidator tagV attrType tags ;; OK (appendIf vals v)
           else OK vals) ;;
  let vals :=
    if negb (hasTagArg TagValidatorBetween tagV) && String.eqb attrType SpecialTypeBlock
    then vals ++ magicDefaults fromSlice tags
    else vals in
  vals <- (if hasTagArg TagValidatorOneOf tagV
           then v <- oneOfValidator tagV attrType tags ;; OK (appendIf vals v)
           else OK vals) ;;
  vals <- (if hasTagArg TagValidatorNoneOf tagV
           then v <- noneOfValidator tagV attrType tags ;; OK (appendIf vals v)
           else OK vals) ;;
  OK vals.

(** [if v := tagValue(key, tags); v != "" { field = v }]. *)
Definition orTag (key tags old : string) : string :=
  let v := tagValue key tags in
  if negb (String.eqb v EmptyString) then v else old.

Definition addAttrOptions (a : Attribute) (tags attrType : string) : result Attribute :=
  let computed := if String.eqb (tagValue TagComputed tags) TagTrue then true else a_Computed a in
  let optional := if String.eqb (tagValue TagOptional tags) TagTrue then true else a_Optional a in
  let required := if String.eqb (tagValue TagRequired tags) TagTrue then true else a_Required a in
  let optional :=
    if String.eqb (tagValue TagComputed tags) EmptyString
       && String.eqb (tagValue TagOptional tags) EmptyString
       && String.eqb (tagValue TagRequired tags) EmptyString
    then true else optional in
  let sensitive := if String.eqb (tagValue TagSensitive tags) TagTrue then true else a_Sensitive a in
  let deprecation := orTag TagDeprecationMessage tags (a_DeprecationMessage a) in
  let description := orTag TagDescription tags (a_Description a) in
  let markdown := orTag TagMarkdownDescription tags (a_MarkdownDescription a) in
  pm <- (let v := tagValue TagPlanModifiers tags in
         if negb (String.eqb v EmptyString) then pMods v attrType
         else OK (a_PlanModifiers a)) ;;
  vals <- (let v := tagValue TagValidators tags in
           if negb (String.eqb v EmptyString) then validators v attrType false tags
           else OK (a_Validators a)) ;;
  OK (mkAttribute (a_Type a) required optional computed sensitive
        description markdown deprecation vals pm).

Definition addBlockOptions (b : Block) (slice : bool) (tags : string) : result Block :=
  let mode := if String.eqb (tagValue TagCollection tags) TagCollectionSet
              then BlockNestingModeSet else BlockNestingModeList in
  let deprecation := orTag TagDeprecationMessage tags (b_DeprecationMessage b) in
  let description := orTag TagDescription tags (b_Description b) in
  let markdown := orTag TagMarkdownDescription tags (b_MarkdownDescription b) in
  pm <- (let v := tagValue TagPlanModifiers tags in
         if negb (String.eqb v EmptyString) then pMods v SpecialTypeBlock
         else OK (b_PlanModifiers b)) ;;
  vals <- validators (tagValue TagValidators tags) SpecialTypeBlock slice tags ;;
  OK (mkBlock (b_Attributes b) (b_Blocks b) mode description markdown deprecation vals pm).

(** ** The structural walker *)

(** [len(m) > 0] guards each assignment, so an empty map stays nil: the
    empty map either way. *)
Definition schemaNest (blocks : gmap string Block) (attrs : gmap string Attribute) : nest :=
  let s := mkSchema ∅ ∅ 0 EmptyString EmptyString EmptyString in
  let s := if (0 <? size blocks)%nat
           then mkSchema (s_Attributes s) blocks (s_Version s) (s_DeprecationMessage s)
                  (s_Description s) (s_MarkdownDescription s)
           else s in
  let s := if (0 <? size attrs)%nat
           then mkSchema attrs (s_Blocks s) (s_Version s) (s_DeprecationMessage s)
                  (s_Description s) (s_MarkdownDescription s)
           else s in
  mkNest (Some s) None None.

Definition blockNest (blocks : gmap string Block) (attrs : gmap string Attribute)
           (slice : bool) (tags : string) : result nest :=
  let b := mkBlock ∅ ∅ BlockNestingModeList EmptyString EmptyString EmptyString [] [] in
  let b := if (0 <? size blocks)%nat
           then mkBlock (b_Attributes b) blocks (b_NestingMode b) (b_Description b)
                  (b_MarkdownDescription b) (b_DeprecationMessage b)
                  (b_Validators b) (b_PlanModifiers b)
           else b in
  let b := if (0 <? size attrs)%nat
           then mkBlock attrs (b_Blocks b) (b_NestingMode b) (b_Description b)
                  (b_MarkdownDescription b) (b_DeprecationMessage b)
                  (b_Validators b) (b_PlanModifiers b)
           else b in
  b <- addBlockOptions b slice tags ;;
  OK (mkNest None (Some b) None).

Definition schemaLevelOptions (schm : Schema) (tags : string) : result Schema :=
  version <- (let v := tagValue TagVersion tags in
              if negb (String.eqb v EmptyString) then
                match strconv.ParseInt v with
                | strconv.Parsed vi => OK vi
                | strconv.Failed e => Panic (PanicVersion v e)
                end
              else OK (s_Version schm)) ;;
  OK (mkSchema (s_Attributes schm) (s_Blocks schm) version
        (orTag TagDeprecationMessage tags (s_DeprecationMessage schm))
        (orTag TagDescription tags (s_Description schm))
        (orTag TagMarkdownDescription tags (s_MarkdownDescription schm))).

(** The two assignments at the end of the body of the field loop. *)
Definition place (s : string) (n : nest)
           (maps : gmap string Attribute * gmap string Block)
  : gmap string Attribute * gmap string Block :=
  let attrs := match attribute n with
               | Some a => <[s := a]> (fst maps)
               | None => fst maps
               end in
  let blocks := match block n with
                | Some b => <[s := b]> (snd maps)
                | None => snd maps
                end in
  (attrs, blocks).

(** The field loop of the struct case of [rAttribute], with the recursive
    call [rAttribute(e.Field(i).Interface(), tag, false, level+1)] as [visit]:
    unexported fields are skipped, and the first panic ends the walk. *)
Definition walkFields (visit : rtype -> string -> result nest)
  : list (StructField rtype) -> gmap string Attribute * gmap string Block
    -> result (gmap string Attribute * gmap string Block) :=
  fix loop fs maps :=
    match fs with
    | [] => OK maps
    | f :: fs' =>
        if negb (IsExported f) then loop fs' maps
        else
          let s := snakeCase (Name f) (Tag f) in
          n <- visit (FieldType f) (Tag f) ;;
          loop fs' (place s n maps)
    end.

(** [rAttribute]: a leaf becomes an attribute; a struct becomes the schema
    (at level 0) or a block, from the maps its field loop fills; a slice of
    structs becomes the block of its element. *)
Fixpoint rAttribute (model : rtype) (tags : string) (fromSlice : bool) (level : nat)
  {struct model} : result nest :=
  match leaf model tags with
  | Some l =>
      l <- addAttrOptions l tags (typeString model) ;;
      OK (mkNest None None (Some l))
  | None =>
      match model with
      | TStruct _ fields =>
          maps <- walkFields (fun t tg => rAttribute t tg false (level + 1)) fields (∅, ∅) ;;
          if (level =? 0)%nat then OK (schemaNest (snd maps) (fst maps))
          else blockNest (snd maps) (fst maps) fromSlice tags
      | TSlice elem =>
          match kindOf elem with
          | KStruct => rAttribute elem tags true (level + 1)
          | k => Panic (PanicSliceType (kindString k))
          end
      | TMap _ _ => Panic PanicMapKeys
      | TBasic _ _ => Panic (PanicUnrecognizedType (typeString model))
      end
  end.

(** The loop of [New] that looks for the field [_]: the tag of the first
    unexported field of that name and of struct kind. *)
Fixpoint schemaField (fs : list (StructField rtype)) : option string :=
  match fs with
  | [] => None
  | f :: fs' =>
      if negb (IsExported f) && String.eqb (Name f) "_"
         && match kindOf (FieldType f) with KStruct => true | _ => false end
      then Some (Tag f)
      else schemaField fs'
  end.

Definition New (model : rtype) : result Schema :=
  match model with
  | TStruct _ fields =>
      n <- rAttribute model EmptyString false 0 ;;
      match schema n with
      | None => Panic PanicNoSchema
      | Some s =>
          match schemaField fields with
          | Some tags => schemaLevelOptions s tags
          | None => OK s
          end
      end
  | _ => Panic (PanicExpectedStruct (kindString (kindOf model)))
  end.

(** ** The default value plan modifier

    The interface [attr.Value], with the two methods [Modify] calls, and the
    request and the response of [Modify] with the fields it reads and the
    fields of the response it could write. *)

Module attr.

Class Value (V : Type) := {
  IsNull : V -> bool;
  IsUnknown : V -> bool }.

(** The value structs of package [types] ([types.Bool], [types.String], ...):
    the fields [Unknown], [Null] and [Value]. *)
Record Scalar := mkScalar {
  Unknown : bool;
  Null : bool;
  Held : types.Value }.

#[global] Instance scalar_value : Value Scalar := {|
  IsNull := Null;
  IsUnknown := Unknown |}.

(** The literal [types.T{Value: v}] of [pMods]: neither null nor unknown. *)
Definition literal (v : types.Value) : Scalar := mkScalar false false v.

End attr.

Module defaultvalue.

Record ModifyAttributePlanRequest (V : Type) := mkRequest {
  AttributeConfig : V;
  AttributePlan : V }.
Arguments mkRequest {V} _ _.
Arguments AttributeConfig {V} _.
Arguments AttributePlan {V} _.

Record ModifyAttributePlanResponse (V : Type) := mkResponse {
  r_AttributePlan : V;
  r_RequiresReplace : bool;
  r_Diagnostics : list string }.
Arguments mkResponse {V} _ _ _.
Arguments r_AttributePlan {V} _.
Arguments r_RequiresReplace {V} _.
Arguments r_Diagnostics {V} _.

(** [(apm *defaultValuePlanModifier) Modify(_, req, res)], with the
    modifier's [DefaultValue] as [dflt] and the response passed through. *)
Definition Modify {V : Type} `{attr.Value V} (dflt : V)
           (req : ModifyAttributePlanRequest V) (res : ModifyAttributePlanResponse V)
  : ModifyAttributePlanResponse V :=
  if negb (attr.IsNull (AttributeConfig req)) then res
  else if negb (attr.IsUnknown (AttributePlan req)) && negb (attr.IsNull (AttributePlan req))
       then res
       else mkResponse dflt (r_RequiresReplace res) (r_Diagnostics res).

End defaultvalue.

(** ** Notions the properties are stated with *)

(** A token [key:...] occurs in the tag string. *)
Definition hasKey (key allTags : string) : bool :=
  existsb (fun tag => strings.HasPrefix tag (key +:+ ":")) (splitTags allTags).

(** The type strings of the scalar cases of [leaf]. *)
Definition scalarTypes : list string :=
  ["types.Bool"; "bool"; "types.Float64"; "float"; "float64";
   "types.Int64"; "int64"; "int"; "types.Number"; "types.String"; "string"].

(** The plan-modifier construction as the specification words it: the terms of
    the tag value are read in their order, and each recognized term appends
    its modifier. *)
Definition termModifier (attrType term : string) : result (list AttributePlanModifier) :=
  if String.eqb term TagPlanModifierReplace then OK [RequiresReplace]
  else if String.eqb term TagPlanModifierUSFU then OK [UseStateForUnknown]
  else if strings.HasPrefix term (TagPlanModifierDefault +:+ "(") then
    defaultMod (strings.TrimPrefix (strings.TrimSuffix term ")") (TagPlanModifierDefault +:+ "("))
               attrType
  else OK [].

Definition pMods_spec (tagValue attrType : string) : result (list AttributePlanModifier) :=
  pms <- forEach (termModifier attrType) (splitTagValues tagValue) ;;
  OK (concat pms).

(** [splitTags] as the specification words it: the tag string is cut at the
    blanks that are not inside a quoted value.  [inq] tells whether a double
    quote is open. *)
Fixpoint splitUnquoted (s : string) (inq : bool) : list string :=
  match s with
  | EmptyString => [EmptyString]
  | String c s' =>
      if Ascii.eqb c " " && negb inq then EmptyString :: splitUnquoted s' inq
      else
        match splitUnquoted s' (if Ascii.eqb c dq then negb inq else inq) with
        | h :: t => String c h :: t
        | [] => [String c EmptyString]
        end
  end.

Definition splitTags_spec (s : string) : list string := splitUnquoted s false.

(** No byte of [s] is an upper-case letter [A] to [Z]. *)
Fixpoint noUpper (s : string) : bool :=
  match s with
  | EmptyString => true
  | String c s' => negb (regexp.range "A" "Z" c) && noUpper s'
  end.

(** Every byte of [s] is an ASCII byte (below [utf8.RuneSelf]). *)
Fixpoint isASCII (s : string) : bool :=
  match s with
  | EmptyString => true
  | String c s' => (nat_of_ascii c <? 128)%nat && isASCII s'
  end.

(** The place of a modifier in the order [pMods] appends in. *)
Definition rank (m : AttributePlanModifier) : nat :=
  match m with
  | RequiresReplace => 0
  | UseStateForUnknown => 1
  | DefaultValue _ => 2
  end.

(** No byte of [s] is a blank. *)
Fixpoint noSpace (s : string) : bool :=
  match s with
  | EmptyString => true
  | String c s' => negb (Ascii.eqb c " ") && noSpace s'
  end.

(** [s] starts or ends with a blank. *)
Definition padded (s : string) : bool :=
  strings.HasPrefix s " " || strings.HasSuffix s " ".

(** [rest] is what is left of [s] after a prefix without blanks. *)
Definition consumed (s rest : string) : Prop :=
  exists pre, s = pre +:+ rest /\ noSpace pre = true.

(** The type strings of the numeric scalar cases of [leaf]. *)
Definition numericTypes : list string :=
  ["types.Float64"; "float"; "float64"; "types.Int64"; "int64"; "int"; "types.Number"].

(** A literal none of the number parsers of the program accepts. *)
Definition nonNumeric (s : string) : Prop :=
  (forall v, strconv.ParseFloat s <> strconv.Parsed v)
  /\ (forall v, strconv.ParseInt s <> strconv.Parsed v)
  /\ big.Parse s = None.

(** A type that is neither a leaf, a struct nor a slice of structs. *)
Definition unsupportedType (model : rtype) (tags : string) : Prop :=
  leaf model tags = None
  /\ match model with
     | TStruct _ _ => False
     | TSlice elem => kindOf elem <> KStruct
     | TMap _ _ | TBasic _ _ => True
     end.

(** The defects of one field, of type [model] and tag string [tags]: an
    unsupported type; a [between] term whose arguments are not two; a
    [between] argument that is no number; on a numeric scalar field, a default
    or a [oneof] or [noneof] argument that is no number. *)
Inductive fieldDefect (model : rtype) (tags : string) : Prop :=
| DefectType :
    unsupportedType model tags -> fieldDefect model tags
| DefectBetweenCount :
    hasTagArg TagValidatorBetween (tagValue TagValidators tags) = true ->
    length (strings.Split (tagArgs TagValidatorBetween (tagValue TagValidators tags)) ",")
    <> 2 ->
    fieldDefect model tags
| DefectBetweenArg (a : string) :
    hasTagArg TagValidatorBetween (tagValue TagValidators tags) = true ->
    In a (strings.Split (tagArgs TagValidatorBetween (tagValue TagValidators tags)) ",") ->
    nonNumeric a ->
    fieldDefect model tags
| DefectDefault :
    isIn (typeString model) numericTypes = true ->
    hasTagArg TagPlanModifierDefault (tagValue TagPlanModifiers tags) = true ->
    nonNumeric (tagArgs TagPlanModifierDefault (tagValue TagPlanModifiers tags)) ->
    fieldDefect model tags
| DefectOneOf (a : string) :
    isIn (typeString model) numericTypes = true ->
    hasTagArg TagValidatorOneOf (tagValue TagValidators tags) = true ->
    In a (strings.Split (tagArgs TagValidatorOneOf (tagValue TagValidators tags)) ",") ->
    nonNumeric a ->
    fieldDefect model tags
| DefectNoneOf (a : string) :
    isIn (typeString model) numericTypes = true ->
    hasTagArg TagValidatorNoneOf (tagValue TagValidators tags) = true ->
    In a (strings.Split (tagArgs TagValidatorNoneOf (tagValue TagValidators tags)) ",") ->
    nonNumeric a ->
    fieldDefect model tags.

(** A field has a defect of its own, or, being a struct or a slice that
    [leaf] does not take for an attribute, holds an exported field with a
    defect, at any depth. *)
Inductive hasDefect : rtype -> string -> Prop :=
| DefectHere (model : rtype) (tags : string) :
    fieldDefect model tags -> hasDefect model tags
| DefectInField (str : string) (fields : list (StructField rtype)) (tags : string)
                (f : StructField rtype) :
    leaf (TStruct str fields) tags = None ->
    In f fields -> IsExported f = true ->
    hasDefect (FieldType f) (Tag f) ->
    hasDefect (TStruct str fields) tags
| DefectInElem (elem : rtype) (tags : string) :
    leaf (TSlice elem) tags = None ->
    hasDefect elem tags -> hasDefect (TSlice elem) tags.

(** The number of bytes [c] in [s]. *)
Fixpoint countByte (c : ascii) (s : string) : nat :=
  match s with
  | EmptyString => 0
  | String x s' => (if Ascii.eqb x c then 1 else 0) + countByte c s'
  end.

(** [s] without its first [n] bytes. *)
Fixpoint dropBytes (n : nat) (s : string) : string :=
  match n, s with
  | S n', String _ s' => dropBytes n' s'
  | _, _ => s
  end.

(** Every match of [re] is a first group, one byte [sep] and a second group:
    the shape of the two patterns of the tag parser. *)
Definition hidesOne (re : regexp.Regexp) (sep : ascii) : Prop :=
  forall s subs rest,
    regexp.matchAt re s = Some (subs, rest) ->
    exists g1 g2,
      subs = [g1 +:+ String sep g2; g1; g2]
      /\ s = (g1 +:+ String sep g2) +:+ rest
      /\ g1 <> "".

(** The literal bytes of [s], one atom each. *)
Fixpoint litsOf (s : string) : list regexp.atom :=
  match s with
  | EmptyString => []
  | String c s' => regexp.lit c :: litsOf s'
  end.

(** The shape of the two patterns of the tag parser: an opening text
    [o0 o'], bytes other than [close], the separator, bytes other than
    [close], and [close]; the separator parts the two groups. *)
Definition hidePattern (o0 : ascii) (o' : string) (close sep : ascii) : regexp.Regexp :=
  regexp.GOpen :: regexp.lit o0 :: litsOf o'
    ++ [regexp.Star (regexp.notc close); regexp.GClose; regexp.lit sep;
        regexp.GOpen; regexp.Star (regexp.notc close); regexp.lit close; regexp.GClose].

(** The last [sep] of [s]: what precedes it and what follows it. *)
Fixpoint lastSplit (sep : ascii) (s : string) : option (string * string) :=
  match s with
  | EmptyString => None
  | String c s' =>
      match lastSplit sep s' with
      | Some (b1, b2) => Some (String c b1, b2)
      | None => if Ascii.eqb c sep then Some (EmptyString, s') else None
      end
  end.

(** [s] with its last [sep] behind the sentinel: one round on one group. *)
Definition hideLast (sep : ascii) (s : string) : string :=
  match lastSplit sep s with
  | Some (b1, b2) => b1 +:+ sentinel +:+ b2
  | None => s
  end.

(** [s] with every [sep] behind the sentinel. *)
Fixpoint maskAll (sep : ascii) (s : string) : string :=
  match s with
  | EmptyString => EmptyString
  | String c s' => if Ascii.eqb c sep then sentinel +:+ maskAll sep s'
                   else String c (maskAll sep s')
  end.

(** A term of a tag value or a token of a tag string: a text [u_pre] and, for
    some, a group [u_body] in brackets ([name(args)], [key:"value"]). *)
Record textUnit := TextUnit { u_pre : string; u_body : option string }.

Definition mapBody (f : string -> string) (u : textUnit) : textUnit :=
  TextUnit (u_pre u) (option_map f (u_body u)).

Definition unitText (op : string) (close : ascii) (u : textUnit) : string :=
  u_pre u +:+ match u_body u with
              | Some b => op +:+ b +:+ String close ""
              | None => ""
              end.

Definition inBody (sep : ascii) (u : textUnit) : nat :=
  match u_body u with
  | Some b => countByte sep b
  | None => 0
  end.

Definition sumBody (sep : ascii) (us : list textUnit) : nat :=
  fold_right (fun u n => inBody sep u + n) 0 us.

Definition pipe : ascii := "|".

(** The text before the group has neither the opening byte nor the
    separator; the group has neither the closing nor the opening byte. *)
Definition goodUnit (o0 close sep : ascii) (u : textUnit) : Prop :=
  countByte o0 (u_pre u) = 0 /\ countByte sep (u_pre u) = 0
  /\ match u_body u with
     | Some b => countByte close b = 0 /\ countByte o0 b = 0
     | None => True
     end.

(** No byte of the unit is the byte of the sentinel. *)
Definition pipeFree (u : textUnit) : Prop :=
  countByte pipe (u_pre u) = 0
  /\ match u_body u with
     | Some b => countByte pipe b = 0
     | None => True
     end.

(** The term [name] or [name(args)] of a tag value. *)
Definition termText : textUnit -> string := unitText "(" ")".

(** The token [key] or [key:"value"] of a tag string. *)
Definition tokenText : textUnit -> string := unitText (String ":" dquote) dq.

(** The value of the first token [key:"value"] of the list. *)
Fixpoint lookupToken (key : string) (tokens : list textUnit) : string :=
  match tokens with
  | [] => ""
  | u :: rest =>
      match u_body u with
      | Some v => if String.eqb (u_pre u) key then v else lookupToken key rest
      | None => lookupToken key rest
      end
  end.

(** The strings of [l] with [sep] between them. *)
Fixpoint joinWith (sep : ascii) (l : list string) : string :=
  match l with
  | [] => ""
  | [x] => x
  | x :: l' => x +:+ String sep (joinWith sep l')
  end.

(** [x] is [s] with some of its bytes [sep] behind the sentinel. *)
Inductive hides (sep : ascii) : string -> string -> Prop :=
| hides_nil : hides sep "" ""
| hides_copy (c : ascii) (s x : string) :
    hides sep s x -> hides sep (String c s) (String c x)
| hides_sep (s x : string) :
    hides sep s x -> hides sep (String sep s) (sentinel +:+ x).

(** The validator [v] is one the program pairs with an attribute of type [t]. *)
Definition fits (t : types.Type_) (v : AttributeValidator) : bool :=
  match v, t with
  | (ListSizeBetween _ _ | ListSizeAtLeast _), types.ListType _ => true
  | (SetSizeBetween _ _ | SetSizeAtLeast _), types.SetType _ => true
  | (StringLengthBetween _ _ | StringOneOf _ | StringNoneOf _), types.StringType => true
  | Float64Between _ _, (types.Float64Type | types.NumberType) => true
  | (Float64OneOf _ | Float64NoneOf _), types.Float64Type => true
  | (Int64Between _ _ | Int64OneOf _ | Int64NoneOf _), types.Int64Type => true
  | (NumberOneOf _ | NumberNoneOf _), types.NumberType => true
  | _, _ => false
  end.

(** * Properties *)

(** ** The loops of the tag parser reach their fixed point *)

Lemma prefix_empty (s : string) : String.prefix "" s = true.
Proof. destruct s; reflexivity. Qed.

Lemma prefix_append (p q r : string) :
  String.prefix (p +:+ q) (p +:+ r) = String.prefix q r.
Proof.
  induction p as [| a p IH]; [reflexivity |].
  change (String a p +:+ q) with (String a (p +:+ q)).
  change (String a p +:+ r) with (String a (p +:+ r)).
  cbn [String.prefix]. destruct (ascii_dec a a); [exact IH | contradiction].
Qed.

Lemma append_cons (c : ascii) (a b : string) : String c a +:+ b = String c (a +:+ b).
Proof. reflexivity. Qed.

Lemma append_nil_r (a : string) : a +:+ "" = a.
Proof. induction a as [| c a IH]; [reflexivity |]. rewrite append_cons, IH. reflexivity. Qed.

Lemma append_assoc (a b c : string) : (a +:+ b) +:+ c = a +:+ (b +:+ c).
Proof.
  induction a as [| x a IH]; [reflexivity |]. rewrite !append_cons, IH. reflexivity.
Qed.

Lemma length_append (a b : string) :
  String.length (a +:+ b) = String.length a + String.length b.
Proof.
  induction a as [| x a IH]; [reflexivity |]. rewrite append_cons. cbn [String.length].
  rewrite IH. reflexivity.
Qed.

Lemma countByte_append (c : ascii) (a b : string) :
  countByte c (a +:+ b) = countByte c a + countByte c b.
Proof.
  induction a as [| x a IH]; [reflexivity |]. rewrite append_cons. cbn [countByte].
  rewrite IH. lia.
Qed.

Lemma countByte_length (c : ascii) (s : string) : countByte c s <= String.length s.
Proof.
  induction s as [| x s IH]; [reflexivity |]. cbn [countByte String.length].
  destruct (Ascii.eqb x c); lia.
Qed.

Lemma dropBytes_append (a b : string) : dropBytes (String.length a) (a +:+ b) = b.
Proof. induction a as [| x a IH]; [destruct b; reflexivity | exact IH]. Qed.

(** What a match of the atoms says about the text. *)

Lemma matchHere_star (p : ascii -> bool) (re : regexp.Regexp) (s whole cur : string)
      (gs : list string) (res : list string * string) :
  regexp.matchHere (regexp.Star p :: re) s whole cur gs = Some res ->
  exists pre post,
    s = pre +:+ post
    /\ regexp.matchHere re post (whole +:+ pre) (cur +:+ pre) gs = Some res.
Proof.
  revert whole cur. induction s as [| c s IH]; intros whole cur H.
  - exists "", "". rewrite !append_nil_r. split; [reflexivity | exact H].
  - cbn [regexp.matchHere] in H.
    destruct (p c).
    + match type of H with
      | match ?X with _ => _ end = _ => destruct X as [r |] eqn:Hstar
      end.
      * injection H as <-. apply IH in Hstar as (pre & post & -> & Hm).
        exists (String c pre), post. split; [reflexivity |].
        unfold regexp.snoc in Hm. rewrite !append_assoc in Hm. exact Hm.
      * exists "", (String c s). rewrite !append_nil_r. split; [reflexivity | exact H].
    + exists "", (String c s). rewrite !append_nil_r. split; [reflexivity | exact H].
Qed.

Lemma matchHere_chr (p : ascii -> bool) (re : regexp.Regexp) (s whole cur : string)
      (gs : list string) (res : list string * string) :
  regexp.matchHere (regexp.Chr p :: re) s whole cur gs = Some res ->
  exists c s',
    s = String c s' /\ p c = true
    /\ regexp.matchHere re s' (whole +:+ String c "") (cur +:+ String c "") gs = Some res.
Proof.
  destruct s as [| c s']; cbn [regexp.matchHere]; [discriminate |].
  destruct (p c) eqn:Hp; [| discriminate]. intros H. exists c, s'. auto.
Qed.

Lemma matchHere_open (re : regexp.Regexp) (s whole cur : string) (gs : list string) :
  regexp.matchHere (regexp.GOpen :: re) s whole cur gs = regexp.matchHere re s whole "" gs.
Proof. reflexivity. Qed.

Lemma matchHere_close (re : regexp.Regexp) (s whole cur : string) (gs : list string) :
  regexp.matchHere (regexp.GClose :: re) s whole cur gs
  = regexp.matchHere re s whole "" (cur :: gs).
Proof. reflexivity. Qed.

Lemma matchHere_lit (c : ascii) (re : regexp.Regexp) (s whole cur : string)
      (gs : list string) (res : list string * string) :
  regexp.matchHere (regexp.lit c :: re) s whole cur gs = Some res ->
  exists s',
    s = String c s'
    /\ regexp.matchHere re s' (whole +:+ String c "") (cur +:+ String c "") gs = Some res.
Proof.
  intros H. apply matchHere_chr in H as (x & s' & -> & Hx & H).
  apply Ascii.eqb_eq in Hx. subst x. eauto.
Qed.

Lemma reParenComma_hidesOne : hidesOne reParenComma ",".
Proof.
  intros s subs rest H. unfold regexp.matchAt, reParenComma in H.
  rewrite matchHere_open in H.
  apply matchHere_lit in H as (s1 & -> & H).
  apply matchHere_star in H as (pre1 & s2 & -> & H).
  rewrite matchHere_close in H.
  apply matchHere_lit in H as (s3 & -> & H).
  rewrite matchHere_open in H.
  apply matchHere_star in H as (pre2 & s4 & -> & H).
  apply matchHere_lit in H as (s5 & -> & H).
  rewrite matchHere_close in H.
  injection H as <- <-. cbn [rev app].
  exists ("(" +:+ pre1), (pre2 +:+ ")").
  rewrite !append_assoc, !append_cons, !append_assoc. cbn.
  repeat split. discriminate.
Qed.

Lemma reQuotedSpace_hidesOne : hidesOne reQuotedSpace " ".
Proof.
  intros s subs rest H. unfold regexp.matchAt, reQuotedSpace in H.
  rewrite matchHere_open in H.
  apply matchHere_lit in H as (s0 & -> & H).
  apply matchHere_lit in H as (s1 & -> & H).
  apply matchHere_star in H as (pre1 & s2 & -> & H).
  rewrite matchHere_close in H.
  apply matchHere_lit in H as (s3 & -> & H).
  rewrite matchHere_open in H.
  apply matchHere_star in H as (pre2 & s4 & -> & H).
  apply matchHere_lit in H as (s5 & -> & H).
  rewrite matchHere_close in H.
  injection H as <- <-. cbn [rev app].
  exists (":" +:+ dquote +:+ pre1), (pre2 +:+ dquote).
  unfold dquote.
  rewrite !append_assoc, !append_cons, !append_assoc. cbn.
  repeat split. discriminate.
Qed.

Lemma replaceAllFrom_skip (re : regexp.Regexp) (repl : list string -> string)
      (s : string) (k : nat) :
  regexp.replaceAllFrom re repl s k = regexp.replaceAllFrom re repl (dropBytes k s) 0.
Proof.
  revert k. induction s as [| c s IH]; intros k.
  - destruct k; reflexivity.
  - destruct k as [| k]; [reflexivity |]. cbn [regexp.replaceAllFrom dropBytes]. apply IH.
Qed.

Section HidesOne.

Variables (re : regexp.Regexp) (sep : ascii).
Hypothesis Hre : hidesOne re sep.
Hypothesis Hsentinel : countByte sep sentinel = 0.

Lemma hide_match (s : string) (subs : list string) (rest : string) :
  regexp.matchAt re s = Some (subs, rest) ->
  exists g1 g2,
    s = (g1 +:+ String sep g2) +:+ rest
    /\ hideOnce re s = (g1 +:+ sentinel +:+ g2) +:+ hideOnce re rest.
Proof.
  intros Hm. destruct (Hre _ _ _ Hm) as (g1 & g2 & -> & Hs & Hne).
  exists g1, g2. split; [exact Hs |].
  destruct g1 as [| c g1]; [contradiction |].
  unfold hideOnce, regexp.ReplaceAllString. rewrite Hs at 1.
  rewrite !append_cons. cbn [regexp.replaceAllFrom].
  rewrite <- !append_cons, <- Hs, Hm.
  rewrite replaceAllFrom_skip. cbn [regexp.group nth].
  rewrite append_cons. cbn [String.length].
  replace (S (String.length (g1 +:+ String sep g2)) - 1)
    with (String.length (g1 +:+ String sep g2)) by lia.
  rewrite dropBytes_append. reflexivity.
Qed.

Lemma hide_nomatch (c : ascii) (s : string) :
  regexp.matchAt re (String c s) = None -> hideOnce re (String c s) = String c (hideOnce re s).
Proof.
  intros Hm. unfold hideOnce, regexp.ReplaceAllString. cbn [regexp.replaceAllFrom].
  rewrite Hm. reflexivity.
Qed.

Lemma hide_count (n : nat) (s : string) :
  String.length s <= n ->
  countByte sep (hideOnce re s) <= countByte sep s
  /\ (hideOnce re s <> s -> countByte sep (hideOnce re s) < countByte sep s).
Proof.
  revert s. induction n as [| n IH]; intros s Hlen.
  - destruct s; [| cbn in Hlen; lia]. split; [reflexivity | intros H; contradiction H; reflexivity].
  - destruct s as [| c s]; [split; [reflexivity | intros H; contradiction H; reflexivity] |].
    destruct (regexp.matchAt re (String c s)) as [[subs rest] |] eqn:Hm.
    + destruct (hide_match _ _ _ Hm) as (g1 & g2 & Hs & ->).
      assert (Hrest : String.length rest <= n).
      { apply (f_equal String.length) in Hs.
        rewrite !length_append in Hs. cbn [String.length] in *. lia. }
      destruct (IH rest Hrest) as [Hle _].
      rewrite Hs, !countByte_append, Hsentinel. cbn [countByte].
      rewrite Ascii.eqb_refl. lia.
    + rewrite (hide_nomatch _ _ Hm). cbn [countByte String.length] in *.
      destruct (IH s ltac:(lia)) as [Hle Hlt]. split; [lia |].
      intros Hne. assert (hideOnce re s <> s) by congruence. specialize (Hlt H). lia.
Qed.

Lemma untilStable_stable (fuel : nat) (s : string) :
  countByte sep s <= fuel ->
  hideOnce re (untilStable re fuel s) = untilStable re fuel s.
Proof.
  revert s. induction fuel as [| fuel IH]; intros s Hc; cbn [untilStable].
  - destruct (String.eqb_spec (hideOnce re s) s) as [E | E]; [exact E |].
    apply (hide_count (String.length s) s (le_n _)) in E. lia.
  - fold (hideOnce re s). destruct (String.eqb_spec (hideOnce re s) s) as [E | E]; [exact E |].
    apply IH. apply (hide_count (String.length s) s (le_n _)) in E. lia.
Qed.

End HidesOne.

Lemma hideSeparators_settled (re : regexp.Regexp) (sep : ascii) (s : string) :
  hidesOne re sep ->
  countByte sep sentinel = 0 ->
  hideOnce re (hideSeparators re s) = hideSeparators re s.
Proof.
  intros Hre Hsentinel. unfold hideSeparators.
  apply (untilStable_stable re sep Hre Hsentinel). apply countByte_length.
Qed.

(** The loop of [splitTagValues] ends: the string that is split is one the
    pattern no longer changes. *)
Lemma splitTagValues_settled (s : string) :
  hideOnce reParenComma (hideSeparators reParenComma s) = hideSeparators reParenComma s.
Proof. apply (hideSeparators_settled _ ","); [apply reParenComma_hidesOne | reflexivity]. Qed.

(** The loop of [splitTags] ends likewise. *)
Lemma splitTags_settled (s : string) :
  hideOnce reQuotedSpace (hideSeparators reQuotedSpace s) = hideSeparators reQuotedSpace s.
Proof. apply (hideSeparators_settled _ " "); [apply reQuotedSpace_hidesOne | reflexivity]. Qed.

(** ** The tag parser on a text made of terms or tokens *)

Lemma reParenComma_pattern : reParenComma = hidePattern "(" "" ")" ",".
Proof. reflexivity. Qed.

Lemma reQuotedSpace_pattern : reQuotedSpace = hidePattern ":" dquote dq " ".
Proof. reflexivity. Qed.

Lemma lastSplit_Some sep s b1 b2 :
  lastSplit sep s = Some (b1, b2) -> s = b1 +:+ String sep b2 /\ countByte sep b2 = 0.
Proof.
  revert b1. induction s as [| c s IH]; intros b1; cbn [lastSplit]; [discriminate |].
  destruct (lastSplit sep s) as [[x y] |] eqn:E.
  - intros [= <- <-]. destruct (IH x eq_refl) as [-> Hc]. split; [reflexivity | exact Hc].
  - destruct (Ascii.eqb_spec c sep) as [-> | _]; [| discriminate].
    intros [= <- <-]. split; [reflexivity |].
    clear IH. induction s as [| d s IH]; [reflexivity |].
    cbn [lastSplit] in E. destruct (lastSplit sep s) as [[x y] |]; [discriminate |].
    destruct (Ascii.eqb_spec d sep) as [-> | Hd]; [discriminate |].
    cbn [countByte]. rewrite (IH eq_refl).
    destruct (Ascii.eqb_spec d sep); [contradiction | reflexivity].
Qed.

Lemma lastSplit_None sep s : lastSplit sep s = None <-> countByte sep s = 0.
Proof.
  induction s as [| c s IH]; [split; reflexivity |].
  cbn [lastSplit countByte].
  destruct (lastSplit sep s) as [[x y] |].
  - split; [discriminate |]. intros H.
    destruct IH as [_ IH]. discriminate IH. lia.
  - destruct (Ascii.eqb_spec c sep).
    + split; [discriminate | intros H; lia].
    + split; [intros _; apply IH; reflexivity | reflexivity].
Qed.

Lemma matchHere_star_cons (p : ascii -> bool) (r : regexp.Regexp) (a : ascii)
      (s w c : string) (gs : list string) :
  regexp.matchHere (regexp.Star p :: r) (String a s) w c gs
  = if p a
    then match regexp.matchHere (regexp.Star p :: r) s (regexp.snoc w a) (regexp.snoc c a) gs
         with
         | Some x => Some x
         | None => regexp.matchHere r (String a s) w c gs
         end
    else regexp.matchHere r (String a s) w c gs.
Proof. reflexivity. Qed.

Lemma matchHere_star_nil (p : ascii -> bool) (r : regexp.Regexp) (w c : string)
      (gs : list string) :
  regexp.matchHere (regexp.Star p :: r) "" w c gs = regexp.matchHere r "" w c gs.
Proof. reflexivity. Qed.

Lemma matchHere_lit_cons (a x : ascii) (r : regexp.Regexp) (s w c : string)
      (gs : list string) :
  regexp.matchHere (regexp.lit a :: r) (String x s) w c gs
  = if Ascii.eqb a x then regexp.matchHere r s (regexp.snoc w x) (regexp.snoc c x) gs
    else None.
Proof. reflexivity. Qed.

Lemma matchHere_lit_nil (a : ascii) (r : regexp.Regexp) (w c : string) (gs : list string) :
  regexp.matchHere (regexp.lit a :: r) "" w c gs = None.
Proof. reflexivity. Qed.

Lemma countByte_zero_cons (a c : ascii) (s : string) :
  countByte a (String c s) = 0 <-> c <> a /\ countByte a s = 0.
Proof.
  cbn [countByte]. destruct (Ascii.eqb_spec c a); split; intros; try lia; intuition.
Qed.

Lemma hideOnce_nil (re : regexp.Regexp) : hideOnce re "" = "".
Proof. reflexivity. Qed.

Lemma hideOnce_step (re : regexp.Regexp) (s w g1 g2 rest : string) :
  regexp.matchAt re s = Some ([w; g1; g2], rest) ->
  s = w +:+ rest -> w <> "" ->
  hideOnce re s = (g1 +:+ sentinel +:+ g2) +:+ hideOnce re rest.
Proof.
  intros Hm Hs Hw. destruct w as [| c w]; [contradiction |].
  unfold hideOnce, regexp.ReplaceAllString. rewrite Hs at 1.
  rewrite append_cons. cbn [regexp.replaceAllFrom].
  rewrite <- append_cons, <- Hs, Hm.
  rewrite replaceAllFrom_skip. cbn [regexp.group nth String.length].
  replace (S (String.length w) - 1) with (String.length w) by lia.
  rewrite dropBytes_append. reflexivity.
Qed.

Lemma countByte_maskAll (sep : ascii) (s : string) :
  countByte sep sentinel = 0 -> countByte sep (maskAll sep s) = 0.
Proof.
  intros Hp. induction s as [| c s IH]; [reflexivity |]. cbn [maskAll].
  destruct (Ascii.eqb_spec c sep) as [-> | Hc].
  - rewrite countByte_append, Hp, IH. reflexivity.
  - cbn [countByte]. rewrite IH. destruct (Ascii.eqb_spec c sep); [contradiction | reflexivity].
Qed.

Lemma maskAll_id (sep : ascii) (s : string) : countByte sep s = 0 -> maskAll sep s = s.
Proof.
  induction s as [| c s IH]; [reflexivity |]. intros H.
  apply countByte_zero_cons in H as [Hc Hs]. cbn [maskAll].
  destruct (Ascii.eqb_spec c sep); [contradiction |]. rewrite (IH Hs). reflexivity.
Qed.

Lemma maskAll_append (sep : ascii) (a b : string) :
  maskAll sep (a +:+ b) = maskAll sep a +:+ maskAll sep b.
Proof.
  induction a as [| c a IH]; [reflexivity |]. rewrite append_cons. cbn [maskAll].
  destruct (Ascii.eqb c sep); rewrite IH, ?append_assoc; reflexivity.
Qed.

Lemma maskAll_hideLast (sep : ascii) (b : string) :
  countByte sep sentinel = 0 -> maskAll sep (hideLast sep b) = maskAll sep b.
Proof.
  intros Hp. unfold hideLast.
  destruct (lastSplit sep b) as [[b1 b2] |] eqn:E; [| reflexivity].
  apply lastSplit_Some in E as [-> Hs2].
  rewrite !maskAll_append, (maskAll_id _ sentinel Hp). cbn [maskAll].
  rewrite Ascii.eqb_refl. reflexivity.
Qed.

Lemma countByte_hideLast (sep : ascii) (b : string) :
  countByte sep sentinel = 0 ->
  countByte sep (hideLast sep b) = countByte sep b - 1.
Proof.
  intros Hp. unfold hideLast.
  destruct (lastSplit sep b) as [[b1 b2] |] eqn:E.
  - apply lastSplit_Some in E as [-> Hs2].
    rewrite !countByte_append, Hp. cbn [countByte]. rewrite Ascii.eqb_refl. lia.
  - apply lastSplit_None in E. lia.
Qed.

Lemma joinWith_cons (sep : ascii) (x : string) (l : list string) :
  l <> [] -> joinWith sep (x :: l) = x +:+ String sep (joinWith sep l).
Proof. destruct l; [contradiction | reflexivity]. Qed.

Lemma Split_plain (sep : ascii) (x : string) :
  countByte sep x = 0 -> strings.Split x sep = [x].
Proof.
  induction x as [| c x IH]; [reflexivity |]. intros H.
  apply countByte_zero_cons in H as [Hc Hx]. cbn [strings.Split].
  destruct (Ascii.eqb_spec c sep); [contradiction |]. rewrite (IH Hx). reflexivity.
Qed.

Lemma Split_append (sep : ascii) (x t : string) :
  countByte sep x = 0 ->
  strings.Split (x +:+ String sep t) sep = x :: strings.Split t sep.
Proof.
  induction x as [| c x IH]; intros H.
  - change ("" +:+ String sep t) with (String sep t). cbn [strings.Split].
    rewrite Ascii.eqb_refl. reflexivity.
  - apply countByte_zero_cons in H as [Hc Hx]. rewrite append_cons. cbn [strings.Split].
    destruct (Ascii.eqb_spec c sep); [contradiction |]. rewrite (IH Hx). reflexivity.
Qed.

Lemma Split_joinWith (sep : ascii) (l : list string) :
  l <> [] -> Forall (fun x => countByte sep x = 0) l ->
  strings.Split (joinWith sep l) sep = l.
Proof.
  induction l as [| x l IH]; [contradiction |]. intros _ Hl.
  inversion Hl as [| ? ? Hx Hl']; subst.
  destruct l as [| y l].
  - cbn [joinWith]. apply Split_plain. exact Hx.
  - rewrite joinWith_cons by discriminate. rewrite (Split_append _ _ _ Hx).
    rewrite IH; [reflexivity | discriminate | exact Hl'].
Qed.

Lemma Replace_copy (c : ascii) (v new : string) :
  c <> pipe ->
  strings.Replace (String c v) sentinel new = String c (strings.Replace v sentinel new).
Proof.
  intros Hc. unfold strings.Replace, sentinel. cbn [strings.replaceFrom String.prefix].
  destruct (ascii_dec "|" c) as [E | _]; [symmetry in E; contradiction | reflexivity].
Qed.

Lemma Replace_sentinel (v new : string) :
  strings.Replace (sentinel +:+ v) sentinel new = new +:+ strings.Replace v sentinel new.
Proof.
  unfold strings.Replace, sentinel.
  change ("|||||" +:+ v) with (String "|" (String "|" (String "|" (String "|" (String "|" v))))).
  cbn [strings.replaceFrom String.prefix String.length Nat.sub].
  repeat (destruct (ascii_dec "|" "|") as [_ | E]; [| contradiction E; reflexivity]).
  rewrite prefix_empty. reflexivity.
Qed.

Lemma Replace_plain (x t new : string) :
  countByte pipe x = 0 ->
  strings.Replace (x +:+ t) sentinel new = x +:+ strings.Replace t sentinel new.
Proof.
  induction x as [| c x IH]; [reflexivity |]. intros H.
  apply countByte_zero_cons in H as [Hc Hx].
  rewrite !append_cons, Replace_copy, (IH Hx) by exact Hc. reflexivity.
Qed.

Lemma Replace_maskAll (sep : ascii) (x t : string) :
  countByte pipe x = 0 ->
  strings.Replace (maskAll sep x +:+ t) sentinel (String sep "")
  = x +:+ strings.Replace t sentinel (String sep "").
Proof.
  induction x as [| c x IH]; [reflexivity |]. intros H.
  apply countByte_zero_cons in H as [Hc Hx]. cbn [maskAll].
  destruct (Ascii.eqb_spec c sep) as [-> | Hne].
  - rewrite append_assoc, Replace_sentinel, (IH Hx). reflexivity.
  - rewrite !append_cons, Replace_copy, (IH Hx) by exact Hc. reflexivity.
Qed.

Lemma countByte_other_maskAll (a sep : ascii) (b : string) :
  countByte a sentinel = 0 -> countByte a b = 0 -> countByte a (maskAll sep b) = 0.
Proof.
  intros Hp. induction b as [| c b IH]; [reflexivity |]. intros H.
  apply countByte_zero_cons in H as [Hc Hb]. cbn [maskAll].
  destruct (Ascii.eqb c sep).
  - rewrite countByte_append, Hp, (IH Hb). reflexivity.
  - apply countByte_zero_cons. auto.
Qed.

Section Pattern.

Variables (o0 : ascii) (o' : string) (close sep : ascii).
Hypothesis Hsc : sep <> close.
Hypothesis Hso : sep <> o0.
Hypothesis Hco : close <> o0.
Hypothesis Ho' : countByte o0 o' = 0.
Hypothesis Hpipe_sep : countByte sep sentinel = 0.
Hypothesis Hpipe_close : countByte close sentinel = 0.
Hypothesis Hpipe_o0 : countByte o0 sentinel = 0.

Let np := regexp.notc close.
Let tail2 : regexp.Regexp := [regexp.Star np; regexp.lit close; regexp.GClose].
Let tail1 : regexp.Regexp :=
  regexp.GClose :: regexp.lit sep :: regexp.GOpen :: tail2.

Lemma matchHere_lits (s : string) (r : regexp.Regexp) (t w c : string) (gs : list string) :
  regexp.matchHere (litsOf s ++ r)%list (s +:+ t) w c gs
  = regexp.matchHere r t (w +:+ s) (c +:+ s) gs.
Proof.
  revert w c. induction s as [| x s IH]; intros w c.
  - rewrite !append_nil_r. reflexivity.
  - cbn [litsOf app]. rewrite append_cons, matchHere_lit_cons, Ascii.eqb_refl, IH.
    unfold regexp.snoc. rewrite !append_assoc. reflexivity.
Qed.

Lemma np_spec (c : ascii) : np c = true <-> c <> close.
Proof.
  unfold np, regexp.notc. destruct (Ascii.eqb_spec close c); cbn [negb]; split; intros;
    congruence.
Qed.

(** The star gives way to what follows it at the closing byte. *)
Lemma star_stop (r : regexp.Regexp) (t w c : string) (gs : list string) :
  regexp.matchHere (regexp.Star np :: r) (String close t) w c gs
  = regexp.matchHere r (String close t) w c gs.
Proof.
  rewrite matchHere_star_cons. destruct (np close) eqn:E; [| reflexivity].
  apply np_spec in E. contradiction.
Qed.

(** A success of the star after [x] is a success before [x]. *)
Lemma star_app_Some (r : regexp.Regexp) (x y w c : string) (gs : list string)
      (res : list string * string) :
  countByte close x = 0 ->
  regexp.matchHere (regexp.Star np :: r) y (w +:+ x) (c +:+ x) gs = Some res ->
  regexp.matchHere (regexp.Star np :: r) (x +:+ y) w c gs = Some res.
Proof.
  revert w c. induction x as [| a x IH]; intros w c Hx H.
  - rewrite !append_nil_r in H. exact H.
  - apply countByte_zero_cons in Hx as [Ha Hx].
    rewrite append_cons, matchHere_star_cons.
    assert (E : np a = true) by (apply np_spec; exact Ha). rewrite E.
    rewrite (IH (regexp.snoc w a) (regexp.snoc c a) Hx); [reflexivity |].
    unfold regexp.snoc. rewrite !append_assoc. exact H.
Qed.

(** Where no separator comes before the closing byte, the first star finds
    no place to stop. *)
Lemma star_no_sep (r : regexp.Regexp) (x t w c : string) (gs : list string) :
  countByte sep x = 0 ->
  regexp.matchHere (regexp.Star np :: regexp.GClose :: regexp.lit sep :: r)
                   (x +:+ String close t) w c gs = None.
Proof.
  revert w c. induction x as [| a x IH]; intros w c Hx.
  - change ("" +:+ String close t) with (String close t).
    rewrite star_stop, matchHere_close, matchHere_lit_cons.
    destruct (Ascii.eqb_spec sep close); [contradiction | reflexivity].
  - apply countByte_zero_cons in Hx as [Ha Hx].
    rewrite append_cons, matchHere_star_cons, (IH _ _ Hx).
    rewrite matchHere_close, matchHere_lit_cons.
    destruct (Ascii.eqb_spec sep a); [congruence |]. destruct (np a); reflexivity.
Qed.

(** The tail of the pattern on a body with a separator: the first star stops
    at the last separator. *)
Lemma tail_match (b1 b2 t w c : string) (gs : list string) :
  countByte close b1 = 0 -> countByte close b2 = 0 -> countByte sep b2 = 0 ->
  regexp.matchHere (regexp.Star np :: tail1) (b1 +:+ String sep (b2 +:+ String close t))
                   w c gs
  = Some ((w +:+ b1 +:+ String sep (b2 +:+ String close ""))
            :: rev ((b2 +:+ String close "") :: (c +:+ b1) :: gs), t).
Proof.
  intros Hb1 Hb2 Hs2. apply star_app_Some; [exact Hb1 |].
  rewrite matchHere_star_cons.
  assert (E : np sep = true) by (apply np_spec; exact Hsc). rewrite E.
  unfold tail1 at 1. rewrite (star_no_sep _ b2 t _ _ gs Hs2).
  unfold tail1. rewrite matchHere_close, matchHere_lit_cons, Ascii.eqb_refl, matchHere_open.
  unfold tail2. erewrite star_app_Some; [reflexivity | exact Hb2 |].
  rewrite star_stop, matchHere_lit_cons, Ascii.eqb_refl, matchHere_close.
  cbn [regexp.matchHere]. unfold regexp.snoc.
  rewrite !append_assoc. reflexivity.
Qed.

Let P := hidePattern o0 o' close sep.
Let op := String o0 o'.

Lemma matchAt_other (c : ascii) (s : string) :
  c <> o0 -> regexp.matchAt P (String c s) = None.
Proof.
  intros Hc. unfold regexp.matchAt, P, hidePattern.
  rewrite matchHere_open, matchHere_lit_cons.
  destruct (Ascii.eqb_spec o0 c); [congruence | reflexivity].
Qed.

Lemma matchAt_group_sep (b1 b2 t : string) :
  countByte close b1 = 0 -> countByte close b2 = 0 -> countByte sep b2 = 0 ->
  regexp.matchAt P (op +:+ b1 +:+ String sep (b2 +:+ String close t))
  = Some ([(op +:+ b1) +:+ String sep (b2 +:+ String close "");
           op +:+ b1; b2 +:+ String close ""], t).
Proof.
  intros Hb1 Hb2 Hs2. unfold regexp.matchAt, P, hidePattern, op.
  rewrite matchHere_open, append_cons, matchHere_lit_cons, Ascii.eqb_refl.
  rewrite matchHere_lits.
  fold np. change ([regexp.Star np; regexp.GClose; regexp.lit sep; regexp.GOpen;
                    regexp.Star np; regexp.lit close; regexp.GClose])
    with (regexp.Star np :: tail1).
  rewrite (tail_match b1 b2 t _ _ [] Hb1 Hb2 Hs2).
  unfold regexp.snoc. cbn [rev app]. rewrite !append_assoc. reflexivity.
Qed.

Lemma matchAt_group_nosep (b t : string) :
  countByte sep b = 0 ->
  regexp.matchAt P (op +:+ b +:+ String close t) = None.
Proof.
  intros Hb. unfold regexp.matchAt, P, hidePattern, op.
  rewrite matchHere_open, append_cons, matchHere_lit_cons, Ascii.eqb_refl.
  rewrite matchHere_lits. fold np. apply star_no_sep. exact Hb.
Qed.

Lemma scan_copy (x t : string) :
  countByte o0 x = 0 -> hideOnce P (x +:+ t) = x +:+ hideOnce P t.
Proof.
  induction x as [| c x IH]; intros Hx; [reflexivity |].
  apply countByte_zero_cons in Hx as [Hc Hx].
  rewrite !append_cons, hide_nomatch by (apply matchAt_other; exact Hc).
  rewrite (IH Hx). reflexivity.
Qed.

Lemma countByte_sentinel_hideLast (a : ascii) (b : string) :
  countByte a sentinel = 0 -> a <> sep -> countByte a b = 0 ->
  countByte a (hideLast sep b) = 0.
Proof.
  intros Hp Ha Hb. unfold hideLast.
  destruct (lastSplit sep b) as [[b1 b2] |] eqn:E; [| exact Hb].
  apply lastSplit_Some in E as [-> _].
  rewrite countByte_append in Hb. cbn [countByte] in Hb.
  rewrite !countByte_append, Hp. lia.
Qed.

Lemma hide_group (b t : string) :
  countByte close b = 0 -> countByte o0 b = 0 ->
  hideOnce P (op +:+ b +:+ String close t)
  = op +:+ hideLast sep b +:+ String close (hideOnce P t).
Proof.
  intros Hc Ho. unfold hideLast.
  destruct (lastSplit sep b) as [[b1 b2] |] eqn:E.
  - apply lastSplit_Some in E as [-> Hs2].
    rewrite countByte_append in Hc. cbn [countByte] in Hc.
    rewrite !append_assoc, append_cons.
    rewrite (hideOnce_step P _ _ _ _ _ (matchAt_group_sep b1 b2 t ltac:(lia) ltac:(lia) Hs2)).
    + rewrite ?append_assoc, ?append_cons, ?append_assoc. reflexivity.
    + rewrite ?append_assoc, ?append_cons, ?append_assoc. reflexivity.
    + discriminate.
  - apply lastSplit_None in E.
    unfold op at 1. rewrite append_cons.
    rewrite hide_nomatch by (rewrite <- append_cons; apply matchAt_group_nosep; exact E).
    replace (o' +:+ b +:+ String close t) with ((o' +:+ b +:+ String close "") +:+ t)
      by (rewrite !append_assoc; reflexivity).
    rewrite scan_copy.
    + unfold op. rewrite !append_assoc, !append_cons. reflexivity.
    + rewrite !countByte_append, Ho', Ho. cbn [countByte].
      destruct (Ascii.eqb_spec close o0); [contradiction | reflexivity].
Qed.

Hypothesis Hso' : countByte sep o' = 0.

Let text := unitText op close.
Let hideU := mapBody (hideLast sep).
Let maskU := mapBody (maskAll sep).
Let J (us : list textUnit) : string := joinWith sep (map text us).

Lemma goodUnit_hideU (u : textUnit) : goodUnit o0 close sep u -> goodUnit o0 close sep (hideU u).
Proof.
  intros (H1 & H2 & H3). unfold goodUnit, hideU, mapBody. cbn [u_pre u_body].
  repeat split; try assumption.
  destruct (u_body u) as [b |]; cbn [option_map]; [| exact I].
  destruct H3 as [Hc Ho]. split; apply countByte_sentinel_hideLast; auto.
Qed.

Lemma goodUnit_map_hideU (us : list textUnit) :
  Forall (goodUnit o0 close sep) us -> Forall (goodUnit o0 close sep) (map hideU us).
Proof.
  induction 1 as [| u us Hu _ IH]; cbn [map]; constructor;
    [apply goodUnit_hideU; exact Hu | exact IH].
Qed.

Lemma hideOnce_unit (u : textUnit) (t : string) :
  goodUnit o0 close sep u ->
  hideOnce P (text u +:+ t) = text (hideU u) +:+ hideOnce P t.
Proof.
  intros (H1 & _ & H3). unfold text, unitText, hideU, mapBody. cbn [u_pre u_body].
  rewrite !append_assoc, (scan_copy _ _ H1).
  destruct (u_body u) as [b |]; cbn [option_map]; [| reflexivity].
  destruct H3 as [Hc Ho]. rewrite !append_assoc, !append_cons.
  change ("" +:+ t) with t. rewrite (hide_group b t Hc Ho). reflexivity.
Qed.

Lemma hideOnce_units (us : list textUnit) :
  Forall (goodUnit o0 close sep) us -> hideOnce P (J us) = J (map hideU us).
Proof.
  induction us as [| u us IH]; intros Hus; [reflexivity |].
  inversion Hus as [| ? ? Hu Hus']; subst. unfold J in *.
  destruct us as [| v us].
  - cbn [map joinWith]. rewrite <- (append_nil_r (text u)), hideOnce_unit by exact Hu.
    rewrite hideOnce_nil, !append_nil_r. reflexivity.
  - cbn [map]. rewrite !joinWith_cons by discriminate.
    rewrite hideOnce_unit by exact Hu.
    rewrite hide_nomatch by (apply matchAt_other; exact Hso).
    cbn [map] in IH. rewrite (IH Hus'). reflexivity.
Qed.

Lemma countByte_text (u : textUnit) :
  goodUnit o0 close sep u -> countByte sep (text u) = inBody sep u.
Proof.
  intros (_ & H2 & _). unfold text, unitText, inBody.
  rewrite countByte_append, H2.
  destruct (u_body u) as [b |]; [| reflexivity].
  unfold op. rewrite append_cons. cbn [countByte].
  rewrite !countByte_append, Hso'. cbn [countByte].
  destruct (Ascii.eqb_spec o0 sep); [congruence |].
  destruct (Ascii.eqb_spec close sep); [congruence | lia].
Qed.

Lemma countByte_J (us : list textUnit) :
  Forall (goodUnit o0 close sep) us -> countByte sep (J us) = (length us - 1) + sumBody sep us.
Proof.
  induction us as [| u us IH]; intros Hus; [reflexivity |].
  inversion Hus as [| ? ? Hu Hus']; subst. unfold J in *.
  destruct us as [| v us].
  - cbn [map joinWith sumBody fold_right length]. rewrite (countByte_text _ Hu). lia.
  - cbn [map]. rewrite joinWith_cons by discriminate.
    rewrite countByte_append, (countByte_text _ Hu). cbn [countByte].
    rewrite Ascii.eqb_refl. cbn [map] in IH. rewrite (IH Hus').
    cbn [sumBody fold_right length]. lia.
Qed.

Lemma sumBody_hideU (us : list textUnit) :
  sumBody sep (map hideU us) <= sumBody sep us
  /\ (0 < sumBody sep us -> sumBody sep (map hideU us) < sumBody sep us).
Proof.
  induction us as [| u us [IH1 IH2]]; [cbn; lia |].
  cbn [map sumBody fold_right]. fold (sumBody sep us). fold (sumBody sep (map hideU us)).
  assert (Hu : inBody sep (hideU u) = inBody sep u - 1).
  { unfold inBody, hideU, mapBody. cbn [u_body].
    destruct (u_body u) as [b |]; cbn [option_map]; [| reflexivity].
    apply countByte_hideLast. exact Hpipe_sep. }
  rewrite Hu. lia.
Qed.

Lemma maskU_hideU (us : list textUnit) : map maskU (map hideU us) = map maskU us.
Proof.
  rewrite map_map. apply map_ext. intros u. unfold maskU, hideU, mapBody.
  cbn [u_pre u_body]. destruct (u_body u) as [b |]; cbn [option_map]; [| reflexivity].
  rewrite (maskAll_hideLast _ _ Hpipe_sep). reflexivity.
Qed.

Lemma maskU_id (us : list textUnit) : sumBody sep us = 0 -> map maskU us = us.
Proof.
  induction us as [| u us IH]; [reflexivity |].
  cbn [map sumBody fold_right]. fold (sumBody sep us). intros H.
  rewrite IH by lia. f_equal. unfold maskU, mapBody. destruct u as [p [b |]]; [| reflexivity].
  cbn [u_pre u_body option_map] in *. unfold inBody in H. cbn [u_body] in H.
  rewrite maskAll_id by lia. reflexivity.
Qed.

Lemma untilStable_units (fuel : nat) (us : list textUnit) :
  Forall (goodUnit o0 close sep) us -> sumBody sep us <= fuel ->
  untilStable P fuel (J us) = J (map maskU us).
Proof.
  revert us. induction fuel as [| fuel IH]; intros us Hus Hsum.
  - cbn [untilStable]. rewrite maskU_id by lia. reflexivity.
  - cbn [untilStable]. rewrite (hideOnce_units _ Hus).
    pose proof (goodUnit_map_hideU _ Hus) as Hgood.
    destruct (sumBody_hideU us) as [Hle Hlt].
    destruct (String.eqb_spec (J (map hideU us)) (J us)) as [E | E].
    + apply (f_equal (countByte sep)) in E.
      rewrite (countByte_J _ Hgood), (countByte_J _ Hus), length_map in E.
      rewrite maskU_id; [reflexivity |]. lia.
    + destruct (Nat.eq_dec (sumBody sep us) 0) as [Hz | Hnz].
      * rewrite <- (maskU_hideU us). apply IH; [exact Hgood | lia].
      * rewrite <- (maskU_hideU us). apply IH; [exact Hgood | lia].
Qed.

Lemma hideSeparators_units (us : list textUnit) :
  Forall (goodUnit o0 close sep) us -> hideSeparators P (J us) = J (map maskU us).
Proof.
  intros Hus. unfold hideSeparators. rewrite (hideOnce_units _ Hus).
  pose proof (goodUnit_map_hideU _ Hus) as Hgood.
  rewrite untilStable_units; [rewrite maskU_hideU; reflexivity | exact Hgood |].
  pose proof (countByte_length sep (J (map hideU us))) as Hlen.
  rewrite (countByte_J _ Hgood) in Hlen. lia.
Qed.

Hypothesis Hop_pipe : countByte pipe op = 0.
Hypothesis Hclose_pipe : close <> pipe.

Lemma Replace_text (u : textUnit) :
  pipeFree u ->
  strings.Replace (text (maskU u)) sentinel (String sep "") = text u.
Proof.
  intros [Hp Hb]. unfold text, unitText, maskU, mapBody. cbn [u_pre u_body].
  rewrite (Replace_plain _ _ _ Hp). f_equal.
  destruct (u_body u) as [b |]; cbn [option_map]; [| reflexivity].
  rewrite (Replace_plain _ _ _ Hop_pipe). f_equal.
  rewrite (Replace_maskAll _ _ _ Hb). f_equal.
  rewrite Replace_copy by exact Hclose_pipe. reflexivity.
Qed.

Lemma countByte_text_maskU (u : textUnit) :
  goodUnit o0 close sep u -> countByte sep (text (maskU u)) = 0.
Proof.
  intros (H1 & H2 & H3).
  rewrite countByte_text.
  - unfold inBody, maskU, mapBody. cbn [u_body].
    destruct (u_body u) as [b |]; cbn [option_map]; [| reflexivity].
    apply countByte_maskAll. exact Hpipe_sep.
  - unfold goodUnit, maskU, mapBody. cbn [u_pre u_body]. repeat split; try assumption.
    destruct (u_body u) as [b |]; cbn [option_map]; [| exact I].
    destruct H3 as [Hc Ho]. split; apply countByte_other_maskAll; assumption.
Qed.

(** A text made of good units joined by the separator is split into exactly
    its units. *)
Lemma splitOutside_units (us : list textUnit) :
  us <> [] -> Forall (goodUnit o0 close sep) us -> Forall pipeFree us ->
  splitOutside P sep (J us) = map text us.
Proof.
  intros Hne Hgood Hfree. unfold splitOutside.
  rewrite (hideSeparators_units _ Hgood). unfold J.
  rewrite Split_joinWith.
  - rewrite !map_map. clear Hne Hgood.
    induction Hfree as [| u us Hu _ IH]; [reflexivity |].
    cbn [map]. rewrite (Replace_text _ Hu), IH. reflexivity.
  - destruct us; [contradiction | discriminate].
  - clear Hne Hfree. induction Hgood as [| u us Hu _ IH]; cbn [map]; constructor;
      [apply countByte_text_maskU; exact Hu | exact IH].
Qed.

End Pattern.

Lemma splitTagValues_terms (terms : list textUnit) :
  terms <> [] -> Forall (goodUnit "(" ")" ",") terms -> Forall pipeFree terms ->
  splitTagValues (joinWith "," (map termText terms)) = map termText terms.
Proof.
  intros Hne Hgood Hfree. unfold splitTagValues. rewrite reParenComma_pattern.
  apply (splitOutside_units "(" "" ")" ","); try assumption; try discriminate; reflexivity.
Qed.

Lemma splitTags_tokens (tokens : list textUnit) :
  tokens <> [] -> Forall (goodUnit ":" dq " ") tokens -> Forall pipeFree tokens ->
  splitTags (joinWith " " (map tokenText tokens)) = map tokenText tokens.
Proof.
  intros Hne Hgood Hfree. unfold splitTags. rewrite reQuotedSpace_pattern.
  apply (splitOutside_units ":" dquote dq " "); try assumption; try discriminate; reflexivity.
Qed.

(** What [tagValue] finds in a tag string made of tokens. *)
Lemma substring_prefix (x y : string) : substring 0 (String.length x) (x +:+ y) = x.
Proof.
  induction x as [| c x IH]; [destruct y; reflexivity |].
  rewrite append_cons. cbn [String.length substring]. rewrite IH. reflexivity.
Qed.

Lemma substring_suffix (x y : string) (n : nat) :
  substring (String.length x) n (x +:+ y) = substring 0 n y.
Proof.
  induction x as [| c x IH]; [reflexivity |].
  rewrite append_cons. cbn [String.length substring]. exact IH.
Qed.

Lemma substring_all (x : string) : substring 0 (String.length x) x = x.
Proof.
  induction x as [| c x IH]; [reflexivity |]. cbn [String.length substring].
  rewrite IH. reflexivity.
Qed.

Lemma TrimSuffix_append (x suf : string) : strings.TrimSuffix (x +:+ suf) suf = x.
Proof.
  unfold strings.TrimSuffix, strings.HasSuffix. rewrite length_append.
  replace (String.length x + String.length suf - String.length suf) with (String.length x)
    by lia.
  rewrite substring_suffix, substring_all, String.eqb_refl, substring_prefix.
  replace (String.length suf <=? String.length x + String.length suf)%nat with true
    by (symmetry; apply Nat.leb_le; lia).
  reflexivity.
Qed.

Lemma TrimPrefix_append (pre x : string) : strings.TrimPrefix (pre +:+ x) pre = x.
Proof.
  unfold strings.TrimPrefix, strings.HasPrefix.
  rewrite <- (append_nil_r pre) at 1. rewrite prefix_append, prefix_empty.
  rewrite length_append.
  replace (String.length pre + String.length x - String.length pre) with (String.length x)
    by lia.
  rewrite substring_suffix, substring_all. reflexivity.
Qed.

Lemma Split_token (key v : string) :
  countByte ":" key = 0 -> countByte ":" v = 0 ->
  strings.Split (tokenText (TextUnit key (Some v))) ":" = [key; dquote +:+ v +:+ dquote].
Proof.
  intros Hk Hv. unfold tokenText, unitText. cbn [u_pre u_body].
  rewrite append_cons, (Split_append _ _ _ Hk), Split_plain; [reflexivity |].
  unfold dquote. rewrite !countByte_append. cbn [countByte]. rewrite Hv. reflexivity.
Qed.

Lemma tagValueIn_tokens (key : string) (tokens : list textUnit) :
  Forall (goodUnit ":" dq " ") tokens ->
  tagValueIn key (map tokenText tokens) = lookupToken key tokens.
Proof.
  induction 1 as [| u us (Hk & _ & Hb) _ IH]; [reflexivity |].
  cbn [map tagValueIn lookupToken]. destruct u as [k [v |]]; cbn [u_pre u_body] in *.
  - destruct Hb as [_ Hv]. rewrite (Split_token _ _ Hk Hv).
    destruct (String.eqb k key); [| exact IH].
    rewrite <- append_assoc, TrimSuffix_append, TrimPrefix_append. reflexivity.
  - unfold tokenText, unitText. cbn [u_pre u_body]. rewrite append_nil_r.
    rewrite (Split_plain _ _ Hk). exact IH.
Qed.

Lemma tagValue_tokens (key : string) (tokens : list textUnit) :
  tokens <> [] -> Forall (goodUnit ":" dq " ") tokens -> Forall pipeFree tokens ->
  tagValue key (joinWith " " (map tokenText tokens)) = lookupToken key tokens.
Proof.
  intros Hne Hgood Hfree. unfold tagValue.
  rewrite (splitTags_tokens _ Hne Hgood Hfree). apply tagValueIn_tokens. exact Hgood.
Qed.

Lemma lookupToken_only (key v : string) (tokens : list textUnit) :
  In (TextUnit key (Some v)) tokens ->
  (forall u, In u tokens -> u_pre u = key -> u = TextUnit key (Some v)) ->
  lookupToken key tokens = v.
Proof.
  induction tokens as [| u us IH]; [contradiction |].
  intros Hin Honly. cbn [lookupToken].
  destruct (u_body u) as [w |] eqn:Hw.
  - destruct (String.eqb_spec (u_pre u) key) as [E | E].
    + rewrite (Honly u (or_introl eq_refl) E) in Hw. cbn in Hw. congruence.
    + destruct Hin as [-> | Hin]; [contradiction E; reflexivity |].
      apply IH; [exact Hin |]. intros u' Hu'. apply Honly. right. exact Hu'.
  - destruct Hin as [-> | Hin]; [discriminate Hw |].
    apply IH; [exact Hin |]. intros u' Hu'. apply Honly. right. exact Hu'.
Qed.

(** What [hasTagArg] and [tagArgs] find in a tag value made of terms. *)
Lemma HasPrefix_term (needle args : string) :
  strings.HasPrefix (termText (TextUnit needle (Some args))) (needle +:+ "(") = true.
Proof.
  unfold strings.HasPrefix, termText, unitText. cbn [u_pre u_body].
  rewrite prefix_append, append_cons. cbn [String.prefix].
  destruct (ascii_dec "(" "(") as [_ | E]; [apply prefix_empty | contradiction E; reflexivity].
Qed.

Lemma hasTagArg_terms (needle args : string) (terms : list textUnit) :
  Forall (goodUnit "(" ")" ",") terms -> Forall pipeFree terms ->
  In (TextUnit needle (Some args)) terms ->
  hasTagArg needle (joinWith "," (map termText terms)) = true.
Proof.
  intros Hgood Hfree Hin. unfold hasTagArg.
  rewrite splitTagValues_terms; [| intros ->; contradiction | exact Hgood | exact Hfree].
  apply existsb_exists. exists (termText (TextUnit needle (Some args))). split.
  - apply in_map. exact Hin.
  - rewrite HasPrefix_term. apply orb_true_r.
Qed.

Lemma tagArgs_terms (needle args : string) (terms : list textUnit) :
  Forall (goodUnit "(" ")" ",") terms -> Forall pipeFree terms ->
  In (TextUnit needle (Some args)) terms ->
  (forall u, In u terms -> strings.HasPrefix (termText u) (needle +:+ "(") = true
             -> u = TextUnit needle (Some args)) ->
  tagArgs needle (joinWith "," (map termText terms)) = args.
Proof.
  intros Hgood Hfree Hin Honly. unfold tagArgs.
  rewrite splitTagValues_terms; [| intros ->; contradiction | exact Hgood | exact Hfree].
  clear Hgood Hfree. induction terms as [| u us IH]; [contradiction |].
  cbn [map tagArgsIn].
  destruct (strings.HasPrefix (termText u) (needle +:+ "(")) eqn:E.
  - rewrite (Honly u (or_introl eq_refl) E). unfold termText, unitText. cbn [u_pre u_body].
    rewrite <- !append_assoc, TrimSuffix_append, TrimPrefix_append. reflexivity.
  - destruct Hin as [-> | Hin]; [rewrite HasPrefix_term in E; discriminate |].
    apply IH; [exact Hin |]. intros u' Hu'. apply Honly. right. exact Hu'.
Qed.

Lemma Split_pair (a b : string) :
  countByte "," a = 0 -> countByte "," b = 0 ->
  strings.Split (a +:+ "," +:+ b) "," = [a; b].
Proof.
  intros Ha Hb. change ("," +:+ b) with (String "," b).
  rewrite (Split_append _ _ _ Ha), (Split_plain _ _ Hb). reflexivity.
Qed.


(** ** The tag expression parser on the examples of the test suite *)

(** C7.  [splitTagValues] splits at the commas outside parentheses only.  A
    tag value made of terms joined by commas, each term a name, alone or
    followed by arguments in parentheses with any number of commas among them
    (no parenthesis inside a name or the arguments, no comma inside a name, no
    byte of the sentinel anywhere), is split into exactly its terms, in their
    order; so [between(3,32),oneof(1,2)] gives exactly its two terms and the
    five-term value of the test suite exactly its five terms. *)
Theorem splitTagValues_top_level_commas :
  (forall terms : list textUnit,
      terms <> [] ->
      Forall (goodUnit "(" ")" ",") terms ->
      Forall pipeFree terms ->
      splitTagValues (joinWith "," (map termText terms)) = map termText terms)
  /\ splitTagValues "between(3,32),oneof(1,2)" = ["between(3,32)"; "oneof(1,2)"]
  /\ splitTagValues "fred,any(5),toast(1,8),between(3,32),arbitrary(5,2,3,1)"
     = ["fred"; "any(5)"; "toast(1,8)"; "between(3,32)"; "arbitrary(5,2,3,1)"].
Proof.
  split; [exact splitTagValues_terms |].
  split; vm_compute; reflexivity.
Qed.

Lemma splitTagValues_top_level_commas_witness :
  splitTagValues
    (joinWith ","
       (map termText [TextUnit "fred" None; TextUnit "toast" (Some "1,8");
                      TextUnit "arbitrary" (Some "5,2,3,1")]))
  = map termText [TextUnit "fred" None; TextUnit "toast" (Some "1,8");
                  TextUnit "arbitrary" (Some "5,2,3,1")].
Proof.
  apply (proj1 splitTagValues_top_level_commas).
  - discriminate.
  - repeat (apply List.Forall_cons; [vm_compute; repeat split; reflexivity |]).
    apply List.Forall_nil.
  - repeat (apply List.Forall_cons; [vm_compute; repeat split; reflexivity |]).
    apply List.Forall_nil.
Defined.

(** C8 fails on a value that ends with a colon.  [splitTags] splits at the
    blanks outside quoted values on a tag string made of tokens joined by
    blanks, each token a key, alone or followed by a colon and a quoted value
    with any number of blanks in it (no blank, colon or quote inside a key, no
    colon or quote inside a value, no byte of the sentinel anywhere): such a
    string is split into exactly its tokens, and the three-tag string of the
    test suite gives its three tokens, the [md] token with the blanks of its
    value in place, as the split the specification words gives.  But the
    pattern takes a colon that ends a value, with the quote that closes it,
    for the start of a value, and hides the blank that follows: the string
    [desc:"note:" required:"true"] stays one token where the specification
    has two, [tagValue] finds neither key in it, and the field is compiled as
    optional, not required. *)
Theorem splitTags_quoted_blanks :
  (forall tokens : list textUnit,
      tokens <> [] ->
      Forall (goodUnit ":" dq " ") tokens ->
      Forall pipeFree tokens ->
      splitTags (joinWith " " (map tokenText tokens)) = map tokenText tokens)
  /\ splitTags (raw "tfsdk:'name' md:'This is a description with spaces' valid:'between( 3, 32 )'")
     = [raw "tfsdk:'name'";
        raw "md:'This is a description with spaces'";
        raw "valid:'between( 3, 32 )'"]
  /\ tagValue TagMarkdownDescription
       (raw "tfsdk:'name' md:'This is a description with spaces' valid:'between( 3, 32 )'")
     = "This is a description with spaces"
  /\ splitTags_spec
       (raw "tfsdk:'name' md:'This is a description with spaces' valid:'between( 3, 32 )'")
     = [raw "tfsdk:'name'";
        raw "md:'This is a description with spaces'";
        raw "valid:'between( 3, 32 )'"]
  /\ splitTags_spec (raw "desc:'note:' required:'true'")
     = [raw "desc:'note:'"; raw "required:'true'"]
  /\ splitTags (raw "desc:'note:' required:'true'") = [raw "desc:'note:' required:'true'"]
  /\ tagValue TagRequired (raw "desc:'note:' required:'true'") = ""
  /\ tagValue TagDescription (raw "desc:'note:' required:'true'") = ""
  /\ rAttribute (TBasic "string" "string") (raw "desc:'note:' required:'true'") false 1
     = OK (mkNest None None
             (Some (mkAttribute types.StringType false true false false "" "" "" [] []))).
Proof.
  split; [exact splitTags_tokens |].
  repeat split; vm_compute; reflexivity.
Qed.

Lemma splitTags_quoted_blanks_witness :
  splitTags
    (joinWith " "
       (map tokenText [TextUnit "tfsdk" (Some "name");
                       TextUnit "md" (Some "This is a description with spaces");
                       TextUnit "valid" (Some "between( 3, 32 )")]))
  = map tokenText [TextUnit "tfsdk" (Some "name");
                   TextUnit "md" (Some "This is a description with spaces");
                   TextUnit "valid" (Some "between( 3, 32 )")].
Proof.
  apply (proj1 splitTags_quoted_blanks).
  - discriminate.
  - repeat (apply List.Forall_cons; [vm_compute; repeat split; reflexivity |]).
    apply List.Forall_nil.
  - repeat (apply List.Forall_cons; [vm_compute; repeat split; reflexivity |]).
    apply List.Forall_nil.
Defined.

(** ** The name normalizer *)

(** C6.  Without a [snake] tag the four names of the test suite are
    normalized as the specification lists them.  With a [snake] tag of
    non-empty value the value is the result, whatever the name: for every tag
    string [tagValue] finds such a value in, and so for every tag string made
    of tokens of which one, and only one, has the key [snake]. *)
Theorem snakeCase_examples_and_override :
  snakeCase "SuperSimpleCase" "" = "super_simple_case"
  /\ snakeCase "VPCName" "" = "vpc_name"
  /\ snakeCase "LittleVPCName" "" = "little_vpc_name"
  /\ snakeCase "VPCEndpointIDs" "" = "vpc_endpoint_ids"
  /\ snakeCase "VPCEndpointIDs" (raw "tfsdk:'ids' snake:'endpoint_IDs'") = "endpoint_IDs"
  /\ (forall camel allTags : string,
         tagValue TagSnakeName allTags <> ""
         -> snakeCase camel allTags = tagValue TagSnakeName allTags)
  /\ (forall (camel : string) (tokens : list textUnit) (v : string),
         Forall (goodUnit ":" dq " ") tokens ->
         Forall pipeFree tokens ->
         In (TextUnit TagSnakeName (Some v)) tokens ->
         (forall u, In u tokens -> u_pre u = TagSnakeName
                    -> u = TextUnit TagSnakeName (Some v)) ->
         v <> "" ->
         snakeCase camel (joinWith " " (map tokenText tokens)) = v).
Proof.
  repeat (split; [vm_compute; reflexivity|]).
  assert (Hover : forall camel allTags : string,
             tagValue TagSnakeName allTags <> ""
             -> snakeCase camel allTags = tagValue TagSnakeName allTags).
  { intros camel allTags Hpresent. unfold snakeCase.
    destruct (String.eqb_spec (tagValue TagSnakeName allTags) "") as [Hempty | _].
    - contradiction.
    - reflexivity. }
  split; [exact Hover |].
  intros camel tokens v Hgood Hfree Hin Honly Hv.
  assert (Hne : tokens <> []) by (intros ->; contradiction).
  pose proof (tagValue_tokens TagSnakeName tokens Hne Hgood Hfree) as Hval.
  rewrite (lookupToken_only _ _ _ Hin Honly) in Hval.
  rewrite Hover; rewrite Hval; [reflexivity | exact Hv].
Qed.

Lemma snakeCase_examples_and_override_witness :
  snakeCase "VPCEndpointIDs"
            (joinWith " " (map tokenText [TextUnit "tfsdk" (Some "ids");
                                          TextUnit "snake" (Some "endpoint_IDs");
                                          TextUnit "md" (Some "The IDs, as a set")]))
  = "endpoint_IDs".
Proof.
  apply (proj2 (proj2 (proj2 (proj2 (proj2 (proj2 snakeCase_examples_and_override)))))).
  - repeat (apply List.Forall_cons; [vm_compute; repeat split; reflexivity |]).
    apply List.Forall_nil.
  - repeat (apply List.Forall_cons; [vm_compute; repeat split; reflexivity |]).
    apply List.Forall_nil.
  - right. left. reflexivity.
  - intros u [<- | [<- | [<- | []]]] Hu; try discriminate Hu. reflexivity.
  - discriminate.
Defined.

(** ** The result monad *)

Lemma bind_OK_inv {A B : Type} (r : result A) (k : A -> result B) (b : B) :
  (x <- r ;; k x) = OK b -> exists a, r = OK a /\ k a = OK b.
Proof. destruct r as [a | p]; simpl; [eauto | discriminate]. Qed.

Lemma bind_Panic_inv {A B : Type} (r : result A) (k : A -> result B) (p : panic) :
  (x <- r ;; k x) = Panic p -> r = Panic p \/ exists a, r = OK a /\ k a = Panic p.
Proof. destruct r as [a | q]; simpl; [eauto | intros [= ->]; auto]. Qed.

(** ** Plan modifiers *)

Lemma hasTagArg_empty (needle : string) :
  needle <> "" -> hasTagArg needle "" = false.
Proof.
  intros Hne. unfold hasTagArg.
  change (splitTagValues "") with [""]. simpl.
  destruct needle as [| c needle]; [contradiction | reflexivity].
Qed.

Lemma defaultMod_length (dv attrType : string) (d : list AttributePlanModifier) :
  defaultMod dv attrType = OK d -> d = [] \/ exists v, d = [DefaultValue v].
Proof.
  unfold defaultMod, parseFloatOr.
  repeat match goal with
         | |- context [if ?c then _ else _] => destruct c
         | |- context [match ?x with strconv.Parsed _ => _ | strconv.Failed _ => _ end] =>
             destruct x; simpl
         | |- context [match ?x with Some _ => _ | None => _ end] => destruct x; simpl
         end;
    intros [= <-]; eauto.
Qed.

Lemma pMods_shape (tagValue attrType : string) (pm : list AttributePlanModifier) :
  pMods tagValue attrType = OK pm ->
  exists d,
    pm = (if hasTagArg TagPlanModifierReplace tagValue then [RequiresReplace] else [])
           ++ (if hasTagArg TagPlanModifierUSFU tagValue then [UseStateForUnknown] else [])
           ++ d
    /\ (d = [] \/ exists v, d = [DefaultValue v])
    /\ (if hasTagArg TagPlanModifierDefault tagValue
        then defaultMod (tagArgs TagPlanModifierDefault tagValue) attrType = OK d
        else d = []).
Proof.
  unfold pMods.
  destruct (hasTagArg TagPlanModifierDefault tagValue).
  - intros H. apply bind_OK_inv in H as (d & Hd & [= <-]).
    exists d. split; [| split; [eapply defaultMod_length; eauto | assumption]].
    destruct (hasTagArg TagPlanModifierReplace tagValue),
             (hasTagArg TagPlanModifierUSFU tagValue); reflexivity.
  - intros [= <-]. exists []. split; [| split; [left |]; reflexivity].
    destruct (hasTagArg TagPlanModifierReplace tagValue),
             (hasTagArg TagPlanModifierUSFU tagValue); reflexivity.
Qed.

Lemma hasTagArg_perm (needle v1 v2 : string) :
  Permutation (splitTagValues v1) (splitTagValues v2) ->
  hasTagArg needle v1 = hasTagArg needle v2.
Proof.
  intros Hperm. unfold hasTagArg.
  apply eq_true_iff_eq. rewrite !existsb_exists.
  split; intros (x & Hin & Hx); exists x; split; auto.
  - eapply Permutation_in; eauto.
  - eapply Permutation_in; [symmetry |]; eauto.
Qed.

Lemma pMods_perm (v1 v2 attrType : string) :
  Permutation (splitTagValues v1) (splitTagValues v2) ->
  tagArgs TagPlanModifierDefault v1 = tagArgs TagPlanModifierDefault v2 ->
  pMods v1 attrType = pMods v2 attrType.
Proof.
  intros Hperm Hargs. unfold pMods.
  rewrite !(hasTagArg_perm _ v1 v2 Hperm), Hargs. reflexivity.
Qed.

Lemma pMods_empty (attrType : string) : pMods "" attrType = OK [].
Proof.
  unfold pMods. rewrite !hasTagArg_empty by discriminate. reflexivity.
Qed.

(** ** What [rAttribute] does on a leaf and on a block *)

Lemma rAttribute_leaf (model : rtype) (tags : string) (fromSlice : bool) (level : nat)
      (l : Attribute) :
  leaf model tags = Some l ->
  rAttribute model tags fromSlice level
  = (l' <- addAttrOptions l tags (typeString model) ;; OK (mkNest None None (Some l'))).
Proof.
  intros Hleaf. destruct model; cbn [rAttribute]; rewrite Hleaf; reflexivity.
Qed.

Lemma leaf_typeOnly (model : rtype) (tags : string) (l : Attribute) :
  leaf model tags = Some l -> l = typeOnly (a_Type l).
Proof.
  unfold leaf, listOrSet.
  repeat match goal with
         | |- context [if ?c then _ else _] => destruct c
         end;
    intros [= <-]; reflexivity.
Qed.

Lemma addAttrOptions_inv (a a' : Attribute) (tags attrType : string) :
  addAttrOptions a tags attrType = OK a' ->
  exists pm vals,
    (if negb (String.eqb (tagValue TagPlanModifiers tags) "")
     then pMods (tagValue TagPlanModifiers tags) attrType
     else OK (a_PlanModifiers a)) = OK pm
    /\ (if negb (String.eqb (tagValue TagValidators tags) "")
        then validators (tagValue TagValidators tags) attrType false tags
        else OK (a_Validators a)) = OK vals
    /\ a_PlanModifiers a' = pm
    /\ a_Validators a' = vals
    /\ a_Type a' = a_Type a
    /\ a_Computed a' = (String.eqb (tagValue TagComputed tags) TagTrue || a_Computed a)
    /\ a_Required a' = (String.eqb (tagValue TagRequired tags) TagTrue || a_Required a)
    /\ a_Sensitive a' = (String.eqb (tagValue TagSensitive tags) TagTrue || a_Sensitive a)
    /\ a_Optional a'
       = (String.eqb (tagValue TagComputed tags) ""
          && String.eqb (tagValue TagOptional tags) ""
          && String.eqb (tagValue TagRequired tags) ""
          || (String.eqb (tagValue TagOptional tags) TagTrue || a_Optional a)).
Proof.
  unfold addAttrOptions. intros H.
  apply bind_OK_inv in H as (pm & Hpm & H).
  apply bind_OK_inv in H as (vals & Hvals & [= <-]).
  exists pm, vals. cbn [a_PlanModifiers a_Validators a_Type a_Computed a_Required
                       a_Sensitive a_Optional].
  repeat split; try assumption;
    repeat match goal with
           | |- context [if ?c then _ else _] => destruct c
           end; reflexivity.
Qed.

Lemma rAttribute_leaf_inv (model : rtype) (tags : string) (fromSlice : bool) (level : nat)
      (l : Attribute) (n : nest) :
  leaf model tags = Some l ->
  rAttribute model tags fromSlice level = OK n ->
  exists a, n = mkNest None None (Some a)
            /\ addAttrOptions (typeOnly (a_Type l)) tags (typeString model) = OK a.
Proof.
  intros Hleaf Hr. rewrite (rAttribute_leaf _ _ _ _ _ Hleaf) in Hr.
  apply bind_OK_inv in Hr as (a & Ha & [= <-]).
  exists a. split; [reflexivity |].
  rewrite <- (leaf_typeOnly _ _ _ Hleaf). exact Ha.
Qed.

Lemma leaf_pMods (model : rtype) (tags : string) (fromSlice : bool) (level : nat)
      (l : Attribute) (n : nest) :
  leaf model tags = Some l ->
  rAttribute model tags fromSlice level = OK n ->
  exists a, attribute n = Some a
            /\ pMods (tagValue TagPlanModifiers tags) (typeString model)
               = OK (a_PlanModifiers a).
Proof.
  intros Hleaf Hr.
  destruct (rAttribute_leaf_inv _ _ _ _ _ _ Hleaf Hr) as (a & -> & Ha).
  exists a. split; [reflexivity |].
  apply addAttrOptions_inv in Ha as (pm & vals & Hpm & _ & -> & _).
  destruct (String.eqb_spec (tagValue TagPlanModifiers tags) "") as [-> | _];
    cbn [negb] in Hpm.
  - injection Hpm as <-. apply pMods_empty.
  - exact Hpm.
Qed.

Lemma blockNest_pMods (blocks : gmap string Block) (attrs : gmap string Attribute)
      (slice : bool) (tags : string) (n : nest) :
  blockNest blocks attrs slice tags = OK n ->
  exists b, block n = Some b
            /\ pMods (tagValue TagPlanModifiers tags) SpecialTypeBlock
               = OK (b_PlanModifiers b).
Proof.
  unfold blockNest, addBlockOptions. intros H.
  apply bind_OK_inv in H as (b & Hb & [= <-]).
  apply bind_OK_inv in Hb as (pm & Hpm & Hb).
  apply bind_OK_inv in Hb as (vals & _ & [= <-]).
  eexists. split; [reflexivity |]. cbn [b_PlanModifiers].
  destruct (String.eqb_spec (tagValue TagPlanModifiers tags) "") as [-> | _];
    cbn [negb] in Hpm.
  - rewrite pMods_empty.
    destruct (0 <? size blocks)%nat, (0 <? size attrs)%nat; exact Hpm.
  - exact Hpm.
Qed.

Lemma filter_perm {A : Type} (f : A -> bool) (l l' : list A) :
  Permutation l l' -> Permutation (List.filter f l) (List.filter f l').
Proof.
  induction 1 as [| x l l' _ IH | x y l | l l' l'' _ IH1 _ IH2]; cbn [List.filter].
  - apply perm_nil.
  - destruct (f x); [apply perm_skip |]; exact IH.
  - destruct (f x), (f y); try apply Permutation_refl. apply perm_swap.
  - eapply perm_trans; eassumption.
Qed.

Lemma tagArgsIn_filter (needle : string) (h : list string) :
  tagArgsIn needle h
  = match List.filter (fun t => strings.HasPrefix t (needle +:+ "(")) h with
    | [] => ""
    | t :: _ => strings.TrimPrefix (strings.TrimSuffix t ")") (needle +:+ "(")
    end.
Proof.
  induction h as [| t h IH]; [reflexivity |]. cbn [tagArgsIn List.filter].
  destruct (strings.HasPrefix t (needle +:+ "(")); [reflexivity | exact IH].
Qed.

(** With at most one term [default(...)], the order of the terms does not
    show. *)
Lemma pMods_perm_single (v1 v2 attrType : string) :
  Permutation (splitTagValues v1) (splitTagValues v2) ->
  length (List.filter (fun t => strings.HasPrefix t (TagPlanModifierDefault +:+ "("))
                      (splitTagValues v1)) <= 1 ->
  pMods v1 attrType = pMods v2 attrType.
Proof.
  intros Hperm Hlen. apply pMods_perm; [exact Hperm |].
  unfold tagArgs. rewrite !tagArgsIn_filter.
  pose proof (filter_perm
                (fun t => strings.HasPrefix t (TagPlanModifierDefault +:+ "(")) _ _ Hperm)
    as Hf.
  destruct (List.filter _ (splitTagValues v1)) as [| t [| t' r]].
  - apply Permutation_nil in Hf. rewrite Hf. reflexivity.
  - apply Permutation_length_1_inv in Hf. rewrite Hf. reflexivity.
  - cbn [length] in Hlen. lia.
Qed.

(** C1, as amended.  The plan modifiers of a field come in the fixed order
    RequiresReplace, UseStateForUnknown, DefaultValue, at most one of each,
    whatever the order of the terms in the tag: RequiresReplace exactly when
    a [replace] term occurs, UseStateForUnknown exactly when a [usfu] term
    occurs, a DefaultValue only when a [default] term occurs, and then the
    one parsed from the arguments [tagArgs] reads, those of the first term
    [default(...)].  Two tag values with the same terms in another order
    give the same list when [tagArgs] reads the same default arguments in
    both, as it does when at most one term starts with [default(]; with two
    [default] terms of different arguments the first one decides.  The list
    is the one stored in the compiled attribute or block. *)
Theorem pMods_fixed_order :
  (forall (tagV attrType : string) (pm : list AttributePlanModifier),
      pMods tagV attrType = OK pm ->
      StronglySorted (fun a b => rank a < rank b) pm
      /\ (In RequiresReplace pm <-> hasTagArg TagPlanModifierReplace tagV = true)
      /\ (In UseStateForUnknown pm <-> hasTagArg TagPlanModifierUSFU tagV = true)
      /\ (forall v, In (DefaultValue v) pm
                    -> hasTagArg TagPlanModifierDefault tagV = true
                       /\ defaultMod (tagArgs TagPlanModifierDefault tagV) attrType
                          = OK [DefaultValue v]))
  /\ (forall v1 v2 attrType : string,
         Permutation (splitTagValues v1) (splitTagValues v2) ->
         tagArgs TagPlanModifierDefault v1 = tagArgs TagPlanModifierDefault v2 ->
         pMods v1 attrType = pMods v2 attrType)
  /\ (forall v1 v2 attrType : string,
         Permutation (splitTagValues v1) (splitTagValues v2) ->
         length (List.filter
                   (fun t => strings.HasPrefix t (TagPlanModifierDefault +:+ "("))
                   (splitTagValues v1)) <= 1 ->
         pMods v1 attrType = pMods v2 attrType)
  /\ (forall (model : rtype) (tags : string) (fromSlice : bool) (level : nat)
             (l : Attribute) (n : nest),
         leaf model tags = Some l ->
         rAttribute model tags fromSlice level = OK n ->
         exists a, attribute n = Some a
                   /\ pMods (tagValue TagPlanModifiers tags) (typeString model)
                      = OK (a_PlanModifiers a))
  /\ (forall (blocks : gmap string Block) (attrs : gmap string Attribute)
             (slice : bool) (tags : string) (n : nest),
         blockNest blocks attrs slice tags = OK n ->
         exists b, block n = Some b
                   /\ pMods (tagValue TagPlanModifiers tags) SpecialTypeBlock
                      = OK (b_PlanModifiers b))
  /\ pMods "replace,default(game)" "types.String"
     = pMods "default(game),replace" "types.String"
  /\ pMods "default(a),default(b)" "types.String" = OK [DefaultValue (types.String "a")]
  /\ pMods "default(b),default(a)" "types.String" = OK [DefaultValue (types.String "b")].
Proof.
  split; [| split; [exact pMods_perm | split; [exact pMods_perm_single | split;
           [exact leaf_pMods | split;
            [exact blockNest_pMods | repeat split; vm_compute; reflexivity]]]]].
  intros tagV attrType pm Hpm.
  destruct (pMods_shape _ _ _ Hpm) as (d & -> & Hd & Hdef).
  assert (Hlink : forall v,
             In (DefaultValue v)
                ((if hasTagArg TagPlanModifierReplace tagV then [RequiresReplace] else [])
                   ++ (if hasTagArg TagPlanModifierUSFU tagV then [UseStateForUnknown] else [])
                   ++ d) ->
             hasTagArg TagPlanModifierDefault tagV = true
             /\ defaultMod (tagArgs TagPlanModifierDefault tagV) attrType
                = OK [DefaultValue v]).
  { intros v Hin. apply in_app_or in Hin as [Hin | Hin].
    { destruct (hasTagArg TagPlanModifierReplace tagV); cbn in Hin;
        [destruct Hin as [Hin | []]; discriminate Hin | contradiction]. }
    apply in_app_or in Hin as [Hin | Hin].
    { destruct (hasTagArg TagPlanModifierUSFU tagV); cbn in Hin;
        [destruct Hin as [Hin | []]; discriminate Hin | contradiction]. }
    destruct Hd as [-> | [v0 ->]]; [contradiction |].
    destruct Hin as [Hin | []]. injection Hin as ->.
    destruct (hasTagArg TagPlanModifierDefault tagV); [auto | discriminate Hdef]. }
  split; [| split; [| split; [| exact Hlink]]]; clear Hlink;
    destruct (hasTagArg TagPlanModifierReplace tagV),
             (hasTagArg TagPlanModifierUSFU tagV),
             (hasTagArg TagPlanModifierDefault tagV);
    destruct Hd as [-> | [v ->]]; try discriminate Hdef; cbn [app];
    first [ repeat constructor; cbn [rank]; lia
          | cbn [In]; intuition (try discriminate; auto) ].
Qed.

Lemma pMods_fixed_order_witness :
  StronglySorted (fun a b => rank a < rank b)
                 [RequiresReplace; DefaultValue (types.String "game")]
  /\ (In RequiresReplace [RequiresReplace; DefaultValue (types.String "game")]
      <-> hasTagArg TagPlanModifierReplace "default(game),replace" = true)
  /\ (In UseStateForUnknown [RequiresReplace; DefaultValue (types.String "game")]
      <-> hasTagArg TagPlanModifierUSFU "default(game),replace" = true)
  /\ (forall v, In (DefaultValue v) [RequiresReplace; DefaultValue (types.String "game")]
                -> hasTagArg TagPlanModifierDefault "default(game),replace" = true
                   /\ defaultMod (tagArgs TagPlanModifierDefault "default(game),replace")
                                 "types.String"
                      = OK [DefaultValue v]).
Proof.
  apply (proj1 pMods_fixed_order "default(game),replace" "types.String").
  vm_compute. reflexivity.
Defined.

(** C1, as stated, fails.  For the tag value [default(game),replace] the
    terms in their order give DefaultValue then RequiresReplace, and [pMods]
    gives RequiresReplace then DefaultValue, also in the compiled attribute. *)
Lemma pMods_tag_order_counterexample :
  pMods_spec "default(game),replace" "types.String"
  = OK [DefaultValue (types.String "game"); RequiresReplace]
  /\ pMods "default(game),replace" "types.String"
     = OK [RequiresReplace; DefaultValue (types.String "game")]
  /\ pMods "default(game),replace" "types.String"
     <> pMods_spec "default(game),replace" "types.String"
  /\ match rAttribute (TStruct "types.String" []) (raw "pmods:'default(game),replace'")
                      false 1 with
     | OK n => option_map a_PlanModifiers (attribute n)
     | Panic _ => None
     end = Some [RequiresReplace; DefaultValue (types.String "game")].
Proof.
  repeat split; try (vm_compute; reflexivity).
  vm_compute. discriminate.
Qed.

(** C4 fails on fields of the Go type [int].  [leaf] gives such a field the
    Int64 value type, and the validators parse its literals with [ParseInt],
    but [pMods] lists [int] with [types.Number]: the default is parsed with
    [ParseFloat] and stored as a Number, so [default(1.5)] is accepted where
    an [int64] field panics. *)
Theorem pMods_default_on_int :
  option_map a_Type (leaf (TBasic "int" "int") "") = Some types.Int64Type
  /\ pMods "default(12)" "int" = OK [DefaultValue (types.Number (big.Fin 12))]
  /\ pMods "default(12)" "int64" = OK [DefaultValue (types.Int64 12)]
  /\ pMods "default(1.5)" "int" = OK [DefaultValue (types.Number (big.Fin (3 # 2)))]
  /\ pMods "default(1.5)" "int64" = Panic (PanicDefaultNumber "1.5" strconv.ErrSyntax)
  /\ oneOfValidator "oneof(12)" "int" "" = OK (Some (Int64OneOf [12%Z]))
  /\ rAttribute (TBasic "int" "int") (raw "pmods:'default(12)'") false 1
     = OK (mkNest None None
             (Some (mkAttribute types.Int64Type false true false false "" "" "" []
                      [DefaultValue (types.Number (big.Fin 12))]))).
Proof. repeat split; vm_compute; reflexivity. Qed.

(** ** Requiredness flags *)

Lemma Split_nonempty (s : string) (sep : ascii) : strings.Split s sep <> [].
Proof.
  destruct s as [| c s]; cbn [strings.Split]; [discriminate |].
  destruct (Ascii.eqb c sep); [discriminate |].
  destruct (strings.Split s sep); discriminate.
Qed.

Lemma joinWith_Split (s : string) (sep : ascii) : joinWith sep (strings.Split s sep) = s.
Proof.
  induction s as [| c s IH]; [reflexivity |].
  cbn [strings.Split].
  destruct (Ascii.eqb_spec c sep) as [-> | Hne].
  - destruct (strings.Split s sep) as [| h t] eqn:Hsplit.
    + exfalso. exact (Split_nonempty s sep Hsplit).
    + rewrite <- IH. reflexivity.
  - destruct (strings.Split s sep) as [| h t] eqn:Hsplit.
    + exfalso. exact (Split_nonempty s sep Hsplit).
    + rewrite <- IH. destruct t; reflexivity.
Qed.

Lemma hasKey_false_tagValue (key allTags : string) :
  hasKey key allTags = false -> tagValue key allTags = "".
Proof.
  unfold hasKey, tagValue.
  induction (splitTags allTags) as [| tag rest IH]; [reflexivity |].
  cbn [existsb tagValueIn]. intros H.
  apply orb_false_iff in H as [Htag Hrest]. specialize (IH Hrest).
  destruct (strings.Split tag ":") as [| k [| v [| x l]]] eqn:Hsplit; try exact IH.
  destruct (String.eqb_spec k key) as [-> | _]; [| exact IH].
  exfalso.
  pose proof (joinWith_Split tag ":") as Hjoin. rewrite Hsplit in Hjoin.
  cbn [joinWith] in Hjoin. rewrite <- Hjoin in Htag.
  unfold strings.HasPrefix in Htag.
  rewrite prefix_append in Htag. cbn [String.prefix] in Htag.
  rewrite prefix_empty in Htag. discriminate.
Qed.

Lemma scalar_leaf (model : rtype) (tags : string) :
  isIn (typeString model) scalarTypes = true ->
  exists l, leaf model tags = Some l.
Proof.
  unfold isIn at 1. intros H. apply existsb_exists in H as (x & Hin & Hx).
  apply String.eqb_eq in Hx. unfold leaf. rewrite Hx. clear Hx.
  cbn [In scalarTypes] in Hin.
  repeat (destruct Hin as [<- | Hin]; [eexists; vm_compute; reflexivity |]).
  contradiction.
Qed.

Lemma addAttrOptions_total (a : Attribute) (tags attrType : string) :
  tagValue TagPlanModifiers tags = "" ->
  tagValue TagValidators tags = "" ->
  exists a', addAttrOptions a tags attrType = OK a'.
Proof.
  intros Hpm Hv. unfold addAttrOptions. rewrite Hpm, Hv. cbn. eauto.
Qed.

Lemma leaf_total (model : rtype) (tags : string) (fromSlice : bool) (level : nat)
      (l : Attribute) :
  leaf model tags = Some l ->
  tagValue TagPlanModifiers tags = "" ->
  tagValue TagValidators tags = "" ->
  exists n, rAttribute model tags fromSlice level = OK n.
Proof.
  intros Hleaf Hpm Hv. rewrite (rAttribute_leaf _ _ _ _ _ Hleaf).
  destruct (addAttrOptions_total l tags (typeString model) Hpm Hv) as (a' & ->).
  cbn. eauto.
Qed.

Lemma leaf_flags (model : rtype) (tags : string) (fromSlice : bool) (level : nat)
      (l : Attribute) (n : nest) :
  leaf model tags = Some l ->
  rAttribute model tags fromSlice level = OK n ->
  exists a,
    attribute n = Some a
    /\ a_Computed a = String.eqb (tagValue TagComputed tags) TagTrue
    /\ a_Optional a = (String.eqb (tagValue TagOptional tags) TagTrue
                       || String.eqb (tagValue TagComputed tags) ""
                          && String.eqb (tagValue TagOptional tags) ""
                          && String.eqb (tagValue TagRequired tags) "")
    /\ a_Required a = String.eqb (tagValue TagRequired tags) TagTrue
    /\ a_Sensitive a = String.eqb (tagValue TagSensitive tags) TagTrue.
Proof.
  intros Hleaf Hr.
  destruct (rAttribute_leaf_inv _ _ _ _ _ _ Hleaf Hr) as (a & -> & Ha).
  exists a. split; [reflexivity |].
  apply addAttrOptions_inv in Ha
    as (pm & vals & _ & _ & _ & _ & _ & Hc & Hq & Hs & Ho).
  cbn [typeOnly a_Computed a_Required a_Sensitive a_Optional] in Hc, Hq, Hs, Ho.
  rewrite Hc, Hq, Hs, Ho, !orb_false_r.
  repeat split; try reflexivity. apply orb_comm.
Qed.

(** C10.  On an attribute-typed field each of the flags computed, required
    and sensitive is set exactly when the value of its tag is [true]; the
    flag optional is set when the value of its tag is [true], and by default
    only when the three tags computed, optional and required all have the
    empty value.  Compilation succeeds when the field has no [pmods] and no
    [valid] tag.  A string field tagged only [required:"false"] compiles to
    an attribute with none of the flags. *)
Theorem flags_only_on_true :
  (forall (model : rtype) (tags : string) (fromSlice : bool) (level : nat)
          (l : Attribute) (n : nest),
      leaf model tags = Some l ->
      rAttribute model tags fromSlice level = OK n ->
      exists a,
        attribute n = Some a
        /\ a_Computed a = String.eqb (tagValue TagComputed tags) TagTrue
        /\ a_Optional a = (String.eqb (tagValue TagOptional tags) TagTrue
                           || String.eqb (tagValue TagComputed tags) ""
                              && String.eqb (tagValue TagOptional tags) ""
                              && String.eqb (tagValue TagRequired tags) "")
        /\ a_Required a = String.eqb (tagValue TagRequired tags) TagTrue
        /\ a_Sensitive a = String.eqb (tagValue TagSensitive tags) TagTrue)
  /\ (forall (model : rtype) (tags : string) (fromSlice : bool) (level : nat)
             (l : Attribute),
         leaf model tags = Some l ->
         tagValue TagPlanModifiers tags = "" ->
         tagValue TagValidators tags = "" ->
         exists n, rAttribute model tags fromSlice level = OK n)
  /\ rAttribute (TStruct "types.String" []) (raw "required:'false'") false 1
     = OK (mkNest None None
             (Some (mkAttribute types.StringType false false false false "" "" "" [] []))).
Proof.
  split; [exact leaf_flags | split; [exact leaf_total |]].
  vm_compute. reflexivity.
Qed.

Lemma flags_only_on_true_witness :
  exists a,
    attribute (mkNest None None
                 (Some (mkAttribute types.BoolType false true true false "" "" "" [] [])))
    = Some a
    /\ a_Computed a = true /\ a_Optional a = true
    /\ a_Required a = false /\ a_Sensitive a = false.
Proof.
  apply (proj1 flags_only_on_true (TStruct "types.Bool" [])
               (raw "tfsdk:'x' optional:'true' computed:'true' required:'no'")
               false 1 (typeOnly types.BoolType)); vm_compute; reflexivity.
Defined.

Lemma scalar_defaults_core (model : rtype) (tags : string) (fromSlice : bool)
      (level : nat) :
  isIn (typeString model) scalarTypes = true ->
  tagValue TagComputed tags = "" ->
  tagValue TagOptional tags = "" ->
  tagValue TagRequired tags = "" ->
  (forall n, rAttribute model tags fromSlice level = OK n ->
             exists a, attribute n = Some a
                       /\ a_Optional a = true
                       /\ a_Computed a = false
                       /\ a_Required a = false)
  /\ (tagValue TagPlanModifiers tags = "" ->
      tagValue TagValidators tags = "" ->
      exists a, rAttribute model tags fromSlice level = OK (mkNest None None (Some a))
                /\ a_Optional a = true
                /\ a_Computed a = false
                /\ a_Required a = false).
Proof.
  intros Hscalar Hc Ho Hr.
  destruct (scalar_leaf model tags Hscalar) as (l & Hleaf).
  assert (Hflags : forall n, rAttribute model tags fromSlice level = OK n ->
                             exists a, n = mkNest None None (Some a)
                                       /\ a_Optional a = true
                                       /\ a_Computed a = false
                                       /\ a_Required a = false).
  { intros n Hn.
    destruct (rAttribute_leaf_inv _ _ _ _ _ _ Hleaf Hn) as (a' & -> & _).
    destruct (leaf_flags _ _ _ _ _ _ Hleaf Hn) as (a & [= <-] & Hca & Hoa & Hra & _).
    rewrite Hc, Ho, Hr in *. exists a'. repeat split; assumption. }
  split.
  - intros n Hn. destruct (Hflags n Hn) as (a & -> & H). exists a. split; [reflexivity | exact H].
  - intros Hpm Hv.
    destruct (leaf_total _ _ fromSlice level _ Hleaf Hpm Hv) as (n & Hn).
    destruct (Hflags n Hn) as (a & -> & H). exists a. split; assumption.
Qed.

Lemma lookupToken_absent (key : string) (tokens : list textUnit) :
  (forall u, In u tokens -> u_pre u <> key) -> lookupToken key tokens = "".
Proof.
  induction tokens as [| u us IH]; [reflexivity |]. intros Habs. cbn [lookupToken].
  rewrite IH by (intros u' Hu'; apply Habs; right; exact Hu').
  destruct (u_body u); [| reflexivity].
  destruct (String.eqb_spec (u_pre u) key) as [E | _]; [| reflexivity].
  exfalso. exact (Habs u (or_introl eq_refl) E).
Qed.

(** C5.  A field of a scalar type whose tag string has no token of key
    computed, optional or required compiles, whenever it compiles, to an
    attribute with optional set and computed and required unset; and it
    compiles when it has no [pmods] and no [valid] tag.  That holds for every
    tag string in which no token starts with one of the three keys and a
    colon, and so for every tag string made of tokens with other keys. *)
Theorem scalar_defaults_to_optional :
  (forall (model : rtype) (tags : string) (fromSlice : bool) (level : nat),
      isIn (typeString model) scalarTypes = true ->
      hasKey TagComputed tags = false ->
      hasKey TagOptional tags = false ->
      hasKey TagRequired tags = false ->
      (forall n, rAttribute model tags fromSlice level = OK n ->
                 exists a, attribute n = Some a
                           /\ a_Optional a = true
                           /\ a_Computed a = false
                           /\ a_Required a = false)
      /\ (tagValue TagPlanModifiers tags = "" ->
          tagValue TagValidators tags = "" ->
          exists a, rAttribute model tags fromSlice level = OK (mkNest None None (Some a))
                    /\ a_Optional a = true
                    /\ a_Computed a = false
                    /\ a_Required a = false))
  /\ (forall (model : rtype) (tokens : list textUnit) (fromSlice : bool) (level : nat),
         isIn (typeString model) scalarTypes = true ->
         Forall (goodUnit ":" dq " ") tokens ->
         Forall pipeFree tokens ->
         (forall u, In u tokens ->
                    ~ In (u_pre u) [TagComputed; TagOptional; TagRequired;
                                    TagPlanModifiers; TagValidators]) ->
         exists a,
           rAttribute model (joinWith " " (map tokenText tokens)) fromSlice level
           = OK (mkNest None None (Some a))
           /\ a_Optional a = true
           /\ a_Computed a = false
           /\ a_Required a = false).
Proof.
  split.
  - intros model tags fromSlice level Hscalar Hc Ho Hr.
    apply hasKey_false_tagValue in Hc, Ho, Hr.
    apply scalar_defaults_core; assumption.
  - intros model tokens fromSlice level Hscalar Hgood Hfree Habs.
    assert (Hval : forall key,
               In key [TagComputed; TagOptional; TagRequired;
                       TagPlanModifiers; TagValidators] ->
               tagValue key (joinWith " " (map tokenText tokens)) = "").
    { intros key Hkey. destruct tokens as [| u us] eqn:Etok.
      - destruct Hkey as [<- | [<- | [<- | [<- | [<- | []]]]]]; vm_compute; reflexivity.
      - rewrite tagValue_tokens by (assumption || discriminate).
        apply lookupToken_absent. intros u' Hu' E. apply (Habs u' Hu'). rewrite E. exact Hkey. }
    apply scalar_defaults_core; try assumption; apply Hval; cbn [In]; auto 10.
Qed.

Lemma scalar_defaults_to_optional_witness :
  exists a,
    rAttribute (TBasic "float64" "float64")
               (joinWith " " (map tokenText [TextUnit "tfsdk" (Some "percent_traffic");
                                             TextUnit "md" (Some "no flags here")]))
               false 1
    = OK (mkNest None None (Some a))
    /\ a_Optional a = true /\ a_Computed a = false /\ a_Required a = false.
Proof.
  apply (proj2 scalar_defaults_to_optional (TBasic "float64" "float64")
           [TextUnit "tfsdk" (Some "percent_traffic"); TextUnit "md" (Some "no flags here")]).
  - reflexivity.
  - repeat (apply List.Forall_cons; [vm_compute; repeat split; reflexivity |]).
    apply List.Forall_nil.
  - repeat (apply List.Forall_cons; [vm_compute; repeat split; reflexivity |]).
    apply List.Forall_nil.
  - intros u [<- | [<- | []]]; cbn; intuition discriminate.
Defined.

(** ** Blocks *)

Lemma pMods_block_total (v : string) : exists pm, pMods v SpecialTypeBlock = OK pm.
Proof.
  unfold pMods.
  destruct (hasTagArg TagPlanModifierDefault v); [| eauto].
  change (defaultMod (tagArgs TagPlanModifierDefault v) SpecialTypeBlock) with
    (@OK (list AttributePlanModifier) []).
  cbn [bind]. eauto.
Qed.

Lemma validators_block_no_between (tagV : string) (fromSlice : bool) (tags : string) :
  hasTagArg TagValidatorBetween tagV = false ->
  validators tagV SpecialTypeBlock fromSlice tags = OK (magicDefaults fromSlice tags).
Proof.
  intros Hb. unfold validators. rewrite Hb. cbn [bind negb andb app].
  change (String.eqb SpecialTypeBlock SpecialTypeBlock) with true. cbn iota.
  change (oneOfValidator tagV SpecialTypeBlock tags)
    with (@OK (option AttributeValidator) None).
  change (noneOfValidator tagV SpecialTypeBlock tags)
    with (@OK (option AttributeValidator) None).
  destruct (hasTagArg TagValidatorOneOf tagV), (hasTagArg TagValidatorNoneOf tagV);
    reflexivity.
Qed.

Lemma magicDefaults_cases (fromSlice : bool) (tags : string) :
  let min := if String.eqb (tagValue TagRequired tags) TagTrue then 1%Z else 0%Z in
  let isSet := String.eqb (tagValue TagCollection tags) TagCollectionSet in
  magicDefaults fromSlice tags
  = if fromSlice
    then if (0 <? min)%Z
         then [if isSet then SetSizeAtLeast min else ListSizeAtLeast min]
         else []
    else [if isSet then SetSizeBetween min 1 else ListSizeBetween min 1].
Proof.
  unfold magicDefaults.
  destruct (String.eqb (tagValue TagRequired tags) TagTrue),
           (String.eqb (tagValue TagCollection tags) TagCollectionSet),
           fromSlice; reflexivity.
Qed.

Lemma blockNest_no_between (blocks : gmap string Block) (attrs : gmap string Attribute)
      (slice : bool) (tags : string) :
  hasTagArg TagValidatorBetween (tagValue TagValidators tags) = false ->
  exists b,
    blockNest blocks attrs slice tags = OK (mkNest None (Some b) None)
    /\ b_Attributes b = attrs
    /\ b_Blocks b = blocks
    /\ b_NestingMode b
       = (if String.eqb (tagValue TagCollection tags) TagCollectionSet
          then BlockNestingModeSet else BlockNestingModeList)
    /\ b_Validators b = magicDefaults slice tags.
Proof.
  intros Hb. unfold blockNest, addBlockOptions.
  rewrite (validators_block_no_between _ slice tags Hb).
  destruct (pMods_block_total (tagValue TagPlanModifiers tags)) as (pm & Hpm).
  rewrite Hpm.
  assert (Hsize : forall (V : Type) (m : gmap string V) (d : gmap string V),
             (if (0 <? size m)%nat then m else ∅) = m).
  { intros V m _. destruct (0 <? size m)%nat eqn:Hs; [reflexivity |].
    apply Nat.ltb_ge in Hs. symmetry. apply map_size_empty_iff. lia. }
  destruct (negb (String.eqb (tagValue TagPlanModifiers tags) ""));
    cbn [bind]; eexists; (split; [reflexivity |]);
    cbn [b_Attributes b_Blocks b_NestingMode b_Validators];
    (repeat split;
     [ specialize (Hsize _ attrs ∅); destruct (0 <? size blocks)%nat, (0 <? size attrs)%nat;
       cbn in *; congruence
     | specialize (Hsize _ blocks ∅); destruct (0 <? size blocks)%nat, (0 <? size attrs)%nat;
       cbn in *; congruence ]).
Qed.

(** C2.  A struct-typed or slice-of-struct field below the root whose [valid]
    tag has no [between] term compiles, unless one of its own fields panics,
    to a block of the Set kind exactly when it is tagged [collection:"set"],
    with, for [min] 1 when it is tagged [required:"true"] and 0 otherwise:
    SizeBetween(min, 1) as its only validator when it is a struct;
    SizeAtLeast(min) as its only validator when it is a slice and [min] is
    positive; no validator when it is a slice and [min] is 0. *)
Theorem block_implicit_size :
  forall tags : string,
    hasTagArg TagValidatorBetween (tagValue TagValidators tags) = false ->
    let min := if String.eqb (tagValue TagRequired tags) TagTrue then 1%Z else 0%Z in
    let isSet := String.eqb (tagValue TagCollection tags) TagCollectionSet in
    (forall (str : string) (fields : list (StructField rtype)) (level : nat),
        leaf (TStruct str fields) tags = None ->
        match rAttribute (TStruct str fields) tags false (S level) with
        | OK n =>
            exists b,
              n = mkNest None (Some b) None
              /\ b_NestingMode b = (if isSet then BlockNestingModeSet else BlockNestingModeList)
              /\ b_Validators b = [if isSet then SetSizeBetween min 1 else ListSizeBetween min 1]
        | Panic p =>
            walkFields (fun t tg => rAttribute t tg false (S level + 1)) fields (∅, ∅) = Panic p
        end)
    /\ (forall (str : string) (fields : list (StructField rtype)) (level : nat),
           leaf (TSlice (TStruct str fields)) tags = None ->
           leaf (TStruct str fields) tags = None ->
           match rAttribute (TSlice (TStruct str fields)) tags false level with
           | OK n =>
               exists b,
                 n = mkNest None (Some b) None
                 /\ b_NestingMode b
                    = (if isSet then BlockNestingModeSet else BlockNestingModeList)
                 /\ b_Validators b
                    = if (0 <? min)%Z
                      then [if isSet then SetSizeAtLeast min else ListSizeAtLeast min]
                      else []
           | Panic p =>
               walkFields (fun t tg => rAttribute t tg false (level + 1 + 1)) fields (∅, ∅)
               = Panic p
           end).
Proof.
  intros tags Hb min isSet. split.
  - intros str fields level Hleaf. cbn [rAttribute]. rewrite Hleaf.
    destruct (walkFields _ fields (∅, ∅)) as [maps | p]; [| reflexivity].
    cbn [bind Nat.eqb].
    destruct (blockNest_no_between (snd maps) (fst maps) false tags Hb)
      as (b & -> & _ & _ & Hmode & Hvals).
    exists b. rewrite Hvals, (magicDefaults_cases false tags). auto.
  - intros str fields level Hslice Hleaf. cbn [rAttribute kindOf].
    rewrite Hslice, Hleaf.
    destruct (walkFields _ fields (∅, ∅)) as [maps | p]; [| reflexivity].
    cbn [bind]. replace (level + 1 =? 0)%nat with false
      by (symmetry; apply Nat.eqb_neq; lia).
    destruct (blockNest_no_between (snd maps) (fst maps) true tags Hb)
      as (b & -> & _ & _ & Hmode & Hvals).
    exists b. rewrite Hvals, (magicDefaults_cases true tags). auto.
Qed.

Lemma block_implicit_size_witness :
  (forall (str : string) (fields : list (StructField rtype)) (level : nat),
      leaf (TStruct str fields) (raw "tfsdk:'criterion' required:'true' collection:'set'")
      = None ->
      match rAttribute (TStruct str fields)
                       (raw "tfsdk:'criterion' required:'true' collection:'set'")
                       false (S level) with
      | OK n =>
          exists b,
            n = mkNest None (Some b) None
            /\ b_NestingMode b = BlockNestingModeSet
            /\ b_Validators b = [SetSizeBetween 1 1]
      | Panic p =>
          walkFields (fun t tg => rAttribute t tg false (S level + 1)) fields (∅, ∅) = Panic p
      end)
  /\ (forall (str : string) (fields : list (StructField rtype)) (level : nat),
         leaf (TSlice (TStruct str fields))
              (raw "tfsdk:'criterion' required:'true' collection:'set'") = None ->
         leaf (TStruct str fields)
              (raw "tfsdk:'criterion' required:'true' collection:'set'") = None ->
         match rAttribute (TSlice (TStruct str fields))
                          (raw "tfsdk:'criterion' required:'true' collection:'set'")
                          false level with
         | OK n =>
             exists b,
               n = mkNest None (Some b) None
               /\ b_NestingMode b = BlockNestingModeSet
               /\ b_Validators b = [SetSizeAtLeast 1]
         | Panic p =>
             walkFields (fun t tg => rAttribute t tg false (level + 1 + 1)) fields (∅, ∅)
             = Panic p
         end).
Proof.
  apply (block_implicit_size (raw "tfsdk:'criterion' required:'true' collection:'set'")).
  vm_compute. reflexivity.
Defined.

(** ** [ParseFloat] reads no blank *)

Lemma consumed_refl (s : string) : consumed s s.
Proof. exists "". split; reflexivity. Qed.

Lemma consumed_step (c : ascii) (s rest : string) :
  c <> " "%char -> consumed s rest -> consumed (String c s) rest.
Proof.
  intros Hc (pre & -> & Hpre). exists (String c pre). split; [reflexivity |].
  cbn [noSpace]. rewrite Hpre. destruct (Ascii.eqb_spec c " "); [contradiction | reflexivity].
Qed.

Lemma consumed_trans (s t r : string) : consumed s t -> consumed t r -> consumed s r.
Proof.
  intros (p1 & -> & H1) (p2 & -> & H2). exists (p1 +:+ p2). split.
  - clear. induction p1 as [| c p1 IH]; [reflexivity |].
    change (String c p1 +:+ p2 +:+ r) with (String c (p1 +:+ p2 +:+ r)).
    rewrite IH. reflexivity.
  - clear -H1 H2. induction p1 as [| c p1 IH]; [exact H2 |].
    change (String c p1 +:+ p2) with (String c (p1 +:+ p2)).
    cbn [noSpace] in *. apply andb_true_iff in H1 as [Hc H1].
    rewrite Hc, (IH H1). reflexivity.
Qed.

Lemma consumed_nil (s : string) : consumed s "" -> noSpace s = true.
Proof.
  intros (pre & -> & Hpre). clear -Hpre.
  induction pre as [| c pre IH]; [reflexivity |].
  cbn [noSpace] in *. apply andb_true_iff in Hpre as [Hc Hpre].
  change (String c pre +:+ "") with (String c (pre +:+ "")). cbn [noSpace].
  rewrite Hc, (IH Hpre). reflexivity.
Qed.

Lemma mantLoop_consumed (hex : bool) (s : string) (st st' : strconv.mantState)
      (rest : string) :
  strconv.mantLoop hex s st = (st', rest) -> consumed s rest.
Proof.
  revert st. induction s as [| c s IH]; intros st H.
  - injection H as _ <-. apply consumed_refl.
  - destruct (Ascii.eqb_spec c " ") as [-> | Hne].
    + cbn in H. destruct hex; injection H as _ <-; apply consumed_refl.
    + cbn [strconv.mantLoop] in H.
      repeat match type of H with
             | (if ?c then _ else _) = _ => destruct c
             end;
        try (injection H as _ <-; apply consumed_refl);
        apply consumed_step; eauto.
Qed.

Lemma expLoop_consumed (s : string) (e : Z) (us : bool) (e' : Z) (us' : bool)
      (rest : string) :
  strconv.expLoop s e us = (e', us', rest) -> consumed s rest.
Proof.
  revert e us. induction s as [| c s IH]; intros e us H.
  - injection H as _ _ <-. apply consumed_refl.
  - destruct (Ascii.eqb_spec c " ") as [-> | Hne].
    + cbn in H. injection H as _ _ <-; apply consumed_refl.
    + cbn [strconv.expLoop] in H.
      repeat match type of H with
             | (if ?c then _ else _) = _ => destruct c
             end;
        try (injection H as _ _ <-; apply consumed_refl);
        apply consumed_step; eauto.
Qed.

Lemma readFloat_consumed (s : string) (l : strconv.floatLit) (rest : string) :
  strconv.readFloat s = Some (l, rest) -> consumed s rest.
Proof.
  unfold strconv.readFloat. destruct s as [| c0 s1]; [discriminate |].
  set (s := String c0 s1).
  assert (Hsign : consumed s (if Ascii.eqb c0 "+" || Ascii.eqb c0 "-" then s1 else s)).
  { destruct (Ascii.eqb c0 "+" || Ascii.eqb c0 "-") eqn:E; [| apply consumed_refl].
    apply consumed_step; [| apply consumed_refl].
    intros ->. discriminate E. }
  revert Hsign. generalize (if Ascii.eqb c0 "+" || Ascii.eqb c0 "-" then s1 else s).
  intros t Hsign.
  match goal with
  | |- (let '(hex, t1) := ?X in _) = _ -> _ =>
      assert (Hpre : consumed t (snd X)); [| destruct X as [hex t1]]
  end.
  { destruct t as [| d0 [| d1 [| d2 t']]]; try apply consumed_refl.
    destruct (Ascii.eqb d0 "0" && Ascii.eqb (strconv.lower d1) "x") eqn:E;
      [| apply consumed_refl].
    apply andb_true_iff in E as [E0 E1].
    cbn [snd]. apply consumed_step; [intros ->; discriminate E0 |].
    apply consumed_step; [intros ->; discriminate E1 |]. apply consumed_refl. }
  cbn [snd] in Hpre.
  destruct (strconv.mantLoop hex t1 _) as [st t2] eqn:Hmant.
  apply mantLoop_consumed in Hmant.
  pose proof (consumed_trans _ _ _ Hsign (consumed_trans _ _ _ Hpre Hmant)) as Ht2.
  clear Hsign Hpre Hmant.
  destruct (negb (strconv.sawdigits st)); [discriminate |].
  destruct t2 as [| e t3].
  - destruct hex; [discriminate |].
    destruct (_ && _); [discriminate |]. intros [= _ <-]. exact Ht2.
  - destruct (Ascii.eqb (strconv.lower e) (if hex then "p" else "e")%char) eqn:Ee.
    + assert (He : e <> " "%char) by (intros ->; destruct hex; discriminate Ee).
      destruct t3 as [| g t4]; [discriminate |].
      assert (Hg : consumed (String g t4)
                     (if Ascii.eqb g "+" || Ascii.eqb g "-" then t4 else String g t4)).
      { destruct (Ascii.eqb g "+" || Ascii.eqb g "-") eqn:E; [| apply consumed_refl].
        apply consumed_step; [| apply consumed_refl]. intros ->. discriminate E. }
      revert Hg.
      generalize (if Ascii.eqb g "+" || Ascii.eqb g "-" then t4 else String g t4).
      intros t5 Hg. destruct t5 as [| h t6]; [discriminate |].
      destruct (negb (strconv.isDigit h)); [discriminate |].
      destruct (strconv.expLoop _ _ _) as [[e0 us] rest0] eqn:Hexp.
      apply expLoop_consumed in Hexp.
      destruct (_ && _); [discriminate |]. intros [= _ <-].
      eapply consumed_trans; [exact Ht2 |].
      apply consumed_step; [exact He |].
      eapply consumed_trans; [exact Hg | exact Hexp].
    + destruct hex; [discriminate |].
      destruct (_ && _); [discriminate |]. intros [= _ <-]. exact Ht2.
Qed.

Lemma commonPrefix_noSpace (s pre : string) :
  noSpace pre = true ->
  String.length s <= strconv.commonPrefixLenIgnoreCase s pre ->
  noSpace s = true.
Proof.
  revert pre. induction s as [| c s IH]; intros pre Hpre Hlen; [reflexivity |].
  destruct pre as [| p pre]; cbn [strconv.commonPrefixLenIgnoreCase String.length] in Hlen;
    [lia |].
  cbn [noSpace] in Hpre. apply andb_true_iff in Hpre as [Hp Hpre].
  destruct (Ascii.eqb_spec (strconv.foldByte c) p) as [<- | _]; [| lia].
  cbn [noSpace]. rewrite (IH pre Hpre) by lia.
  destruct (Ascii.eqb_spec c " ") as [-> | _]; [discriminate Hp | reflexivity].
Qed.

Lemma specialInf_full (s : string) (neg : bool) (nsign : nat) (v : strconv.float64)
      (n : nat) :
  strconv.specialInf s neg nsign = Some (v, n) ->
  n = nsign + String.length s -> noSpace s = true.
Proof.
  unfold strconv.specialInf.
  set (n0 := strconv.commonPrefixLenIgnoreCase s "infinity").
  intros H Hn. apply (commonPrefix_noSpace s "infinity"); [reflexivity |]. fold n0.
  destruct ((3 <? n0) && (n0 <? 8))%nat eqn:E.
  - apply andb_true_iff in E as [E _]. apply Nat.ltb_lt in E.
    cbn in H. injection H as _ <-. lia.
  - destruct ((n0 =? 3) || (n0 =? 8))%nat; [| discriminate].
    injection H as _ <-. lia.
Qed.

Lemma special_full (s : string) (v : strconv.float64) (n : nat) :
  strconv.special s = Some (v, n) -> n = String.length s -> noSpace s = true.
Proof.
  unfold strconv.special. destruct s as [| c0 s1]; [discriminate |].
  destruct (Ascii.eqb c0 "+" || Ascii.eqb c0 "-") eqn:Esign.
  - intros H Hn. cbn [noSpace].
    rewrite (specialInf_full _ _ _ _ _ H) by (cbn [String.length] in Hn; lia).
    destruct (Ascii.eqb_spec c0 " ") as [-> | _]; [discriminate Esign | reflexivity].
  - destruct (Ascii.eqb c0 "i" || Ascii.eqb c0 "I").
    + intros H Hn. apply (specialInf_full _ _ _ _ _ H). lia.
    + destruct (Ascii.eqb c0 "n" || Ascii.eqb c0 "N"); [| discriminate].
      destruct (Nat.eqb_spec (strconv.commonPrefixLenIgnoreCase (String c0 s1) "nan") 3)
        as [E | _]; [| discriminate].
      intros [= _ <-] Hn. apply (commonPrefix_noSpace _ "nan"); [reflexivity | lia].
Qed.

(** A string with a blank anywhere is a syntax error for [ParseFloat]. *)
Lemma ParseFloat_blank (s : string) :
  noSpace s = false -> strconv.ParseFloat s = strconv.Failed strconv.ErrSyntax.
Proof.
  intros Hs. unfold strconv.ParseFloat.
  destruct (strconv.special s) as [[v' n] |] eqn:Hsp.
  - destruct (Nat.eqb_spec n (String.length s)) as [Hn | _]; [| reflexivity].
    rewrite (special_full _ _ _ Hsp Hn) in Hs. discriminate.
  - destruct (strconv.readFloat s) as [[l rest] |] eqn:Hrf; [| reflexivity].
    destruct rest; [| reflexivity].
    rewrite (consumed_nil _ (readFloat_consumed _ _ _ Hrf)) in Hs. discriminate.
Qed.

Lemma substring_one_noSpace (s : string) (n : nat) :
  noSpace s = true -> substring n 1 s <> " ".
Proof.
  revert n. induction s as [| c s IH]; intros n Hs.
  - destruct n; discriminate.
  - cbn [noSpace] in Hs. apply andb_true_iff in Hs as [Hc Hs].
    destruct n as [| n]; cbn [substring].
    + destruct s; cbn [substring]; intros [= ->]; discriminate Hc.
    + apply IH. exact Hs.
Qed.

Lemma padded_has_space (s : string) : padded s = true -> noSpace s = false.
Proof.
  unfold padded, strings.HasPrefix, strings.HasSuffix. intros H.
  destruct (noSpace s) eqn:Hs; [exfalso | reflexivity].
  apply orb_true_iff in H as [H | H].
  - destruct s as [| c s]; [discriminate |].
    cbn [String.prefix noSpace] in *. destruct (ascii_dec " " c) as [<- | _];
      discriminate.
  - apply andb_true_iff in H as [_ H]. apply String.eqb_eq in H.
    exact (substring_one_noSpace _ _ Hs H).
Qed.


(** ** How a panic of a field ends the compilation *)

Lemma walkFields_panic (visit : rtype -> string -> result nest)
      (fields : list (StructField rtype)) (f : StructField rtype)
      (maps : gmap string Attribute * gmap string Block) :
  In f fields -> IsExported f = true ->
  (exists p, visit (FieldType f) (Tag f) = Panic p) ->
  exists p, walkFields visit fields maps = Panic p.
Proof.
  intros Hin Hexp (p & Hp). revert maps.
  induction fields as [| g fields IH]; intros maps; [contradiction |].
  cbn [walkFields].
  destruct Hin as [-> | Hin].
  - rewrite Hexp, Hp. cbn. eauto.
  - destruct (negb (IsExported g)); [apply (IH Hin) |].
    destruct (visit (FieldType g) (Tag g)) as [n | q]; cbn [bind]; [apply (IH Hin) | eauto].
Qed.

Lemma rAttribute_struct (str : string) (fields : list (StructField rtype)) (tags : string)
      (fromSlice : bool) (level : nat) :
  leaf (TStruct str fields) tags = None ->
  rAttribute (TStruct str fields) tags fromSlice level
  = (maps <- walkFields (fun t tg => rAttribute t tg false (level + 1)) fields (∅, ∅) ;;
     if (level =? 0)%nat then OK (schemaNest (snd maps) (fst maps))
     else blockNest (snd maps) (fst maps) fromSlice tags).
Proof. intros Hleaf. cbn [rAttribute]. rewrite Hleaf. reflexivity. Qed.

Lemma hasTagArg_nonempty (needle v : string) :
  needle <> "" -> hasTagArg needle v = true -> v <> "".
Proof. intros Hn H ->. rewrite hasTagArg_empty in H by assumption. discriminate. Qed.

Lemma addAttrOptions_validators_panic (a : Attribute) (tags attrType : string) :
  tagValue TagValidators tags <> "" ->
  (exists p, validators (tagValue TagValidators tags) attrType false tags = Panic p) ->
  exists p, addAttrOptions a tags attrType = Panic p.
Proof.
  intros Hv (p & Hp). unfold addAttrOptions.
  apply String.eqb_neq in Hv. rewrite Hv, Hp. cbn [negb].
  match goal with |- context [bind ?r _] => destruct r as [pm | q] end; cbn [bind]; eauto.
Qed.

Lemma addAttrOptions_pMods_panic (a : Attribute) (tags attrType : string) :
  tagValue TagPlanModifiers tags <> "" ->
  (exists p, pMods (tagValue TagPlanModifiers tags) attrType = Panic p) ->
  exists p, addAttrOptions a tags attrType = Panic p.
Proof.
  intros Hv (p & Hp). unfold addAttrOptions.
  apply String.eqb_neq in Hv. rewrite Hv, Hp. cbn. eauto.
Qed.

Lemma blockNest_validators_panic (blocks : gmap string Block) (attrs : gmap string Attribute)
      (slice : bool) (tags : string) :
  (exists p, validators (tagValue TagValidators tags) SpecialTypeBlock slice tags = Panic p) ->
  exists p, blockNest blocks attrs slice tags = Panic p.
Proof.
  intros (p & Hp). unfold blockNest, addBlockOptions. rewrite Hp.
  destruct (pMods_block_total (tagValue TagPlanModifiers tags)) as (pm & ->).
  destruct (negb (String.eqb (tagValue TagPlanModifiers tags) "")); cbn [bind]; eauto.
Qed.

Lemma leaf_panic (model : rtype) (tags : string) (fromSlice : bool) (level : nat)
      (l : Attribute) :
  leaf model tags = Some l ->
  (exists p, addAttrOptions l tags (typeString model) = Panic p) ->
  exists p, rAttribute model tags fromSlice level = Panic p.
Proof.
  intros Hleaf (p & Hp). rewrite (rAttribute_leaf _ _ _ _ _ Hleaf), Hp. cbn. eauto.
Qed.

(** A field whose [valid] tag makes [validators] panic for every attribute type. *)
Lemma validators_panic_field (model : rtype) (tags : string) (fromSlice : bool) (level : nat) :
  tagValue TagValidators tags <> "" ->
  (forall attrType fs, exists p,
       validators (tagValue TagValidators tags) attrType fs tags = Panic p) ->
  exists p, rAttribute model tags fromSlice (S level) = Panic p.
Proof.
  intros Hv Hval.
  assert (Hstruct : forall str fields fs lvl,
             exists p, rAttribute (TStruct str fields) tags fs (S lvl) = Panic p).
  { intros str fields fs lvl.
    destruct (leaf (TStruct str fields) tags) as [l |] eqn:Hleaf.
    - eapply leaf_panic; [exact Hleaf |].
      apply addAttrOptions_validators_panic; auto.
    - rewrite (rAttribute_struct _ _ _ _ _ Hleaf).
      destruct (walkFields _ fields (∅, ∅)) as [maps | q]; cbn [bind Nat.eqb]; [| eauto].
      apply blockNest_validators_panic; auto. }
  destruct (leaf model tags) as [l |] eqn:Hleaf.
  - eapply leaf_panic; [exact Hleaf |]. apply addAttrOptions_validators_panic; auto.
  - destruct model as [str kind | str fields | elem | key elem].
    + cbn [rAttribute]. rewrite Hleaf. eauto.
    + apply Hstruct.
    + cbn [rAttribute]. rewrite Hleaf.
      destruct elem as [str kind | str fields | elem | key elem]; cbn [kindOf]; eauto.
    + cbn [rAttribute]. rewrite Hleaf. eauto.
Qed.

Lemma forEach_panic {A B : Type} (f : A -> result B) (l : list A) (a : A) :
  In a l -> (exists p, f a = Panic p) -> exists p, forEach f l = Panic p.
Proof.
  intros Hin (p & Hp). induction l as [| x l IH]; [contradiction |].
  cbn [forEach]. destruct Hin as [-> | Hin].
  - rewrite Hp. cbn. eauto.
  - destruct (f x) as [b | q]; cbn [bind]; [| eauto].
    destruct (IH Hin) as (q & ->). cbn. eauto.
Qed.

Lemma betweenValidator_count (v attrType tags : string) :
  length (strings.Split (tagArgs TagValidatorBetween v) ",") <> 2 ->
  exists p, betweenValidator v attrType tags = Panic p.
Proof.
  intros Hn. unfold betweenValidator.
  apply Nat.eqb_neq in Hn. rewrite Hn. cbn. eauto.
Qed.

Lemma betweenValidator_arg (v attrType tags a : string) :
  In a (strings.Split (tagArgs TagValidatorBetween v) ",") ->
  (forall x, strconv.ParseFloat a <> strconv.Parsed x) ->
  exists p, betweenValidator v attrType tags = Panic p.
Proof.
  intros Hin Hbad. unfold betweenValidator.
  destruct (negb _); [eauto |].
  destruct (forEach_panic (parseFloatOr PanicBetweenNumeric) _ a Hin) as (p & ->).
  - unfold parseFloatOr. destruct (strconv.ParseFloat a) as [x | e]; [| eauto].
    exfalso. exact (Hbad x eq_refl).
  - cbn. eauto.
Qed.

Lemma validators_between_panic (v attrType : string) (fromSlice : bool) (tags : string) :
  hasTagArg TagValidatorBetween v = true ->
  (exists p, betweenValidator v attrType tags = Panic p) ->
  exists p, validators v attrType fromSlice tags = Panic p.
Proof.
  intros Hb (p & Hp). unfold validators. rewrite Hb, Hp. cbn. eauto.
Qed.

Lemma between_panic_field (model : rtype) (tags : string) (fromSlice : bool) (level : nat) :
  hasTagArg TagValidatorBetween (tagValue TagValidators tags) = true ->
  (forall attrType, exists p,
       betweenValidator (tagValue TagValidators tags) attrType tags = Panic p) ->
  exists p, rAttribute model tags fromSlice (S level) = Panic p.
Proof.
  intros Hb Hbv. apply validators_panic_field.
  - eapply hasTagArg_nonempty; [| exact Hb]. discriminate.
  - intros attrType fs. apply validators_between_panic; auto.
Qed.

Lemma numeric_is_scalar (t : string) :
  isIn t numericTypes = true -> isIn t scalarTypes = true.
Proof.
  unfold isIn. rewrite !existsb_exists. intros (x & Hin & Hx).
  exists x. split; [| exact Hx]. cbn [In numericTypes scalarTypes] in *. tauto.
Qed.

Lemma defaultMod_nonNumeric (dv attrType : string) :
  isIn attrType numericTypes = true -> nonNumeric dv ->
  exists p, defaultMod dv attrType = Panic p.
Proof.
  intros Hty (Hf & Hi & _).
  assert (Hpf : exists p, parseFloatOr PanicDefaultNumber dv = Panic p).
  { unfold parseFloatOr. destruct (strconv.ParseFloat dv) as [x | e]; [| eauto].
    exfalso. exact (Hf x eq_refl). }
  destruct Hpf as (p & Hp).
  unfold isIn in Hty. apply existsb_exists in Hty as (x & Hin & Hx).
  apply String.eqb_eq in Hx. subst x. cbn [In numericTypes] in Hin.
  unfold defaultMod.
  repeat (destruct Hin as [<- | Hin];
          [cbn; try rewrite Hp; cbn;
           try (destruct (strconv.ParseInt dv) as [x | e];
                [exfalso; exact (Hi x eq_refl) |]); eauto |]).
  contradiction.
Qed.

Lemma pMods_default_panic (v attrType : string) :
  hasTagArg TagPlanModifierDefault v = true ->
  (exists p, defaultMod (tagArgs TagPlanModifierDefault v) attrType = Panic p) ->
  exists p, pMods v attrType = Panic p.
Proof.
  intros Hd (p & Hp). unfold pMods. rewrite Hd, Hp. cbn. eauto.
Qed.

Lemma parse_nonNumeric (a : string) :
  nonNumeric a ->
  (forall mk, exists p, parseFloatOr mk a = Panic p)
  /\ (forall mk, exists p, parseIntOr mk a = Panic p)
  /\ (forall mk, exists p, parseBigOr mk a = Panic p).
Proof.
  intros (Hf & Hi & Hb). unfold parseFloatOr, parseIntOr, parseBigOr. repeat split; intros mk.
  - destruct (strconv.ParseFloat a) as [x | e]; [exfalso; exact (Hf x eq_refl) | eauto].
  - destruct (strconv.ParseInt a) as [x | e]; [exfalso; exact (Hi x eq_refl) | eauto].
  - rewrite Hb. eauto.
Qed.

Lemma oneOfValidator_nonNumeric (v attrType tags a : string) :
  isIn attrType numericTypes = true ->
  In a (strings.Split (tagArgs TagValidatorOneOf v) ",") ->
  nonNumeric a ->
  exists p, oneOfValidator v attrType tags = Panic p.
Proof.
  intros Hty Hin Hbad. destruct (parse_nonNumeric a Hbad) as (Hf & Hi & Hb).
  unfold isIn in Hty. apply existsb_exists in Hty as (x & Hx & Ex).
  apply String.eqb_eq in Ex. subst x. cbn [In numericTypes] in Hx.
  unfold oneOfValidator.
  repeat (destruct Hx as [<- | Hx];
          [cbn;
           first [ destruct (forEach_panic _ _ a Hin (Hf (fun a _ => PanicOneOfNumeric a)))
                     as (p & ->)
                 | destruct (forEach_panic _ _ a Hin (Hi PanicOneOfNumeric)) as (p & ->)
                 | destruct (forEach_panic _ _ a Hin (Hb PanicOneOfNumeric)) as (p & ->) ];
           cbn; eauto |]).
  contradiction.
Qed.

Lemma noneOfValidator_nonNumeric (v attrType tags a : string) :
  isIn attrType numericTypes = true ->
  In a (strings.Split (tagArgs TagValidatorNoneOf v) ",") ->
  nonNumeric a ->
  exists p, noneOfValidator v attrType tags = Panic p.
Proof.
  intros Hty Hin Hbad. destruct (parse_nonNumeric a Hbad) as (Hf & Hi & Hb).
  unfold isIn in Hty. apply existsb_exists in Hty as (x & Hx & Ex).
  apply String.eqb_eq in Ex. subst x. cbn [In numericTypes] in Hx.
  unfold noneOfValidator.
  repeat (destruct Hx as [<- | Hx];
          [cbn;
           first [ destruct (forEach_panic _ _ a Hin (Hf (fun a _ => PanicNoneOfNumeric a)))
                     as (p & ->)
                 | destruct (forEach_panic _ _ a Hin (Hi PanicNoneOfNumeric)) as (p & ->)
                 | destruct (forEach_panic _ _ a Hin (Hb PanicNoneOfNumeric)) as (p & ->) ];
           cbn; eauto |]).
  contradiction.
Qed.

Lemma validators_oneOf_panic (v attrType : string) (fromSlice : bool) (tags : string) :
  hasTagArg TagValidatorOneOf v = true ->
  (exists p, oneOfValidator v attrType tags = Panic p) ->
  exists p, validators v attrType fromSlice tags = Panic p.
Proof.
  intros Ho (p & Hp). unfold validators. rewrite Ho, Hp.
  match goal with |- context [bind ?r _] => destruct r as [vals | q] end;
    cbn [bind]; eauto.
Qed.

Lemma validators_noneOf_panic (v attrType : string) (fromSlice : bool) (tags : string) :
  hasTagArg TagValidatorNoneOf v = true ->
  (exists p, noneOfValidator v attrType tags = Panic p) ->
  exists p, validators v attrType fromSlice tags = Panic p.
Proof.
  intros Ho (p & Hp). unfold validators. rewrite Ho, Hp.
  match goal with |- context [bind ?r _] => destruct r as [vals | q] end;
    cbn [bind]; [| eauto].
  match goal with |- context [bind ?r _] => destruct r as [vals' | q] end;
    cbn [bind]; eauto.
Qed.

Lemma fieldDefect_panics (model : rtype) (tags : string) :
  fieldDefect model tags ->
  forall fromSlice level, exists p, rAttribute model tags fromSlice (S level) = Panic p.
Proof.
  intros [ [Hleaf Hshape] | Hb Hn | a Hb Hin Hbad | Hty Hd Hbad
         | a Hty Ho Hin Hbad | a Hty Ho Hin Hbad ] fromSlice level.
  - destruct model as [str kind | str fields | elem | key elem];
      cbn [rAttribute]; rewrite Hleaf; try contradiction; eauto.
    destruct (kindOf elem); try contradiction; eauto.
  - apply between_panic_field; [exact Hb |].
    intros attrType. apply betweenValidator_count. exact Hn.
  - apply between_panic_field; [exact Hb |].
    intros attrType. eapply betweenValidator_arg; [exact Hin | apply Hbad].
  - destruct (scalar_leaf model tags (numeric_is_scalar _ Hty)) as (l & Hleaf).
    eapply leaf_panic; [exact Hleaf |].
    apply addAttrOptions_pMods_panic.
    + eapply hasTagArg_nonempty; [| exact Hd]. discriminate.
    + apply pMods_default_panic; [exact Hd |].
      apply defaultMod_nonNumeric; assumption.
  - destruct (scalar_leaf model tags (numeric_is_scalar _ Hty)) as (l & Hleaf).
    eapply leaf_panic; [exact Hleaf |].
    apply addAttrOptions_validators_panic.
    + eapply hasTagArg_nonempty; [| exact Ho]. discriminate.
    + apply validators_oneOf_panic; [exact Ho |].
      eapply oneOfValidator_nonNumeric; eassumption.
  - destruct (scalar_leaf model tags (numeric_is_scalar _ Hty)) as (l & Hleaf).
    eapply leaf_panic; [exact Hleaf |].
    apply addAttrOptions_validators_panic.
    + eapply hasTagArg_nonempty; [| exact Ho]. discriminate.
    + apply validators_noneOf_panic; [exact Ho |].
      eapply noneOfValidator_nonNumeric; eassumption.
Qed.

Lemma hasDefect_panics (model : rtype) (tags : string) :
  hasDefect model tags ->
  forall fromSlice level, exists p, rAttribute model tags fromSlice (S level) = Panic p.
Proof.
  induction 1 as [model tags Hd | str fields tags f Hleaf Hin Hexp Hd IH
                 | elem tags Hleaf Hd IH]; intros fromSlice level.
  - apply fieldDefect_panics. exact Hd.
  - rewrite (rAttribute_struct _ _ _ _ _ Hleaf).
    destruct (walkFields_panic (fun t tg => rAttribute t tg false (S level + 1))
                fields f (∅, ∅) Hin Hexp) as (p & ->).
    + apply IH.
    + cbn. eauto.
  - cbn [rAttribute]. rewrite Hleaf.
    destruct (kindOf elem); eauto.
Qed.

Lemma New_field_panic (str : string) (fields : list (StructField rtype))
      (f : StructField rtype) :
  In f fields -> IsExported f = true ->
  (exists p, rAttribute (FieldType f) (Tag f) false 1 = Panic p) ->
  exists p, New (TStruct str fields) = Panic p.
Proof.
  intros Hin Hexp Hp. unfold New.
  destruct (leaf (TStruct str fields) "") as [l |] eqn:Hleaf.
  - rewrite (rAttribute_leaf _ _ _ _ _ Hleaf).
    destruct (addAttrOptions l "" _) as [l' | q]; cbn; eauto.
  - rewrite (rAttribute_struct _ _ _ _ _ Hleaf).
    destruct (walkFields_panic (fun t tg => rAttribute t tg false (0 + 1))
                fields f (∅, ∅) Hin Hexp Hp) as (p & ->).
    cbn. eauto.
Qed.

Lemma tagArgs_found (needle v : string) :
  tagArgs needle v <> "" -> hasTagArg needle v = true.
Proof.
  unfold tagArgs, hasTagArg.
  induction (splitTagValues v) as [| check h IH]; cbn [tagArgsIn existsb].
  - intros H. contradiction H. reflexivity.
  - destruct (strings.HasPrefix check (needle +:+ "(")).
    + intros _. rewrite orb_true_r. reflexivity.
    + intros H. rewrite (IH H). apply orb_true_r.
Qed.

Lemma pair_found (needle v a b : string) :
  strings.Split (tagArgs needle v) "," = [a; b] -> hasTagArg needle v = true.
Proof.
  intros H. apply tagArgs_found. intros E. rewrite E in H. discriminate H.
Qed.

(** The panic of a [between] term with a padded argument, and where it is
    the panic of the field. *)
Lemma between_padded_field (model : rtype) (tags : string) (a b : string) :
  strings.Split (tagArgs TagValidatorBetween (tagValue TagValidators tags)) "," = [a; b] ->
  padded a || padded b = true ->
  exists x e,
    In x [a; b]
    /\ strconv.ParseFloat x = strconv.Failed e
    /\ (forall attrType,
           betweenValidator (tagValue TagValidators tags) attrType tags
           = Panic (PanicBetweenNumeric x e))
    /\ (forall attrType fs,
           validators (tagValue TagValidators tags) attrType fs tags
           = Panic (PanicBetweenNumeric x e))
    /\ (forall l fromSlice level,
           leaf model tags = Some l ->
           rAttribute model tags fromSlice level
           = match pMods (tagValue TagPlanModifiers tags) (typeString model) with
             | OK _ => Panic (PanicBetweenNumeric x e)
             | Panic q => Panic q
             end)
    /\ (forall str fields fromSlice level maps,
           model = TStruct str fields ->
           leaf model tags = None ->
           walkFields (fun t tg => rAttribute t tg false (S level + 1)) fields (∅, ∅)
           = OK maps ->
           rAttribute model tags fromSlice (S level) = Panic (PanicBetweenNumeric x e)).
Proof.
  intros Hsplit Hpad.
  pose proof (pair_found _ _ _ _ Hsplit) as Hb.
  assert (Hfail : strconv.ParseFloat a = strconv.Failed strconv.ErrSyntax
                  \/ strconv.ParseFloat b = strconv.Failed strconv.ErrSyntax).
  { apply orb_true_iff in Hpad as [H | H]; [left | right];
      apply ParseFloat_blank, padded_has_space, H. }
  assert (Hx : exists x e,
             In x [a; b]
             /\ strconv.ParseFloat x = strconv.Failed e
             /\ forall attrType,
                 betweenValidator (tagValue TagValidators tags) attrType tags
                 = Panic (PanicBetweenNumeric x e)).
  { destruct (strconv.ParseFloat a) as [va | ea] eqn:Ea.
    - destruct Hfail as [Hfail | Hfail]; [discriminate |].
      exists b, strconv.ErrSyntax. split; [right; left; reflexivity |].
      split; [exact Hfail |]. intros attrType. unfold betweenValidator. rewrite Hsplit.
      cbn [length Nat.eqb negb forEach]. unfold parseFloatOr. rewrite Ea, Hfail. reflexivity.
    - exists a, ea. split; [left; reflexivity |].
      split; [exact Ea |]. intros attrType. unfold betweenValidator. rewrite Hsplit.
      cbn [length Nat.eqb negb forEach]. unfold parseFloatOr. rewrite Ea. reflexivity. }
  destruct Hx as (x & e & Hin & Hpx & Hbv). exists x, e.
  assert (Hval : forall attrType fs,
             validators (tagValue TagValidators tags) attrType fs tags
             = Panic (PanicBetweenNumeric x e)).
  { intros attrType fs. unfold validators. rewrite Hb, Hbv. reflexivity. }
  assert (Hne : String.eqb (tagValue TagValidators tags) "" = false).
  { apply String.eqb_neq. eapply hasTagArg_nonempty; [| exact Hb]. discriminate. }
  repeat (split; [assumption |]). split.
  - intros l fromSlice level Hleaf. rewrite (rAttribute_leaf _ _ _ _ _ Hleaf).
    unfold addAttrOptions. rewrite Hne, Hval. cbn [negb].
    destruct (String.eqb_spec (tagValue TagPlanModifiers tags) "") as [E | _]; cbn [negb].
    + rewrite E, pMods_empty. reflexivity.
    + destruct (pMods (tagValue TagPlanModifiers tags) (typeString model)); reflexivity.
  - intros str fields fromSlice level maps -> Hleaf Hw.
    rewrite (rAttribute_struct _ _ _ _ _ Hleaf), Hw. cbn [bind Nat.eqb].
    unfold blockNest, addBlockOptions. rewrite Hval.
    destruct (pMods_block_total (tagValue TagPlanModifiers tags)) as (pm & ->).
    destruct (negb (String.eqb (tagValue TagPlanModifiers tags) "")); reflexivity.
Qed.

(** C3, as amended.  The arguments of a [between] term are not trimmed.  When
    the arguments [tagArgs] reads for [between] (the text inside the first
    term that starts with [between(]) are two, of which one starts or ends
    with a blank, [ParseFloat] rejects an argument and [betweenValidator]
    and [validators] panic with "between requires 2 numeric args" for every
    attribute type; the field does not compile at any depth below the root,
    and [New] panics on a model with the field.  On a field that [leaf]
    resolves the panic is that one unless [pMods] panics first; on a struct
    it is that one once the fields of the struct have compiled.  So it is
    with every tag string made of tokens whose [valid] token is made of terms
    with the one term [between(a,b)].  A second [between] term is not read,
    padded or not. *)
Theorem between_padded_aborts :
  (forall (model : rtype) (tags : string) (a b : string),
      strings.Split (tagArgs TagValidatorBetween (tagValue TagValidators tags)) ","
      = [a; b] ->
      padded a || padded b = true ->
      (exists x e,
          In x [a; b]
          /\ strconv.ParseFloat x = strconv.Failed e
          /\ (forall attrType,
                 betweenValidator (tagValue TagValidators tags) attrType tags
                 = Panic (PanicBetweenNumeric x e))
          /\ (forall attrType fs,
                 validators (tagValue TagValidators tags) attrType fs tags
                 = Panic (PanicBetweenNumeric x e))
          /\ (forall l fromSlice level,
                 leaf model tags = Some l ->
                 rAttribute model tags fromSlice level
                 = match pMods (tagValue TagPlanModifiers tags) (typeString model) with
                   | OK _ => Panic (PanicBetweenNumeric x e)
                   | Panic q => Panic q
                   end)
          /\ (forall str fields fromSlice level maps,
                 model = TStruct str fields ->
                 leaf model tags = None ->
                 walkFields (fun t tg => rAttribute t tg false (S level + 1)) fields (∅, ∅)
                 = OK maps ->
                 rAttribute model tags fromSlice (S level)
                 = Panic (PanicBetweenNumeric x e)))
      /\ (forall fromSlice level,
             exists p, rAttribute model tags fromSlice (S level) = Panic p)
      /\ (forall str fields f,
             In f fields -> IsExported f = true -> FieldType f = model -> Tag f = tags ->
             exists p, New (TStruct str fields) = Panic p))
  /\ (forall (model : rtype) (tokens terms : list textUnit) (a b : string)
             (fromSlice : bool) (level : nat),
         Forall (goodUnit ":" dq " ") tokens -> Forall pipeFree tokens ->
         Forall (goodUnit "(" ")" ",") terms -> Forall pipeFree terms ->
         In (TextUnit TagValidators (Some (joinWith "," (map termText terms)))) tokens ->
         (forall u, In u tokens -> u_pre u = TagValidators ->
                    u = TextUnit TagValidators (Some (joinWith "," (map termText terms)))) ->
         In (TextUnit TagValidatorBetween (Some (a +:+ "," +:+ b))) terms ->
         (forall u, In u terms ->
                    strings.HasPrefix (termText u) (TagValidatorBetween +:+ "(") = true ->
                    u = TextUnit TagValidatorBetween (Some (a +:+ "," +:+ b))) ->
         countByte "," a = 0 -> countByte "," b = 0 ->
         padded a || padded b = true ->
         exists p,
           rAttribute model (joinWith " " (map tokenText tokens)) fromSlice (S level)
           = Panic p)
  /\ rAttribute (TBasic "string" "string") (raw "valid:'between(1,2),between( 3, 32 )'")
                false 1
     = OK (mkNest None None
             (Some (mkAttribute types.StringType false true false false "" "" ""
                      [StringLengthBetween 1 2] [])))
  /\ rAttribute (TBasic "int64" "int64")
                (raw "pmods:'default(x)' valid:'between( 3, 32 )'") false 1
     = Panic (PanicDefaultNumber "x" strconv.ErrSyntax).
Proof.
  assert (Hfield : forall model tags a b,
             strings.Split (tagArgs TagValidatorBetween (tagValue TagValidators tags)) ","
             = [a; b] ->
             padded a || padded b = true ->
             forall fromSlice level,
               exists p, rAttribute model tags fromSlice (S level) = Panic p).
  { intros model tags a b Hsplit Hpad fromSlice level.
    destruct (between_padded_field model tags a b Hsplit Hpad)
      as (x & e & _ & _ & Hbv & _).
    apply between_panic_field; [exact (pair_found _ _ _ _ Hsplit) |].
    intros attrType. rewrite Hbv. eauto. }
  split; [| split; [| split; vm_compute; reflexivity]].
  - intros model tags a b Hsplit Hpad.
    split; [exact (between_padded_field model tags a b Hsplit Hpad) |].
    split; [exact (Hfield model tags a b Hsplit Hpad) |].
    intros str fields f Hin Hexp <- <-. eapply New_field_panic; eauto.
  - intros model tokens terms a b fromSlice level Hgood Hfree Hgood' Hfree'
           Hvalid Honly Hterm Honly' Ha Hb Hpad.
    assert (Hne : tokens <> []) by (intros ->; contradiction).
    pose proof (tagValue_tokens TagValidators tokens Hne Hgood Hfree) as Hval.
    rewrite (lookupToken_only _ _ _ Hvalid Honly) in Hval.
    apply (Hfield model _ a b); [| exact Hpad].
    rewrite Hval, (tagArgs_terms _ _ _ Hgood' Hfree' Hterm Honly').
    apply Split_pair; assumption.
Qed.

Lemma between_padded_aborts_witness :
  exists p,
    rAttribute (TStruct "types.String" [])
               (joinWith " "
                  (map tokenText
                     [TextUnit "tfsdk" (Some "name");
                      TextUnit "valid"
                        (Some (joinWith ","
                                 (map termText [TextUnit "between" (Some " 3, 32 ")])))]))
               false 1
    = Panic p.
Proof.
  apply (proj1 (proj2 between_padded_aborts) (TStruct "types.String" [])
           [TextUnit "tfsdk" (Some "name");
            TextUnit "valid"
              (Some (joinWith "," (map termText [TextUnit "between" (Some " 3, 32 ")])))]
           [TextUnit "between" (Some " 3, 32 ")] " 3" " 32 ").
  - repeat (apply List.Forall_cons; [vm_compute; repeat split; reflexivity |]).
    apply List.Forall_nil.
  - repeat (apply List.Forall_cons; [vm_compute; repeat split; reflexivity |]).
    apply List.Forall_nil.
  - repeat (apply List.Forall_cons; [vm_compute; repeat split; reflexivity |]).
    apply List.Forall_nil.
  - repeat (apply List.Forall_cons; [vm_compute; repeat split; reflexivity |]).
    apply List.Forall_nil.
  - right. left. reflexivity.
  - intros u [<- | [<- | []]] Hu; [discriminate Hu | reflexivity].
  - left. reflexivity.
  - intros u [<- | []] _. reflexivity.
  - reflexivity.
  - reflexivity.
  - reflexivity.
Defined.

(** C3, as stated, fails.  The string field tagged [valid:"between(3,32)"]
    compiles to an attribute with the validator LengthBetween(3, 32); the same
    field tagged [valid:"between( 3, 32 )"] panics on the argument [" 3"],
    and so does [New] on a model with that field. *)
Lemma between_blanks_counterexample :
  rAttribute (TStruct "types.String" []) (raw "tfsdk:'name' valid:'between(3,32)'") false 1
  = OK (mkNest None None
          (Some (mkAttribute types.StringType false true false false "" "" ""
                   [StringLengthBetween 3 32] [])))
  /\ rAttribute (TStruct "types.String" []) (raw "tfsdk:'name' valid:'between( 3, 32 )'")
                false 1
     = Panic (PanicBetweenNumeric " 3" strconv.ErrSyntax)
  /\ New (TStruct "struct { Name types.String }"
             [mkField "Name" true (TStruct "types.String" [])
                      (raw "tfsdk:'name' valid:'between( 3, 32 )'")])
     = Panic (PanicBetweenNumeric " 3" strconv.ErrSyntax).
Proof. repeat split; vm_compute; reflexivity. Qed.

(** C9, as amended.  A field with a defect makes [rAttribute] panic, at any
    depth below the root and whatever the other fields are, and [New] panics
    on a model with such a field: the result is the panic, never a schema.
    The defects are those of [hasDefect]: an unsupported type; arguments read
    by [tagArgs] for [between], those of the first term [between(...)], that
    are not two or of which one is no number; on a numeric scalar field, the
    argument read for [default], or one read for [oneof] or [noneof], that is
    no number; and a defect of an exported field of a struct, or of the
    element of a slice, that [leaf] does not resolve.  The panic names its
    cause on the three models below. *)
Theorem defect_aborts :
  (forall (model : rtype) (tags : string),
      hasDefect model tags ->
      forall fromSlice level, exists p, rAttribute model tags fromSlice (S level) = Panic p)
  /\ (forall (str : string) (fields : list (StructField rtype)) (f : StructField rtype),
         In f fields -> IsExported f = true ->
         hasDefect (FieldType f) (Tag f) ->
         exists p, New (TStruct str fields) = Panic p)
  /\ New (TStruct "struct { Ports [][]string }"
             [mkField "Ports" true (TSlice (TSlice (TBasic "string" "string"))) ""])
     = Panic (PanicSliceType "slice")
  /\ New (TStruct "struct { Name string }"
             [mkField "Name" true (TBasic "string" "string")
                      (raw "valid:'between(1,2,3)'")])
     = Panic (PanicBetweenCount 3)
  /\ New (TStruct "struct { Size int64 }"
             [mkField "Size" true (TBasic "int64" "int64") (raw "pmods:'default(big)'")])
     = Panic (PanicDefaultNumber "big" strconv.ErrSyntax).
Proof.
  split; [exact hasDefect_panics |].
  split; [| repeat split; vm_compute; reflexivity].
  intros str fields f Hin Hexp Hd. eapply New_field_panic; eauto.
  apply hasDefect_panics. exact Hd.
Qed.

Lemma defect_aborts_witness :
  exists p,
    New (TStruct "struct { Criterion []struct { Size int64 } }"
           [mkField "Criterion" true
              (TSlice (TStruct "struct { Size int64 }"
                         [mkField "Size" true (TBasic "int64" "int64")
                                  (raw "valid:'oneof(1,x)'")]))
              (raw "tfsdk:'criterion'")])
    = Panic p.
Proof.
  apply (proj1 (proj2 defect_aborts) _ _
           (mkField "Criterion" true
              (TSlice (TStruct "struct { Size int64 }"
                         [mkField "Size" true (TBasic "int64" "int64")
                                  (raw "valid:'oneof(1,x)'")]))
              (raw "tfsdk:'criterion'"))).
  - left. reflexivity.
  - reflexivity.
  - apply DefectInElem; [vm_compute; reflexivity |].
    eapply DefectInField; [vm_compute; reflexivity | left; reflexivity | reflexivity |].
    apply DefectHere. apply (DefectOneOf _ _ "x").
    + vm_compute. reflexivity.
    + vm_compute. reflexivity.
    + vm_compute. auto.
    + repeat split; try intros v; vm_compute; discriminate || reflexivity.
Defined.

(** C9, as stated, fails.  Of several terms of one name only the first is
    read: a second [between] term with three arguments, or with an argument
    that is no number, a second [default] term and a second [oneof] term with
    a literal that is no number, on a field of 64-bit integers, are defects of
    the claim, and the models compile to a schema. *)
Lemma later_term_counterexample :
  New (TStruct "struct { Name string }"
         [mkField "Name" true (TBasic "string" "string")
                  (raw "valid:'between(1,2),between(1,2,3)'")])
  = OK (mkSchema
          (<["name" := mkAttribute types.StringType false true false false "" "" ""
                         [StringLengthBetween 1 2] []]> ∅)
          ∅ 0 "" "" "")
  /\ New (TStruct "struct { Name string }"
            [mkField "Name" true (TBasic "string" "string")
                     (raw "valid:'between(1,2),between(1,x)'")])
     = OK (mkSchema
             (<["name" := mkAttribute types.StringType false true false false "" "" ""
                            [StringLengthBetween 1 2] []]> ∅)
             ∅ 0 "" "" "")
  /\ New (TStruct "struct { Size int64 }"
            [mkField "Size" true (TBasic "int64" "int64")
                     (raw "pmods:'default(1),default(big)'")])
     = OK (mkSchema
             (<["size" := mkAttribute types.Int64Type false true false false "" "" ""
                            [] [DefaultValue (types.Int64 1)]]> ∅)
             ∅ 0 "" "" "")
  /\ New (TStruct "struct { Size int64 }"
            [mkField "Size" true (TBasic "int64" "int64")
                     (raw "valid:'oneof(1,2),oneof(x)'")])
     = OK (mkSchema
             (<["size" := mkAttribute types.Int64Type false true false false "" "" ""
                            [Int64OneOf [1%Z; 2%Z]] []]> ∅)
             ∅ 0 "" "" "").
Proof. repeat split; vm_compute; reflexivity. Qed.

(** * Further properties

    What the code shows besides: round trips of the tag parser, what the
    accessors find, how rules and types go together, and how the walk over
    the fields builds the schema. *)

(** The well-formedness of a list of terms or tokens given in full. *)
Ltac units_ok :=
  repeat (apply List.Forall_cons; [vm_compute; repeat split; reflexivity |]);
  apply List.Forall_nil.

(** ** The tag parser loses nothing *)


Lemma hides_refl (sep : ascii) (s : string) : hides sep s s.
Proof. induction s; constructor; assumption. Qed.

Lemma hides_app (sep : ascii) (a a' b b' : string) :
  hides sep a a' -> hides sep b b' -> hides sep (a +:+ b) (a' +:+ b').
Proof.
  intros Ha Hb. induction Ha as [| c s x _ IH | s x _ IH].
  - exact Hb.
  - rewrite !append_cons. constructor. exact IH.
  - rewrite append_cons, append_assoc. constructor. exact IH.
Qed.

Lemma hides_pipe_inv (sep : ascii) (x y : string) :
  sep <> pipe -> hides sep (String pipe x) y -> exists y', y = String pipe y' /\ hides sep x y'.
Proof.
  intros Hne H. inversion H; subst.
  - eauto.
  - contradiction.
Qed.

Lemma hides_sentinel_inv (sep : ascii) (x y : string) :
  sep <> pipe -> hides sep (sentinel +:+ x) y -> exists y', y = sentinel +:+ y' /\ hides sep x y'.
Proof.
  intros Hne H. unfold sentinel in H. rewrite !append_cons in H.
  change ("" +:+ x) with x in H.
  do 5 (apply (hides_pipe_inv sep _ _ Hne) in H; destruct H as (? & -> & H)).
  eexists. split; [| exact H]. reflexivity.
Qed.

Lemma hides_trans (sep : ascii) (s x y : string) :
  sep <> pipe -> hides sep s x -> hides sep x y -> hides sep s y.
Proof.
  intros Hne Hsx. revert y. induction Hsx as [| c s x _ IH | s x _ IH]; intros y Hxy.
  - exact Hxy.
  - inversion Hxy; subst.
    + constructor. apply IH. assumption.
    + constructor. apply IH. assumption.
  - apply (hides_sentinel_inv _ _ _ Hne) in Hxy. destruct Hxy as (y' & -> & Hxy).
    constructor. apply IH. exact Hxy.
Qed.

Lemma countByte_sentinel (sep : ascii) : sep <> pipe -> countByte sep sentinel = 0.
Proof.
  intros Hne. unfold sentinel. cbn [countByte]. fold pipe.
  destruct (Ascii.eqb_spec pipe sep) as [E | _]; [symmetry in E; contradiction | reflexivity].
Qed.

Lemma hideOnce_hides (re : regexp.Regexp) (sep : ascii) (s : string) :
  hidesOne re sep -> sep <> pipe -> hides sep s (hideOnce re s).
Proof.
  intros Hre Hne. remember (String.length s) as n eqn:Hn.
  revert s Hn. induction n as [n IH] using lt_wf_ind. intros s ->.
  destruct s as [| c s]; [rewrite hideOnce_nil; constructor |].
  destruct (regexp.matchAt re (String c s)) as [[subs rest] |] eqn:Hm.
  - destruct (hide_match re sep Hre (countByte_sentinel _ Hne) _ _ _ Hm) as (g1 & g2 & Hs & ->).
    rewrite Hs. apply hides_app.
    + apply hides_app; [apply hides_refl |].
      change (sentinel +:+ g2) with (sentinel +:+ g2). constructor. apply hides_refl.
    + apply (IH (String.length rest)); [| reflexivity].
      apply (f_equal String.length) in Hs. rewrite !length_append in Hs.
      cbn [String.length] in *. lia.
  - rewrite (hide_nomatch re _ _ Hm). constructor.
    apply (IH (String.length s)); [cbn; lia | reflexivity].
Qed.

Lemma untilStable_hides (re : regexp.Regexp) (sep : ascii) (fuel : nat) (s : string) :
  hidesOne re sep -> sep <> pipe -> hides sep s (untilStable re fuel s).
Proof.
  intros Hre Hne. revert s. induction fuel as [| fuel IH]; intros s; cbn [untilStable].
  - apply hides_refl.
  - destruct (String.eqb (hideOnce re s) s); [apply hides_refl |].
    eapply hides_trans; [exact Hne | apply (hideOnce_hides re); assumption | apply IH].
Qed.

Lemma hideSeparators_hides (re : regexp.Regexp) (sep : ascii) (s : string) :
  hidesOne re sep -> sep <> pipe -> hides sep s (hideSeparators re s).
Proof.
  intros Hre Hne. unfold hideSeparators.
  eapply hides_trans; [exact Hne | apply (hideOnce_hides re); assumption |].
  apply untilStable_hides; assumption.
Qed.

Lemma joinWith_head (sep c : ascii) (h : string) (t : list string) :
  joinWith sep (String c h :: t) = String c (joinWith sep (h :: t)).
Proof. destruct t; reflexivity. Qed.

Lemma joinWith_head_app (sep : ascii) (p h : string) (t : list string) :
  joinWith sep ((p +:+ h) :: t) = p +:+ joinWith sep (h :: t).
Proof.
  induction p as [| c p IH]; [reflexivity |].
  rewrite !append_cons, joinWith_head, IH. reflexivity.
Qed.

Lemma Split_head_app (sep : ascii) (p x : string) :
  countByte sep p = 0 ->
  strings.Split (p +:+ x) sep
  = match strings.Split x sep with
    | h :: t => (p +:+ h) :: t
    | [] => [p]
    end.
Proof.
  induction p as [| c p IH]; intros Hp.
  - change ("" +:+ x) with x. destruct (strings.Split x sep) eqn:E; [| reflexivity].
    exfalso. eapply Split_nonempty. exact E.
  - apply countByte_zero_cons in Hp as [Hc Hp]. rewrite append_cons.
    cbn [strings.Split]. destruct (Ascii.eqb_spec c sep) as [-> | _]; [contradiction |].
    rewrite (IH Hp). destruct (strings.Split x sep); reflexivity.
Qed.

Lemma hides_join (sep : ascii) (s x : string) :
  sep <> pipe -> countByte pipe s = 0 -> hides sep s x ->
  joinWith sep (map (fun v => strings.Replace v sentinel (String sep ""))
                    (strings.Split x sep)) = s.
Proof.
  intros Hne Hpipe H. induction H as [| c s x H IH | s x H IH].
  - reflexivity.
  - apply countByte_zero_cons in Hpipe as [Hc Hpipe]. specialize (IH Hpipe).
    cbn [strings.Split]. destruct (Ascii.eqb_spec c sep) as [-> | Hcs].
    + cbn [map]. change (strings.Replace "" sentinel (String sep "")) with "".
      rewrite joinWith_cons.
      * rewrite IH. reflexivity.
      * intros E. apply map_eq_nil in E. eapply Split_nonempty. exact E.
    + destruct (strings.Split x sep) as [| h t] eqn:E; [exfalso; eapply Split_nonempty; exact E |].
      cbn [map] in *. rewrite (Replace_copy _ _ _ Hc), joinWith_head, IH. reflexivity.
  - apply countByte_zero_cons in Hpipe as [_ Hpipe]. specialize (IH Hpipe).
    rewrite Split_head_app.
    + destruct (strings.Split x sep) as [| h t] eqn:E; [exfalso; eapply Split_nonempty; exact E |].
      cbn [map] in *. rewrite Replace_sentinel.
      rewrite (joinWith_head_app sep (String sep "")), IH. reflexivity.
    + apply countByte_sentinel, Hne.
Qed.

Lemma splitOutside_join (re : regexp.Regexp) (sep : ascii) (s : string) :
  hidesOne re sep -> sep <> pipe -> countByte pipe s = 0 ->
  joinWith sep (splitOutside re sep s) = s.
Proof.
  intros Hre Hne Hpipe. unfold splitOutside.
  apply hides_join; [exact Hne | exact Hpipe | apply hideSeparators_hides; assumption].
Qed.

(** X1.  [splitTagValues] loses nothing: for a tag value without the byte [|],
    the terms it returns, joined with commas, are the tag value again, well
    formed or not. *)
Theorem splitTagValues_join :
  forall s : string, countByte pipe s = 0 -> joinWith "," (splitTagValues s) = s.
Proof.
  intros s. apply splitOutside_join; [apply reParenComma_hidesOne | discriminate].
Qed.

Lemma splitTagValues_join_witness :
  joinWith "," (splitTagValues "a(1,2,b),(c,d") = "a(1,2,b),(c,d".
Proof. apply splitTagValues_join. reflexivity. Defined.

(** X2.  [splitTags] loses nothing: for a tag string without the byte [|],
    the tokens it returns, joined with blanks, are the tag string again. *)
Theorem splitTags_join :
  forall s : string, countByte pipe s = 0 -> joinWith " " (splitTags s) = s.
Proof.
  intros s. apply splitOutside_join; [apply reQuotedSpace_hidesOne | discriminate].
Qed.

Lemma splitTags_join_witness :
  joinWith " " (splitTags (raw "a:'x y' b:'z")) = raw "a:'x y' b:'z".
Proof. apply splitTags_join. reflexivity. Defined.

(** ** The loops of the tag parser end *)

(** X3.  The loops of [splitTagValues] and [splitTags] end: after as many
    rounds as the string has separators, one more replacement changes
    nothing. *)
Theorem tag_loops_end :
  (forall (fuel : nat) (s : string),
      countByte "," s <= fuel ->
      hideOnce reParenComma (untilStable reParenComma fuel s)
      = untilStable reParenComma fuel s)
  /\ (forall (fuel : nat) (s : string),
         countByte " " s <= fuel ->
         hideOnce reQuotedSpace (untilStable reQuotedSpace fuel s)
         = untilStable reQuotedSpace fuel s).
Proof.
  split; intros fuel s H.
  - apply (untilStable_stable _ "," reParenComma_hidesOne eq_refl _ _ H).
  - apply (untilStable_stable _ " " reQuotedSpace_hidesOne eq_refl _ _ H).
Qed.

Lemma tag_loops_end_witness :
  hideOnce reParenComma (untilStable reParenComma 3 "a(1,2,3),b")
  = untilStable reParenComma 3 "a(1,2,3),b".
Proof. apply (proj1 tag_loops_end 3 "a(1,2,3),b"). vm_compute. lia. Defined.

(** ** What the tag accessors find *)

Lemma Split_pieces (s : string) (sep : ascii) :
  Forall (fun p => countByte sep p = 0) (strings.Split s sep).
Proof.
  induction s as [| c s IH]; cbn [strings.Split].
  - repeat constructor.
  - destruct (Ascii.eqb_spec c sep) as [-> | Hc].
    + constructor; [reflexivity | exact IH].
    + destruct (strings.Split s sep) as [| h t].
      * repeat constructor. cbn [countByte].
        destruct (Ascii.eqb_spec c sep); [contradiction | reflexivity].
      * inversion IH; subst. constructor; [| assumption].
        cbn [countByte]. destruct (Ascii.eqb_spec c sep); [contradiction | assumption].
Qed.

Lemma countByte_substring (c : ascii) (n m : nat) (s : string) :
  countByte c s = 0 -> countByte c (substring n m s) = 0.
Proof.
  revert n m. induction s as [| x s IH]; intros n m H.
  - destruct n, m; reflexivity.
  - apply countByte_zero_cons in H as [Hx Hs].
    destruct n as [| n]; destruct m as [| m]; cbn [substring countByte]; auto.
    rewrite (IH 0 m Hs). destruct (Ascii.eqb_spec x c); [contradiction | reflexivity].
Qed.

Lemma countByte_TrimSuffix (c : ascii) (s suf : string) :
  countByte c s = 0 -> countByte c (strings.TrimSuffix s suf) = 0.
Proof.
  intros H. unfold strings.TrimSuffix.
  destruct (strings.HasSuffix s suf); [apply countByte_substring |]; exact H.
Qed.

Lemma countByte_TrimPrefix (c : ascii) (s pre : string) :
  countByte c s = 0 -> countByte c (strings.TrimPrefix s pre) = 0.
Proof.
  intros H. unfold strings.TrimPrefix.
  destruct (strings.HasPrefix s pre); [apply countByte_substring |]; exact H.
Qed.

Lemma tagValueIn_no_colon (key : string) (tags : list string) :
  countByte ":" (tagValueIn key tags) = 0.
Proof.
  induction tags as [| tag rest IH]; [reflexivity |].
  cbn [tagValueIn]. pose proof (Split_pieces tag ":") as Hp.
  destruct (strings.Split tag ":") as [| k [| v [| w l]]]; try exact IH.
  destruct (String.eqb k key); [| exact IH].
  inversion Hp as [| ? ? _ Hv]; subst. inversion Hv as [| ? ? Hv' _]; subst.
  apply countByte_TrimPrefix, countByte_TrimSuffix, Hv'.
Qed.

(** X4.  [tagValue] never returns a value with a colon: a token whose value
    has one is split into more than two parts and passed over, so that the
    value of a later token of the key, or the empty string, is returned. *)
Theorem tagValue_no_colon :
  (forall key allTags : string, countByte ":" (tagValue key allTags) = 0)
  /\ tagValue TagDescription (raw "desc:'see http://example.com'") = ""
  /\ tagValue TagDescription (raw "desc:'ratio 1:2' desc:'plain'") = "plain".
Proof.
  split; [intros; apply tagValueIn_no_colon | split; vm_compute; reflexivity].
Qed.

Lemma lookupToken_first (key v : string) (before after : list textUnit) :
  (forall u, In u before -> u_pre u = key -> u_body u = None) ->
  lookupToken key (before ++ TextUnit key (Some v) :: after) = v.
Proof.
  intros Hb. induction before as [| u before IH]; cbn [app lookupToken u_body u_pre].
  - rewrite String.eqb_refl. reflexivity.
  - destruct (u_body u) as [b |] eqn:Eb.
    + destruct (String.eqb_spec (u_pre u) key) as [E | _].
      * rewrite (Hb u (or_introl eq_refl) E) in Eb. discriminate.
      * apply IH. intros u' Hu'. apply Hb. right. exact Hu'.
    + apply IH. intros u' Hu'. apply Hb. right. exact Hu'.
Qed.

Lemma lookupToken_none (key : string) (tokens : list textUnit) :
  (forall u, In u tokens -> u_pre u = key -> u_body u = None) ->
  lookupToken key tokens = "".
Proof.
  intros Hb. induction tokens as [| u tokens IH]; [reflexivity |].
  cbn [lookupToken]. destruct (u_body u) as [b |] eqn:Eb.
  - destruct (String.eqb_spec (u_pre u) key) as [E | _].
    + rewrite (Hb u (or_introl eq_refl) E) in Eb. discriminate.
    + apply IH. intros u' Hu'. apply Hb. right. exact Hu'.
  - apply IH. intros u' Hu'. apply Hb. right. exact Hu'.
Qed.

(** X5.  On a tag string made of tokens separated by one blank, each a key
    without colon and blank, alone or with a quoted value without quote and
    colon, and none with the byte [|] of the sentinel, [tagValue] returns the
    value of the first token [key:"value"] of the key, whatever follows it,
    and the empty string when no token of the key has a value. *)
Theorem tagValue_first_token :
  (forall (key v : string) (before after : list textUnit),
      Forall (goodUnit ":" dq " ") (before ++ TextUnit key (Some v) :: after) ->
      Forall pipeFree (before ++ TextUnit key (Some v) :: after) ->
      (forall u, In u before -> u_pre u = key -> u_body u = None) ->
      tagValue key (joinWith " " (map tokenText (before ++ TextUnit key (Some v) :: after)))
      = v)
  /\ (forall (key : string) (tokens : list textUnit),
         Forall (goodUnit ":" dq " ") tokens ->
         Forall pipeFree tokens ->
         (forall u, In u tokens -> u_pre u = key -> u_body u = None) ->
         tagValue key (joinWith " " (map tokenText tokens)) = "").
Proof.
  split.
  - intros key v before after Hgood Hfree Hb.
    rewrite tagValue_tokens; [apply lookupToken_first, Hb | | exact Hgood | exact Hfree].
    destruct before; discriminate.
  - intros key tokens Hgood Hfree Hb.
    destruct tokens as [| u tokens]; [reflexivity |].
    rewrite tagValue_tokens; [apply lookupToken_none, Hb | discriminate | exact Hgood | exact Hfree].
Qed.

Lemma tagValue_first_token_witness :
  tagValue "md"
    (joinWith " "
       (map tokenText ([TextUnit "tfsdk" (Some "name"); TextUnit "md" None]
                         ++ TextUnit "md" (Some "the first, with blanks")
                         :: [TextUnit "md" (Some "the second")])))
  = "the first, with blanks".
Proof.
  apply (proj1 tagValue_first_token "md" "the first, with blanks"
           [TextUnit "tfsdk" (Some "name"); TextUnit "md" None]
           [TextUnit "md" (Some "the second")]).
  - units_ok.
  - units_ok.
  - intros u [<- | [<- | []]] H; [discriminate H | reflexivity].
Defined.

Lemma prefix_open (a b rest : string) :
  countByte "(" a = 0 -> countByte "(" b = 0 ->
  String.prefix (b +:+ "(") (a +:+ String "(" rest) = String.eqb a b.
Proof.
  revert a. induction b as [| d b IH]; intros a Ha Hb.
  - change ("" +:+ "(") with "(". destruct a as [| c a].
    + change ("" +:+ String "(" rest) with (String "(" rest). cbn [String.prefix].
      destruct (ascii_dec "(" "(") as [_ | E]; [apply prefix_empty | contradiction E; reflexivity].
    + apply countByte_zero_cons in Ha as [Hc _]. rewrite append_cons. cbn [String.prefix String.eqb].
      destruct (ascii_dec "(" c) as [E | _]; [symmetry in E; contradiction | reflexivity].
  - apply countByte_zero_cons in Hb as [Hd Hb].
    destruct a as [| c a].
    + change ("" +:+ String "(" rest) with (String "(" rest). rewrite append_cons.
      cbn [String.prefix String.eqb].
      destruct (ascii_dec d "(") as [E | _]; [contradiction | reflexivity].
    + apply countByte_zero_cons in Ha as [Hc Ha].
      rewrite !append_cons. cbn [String.prefix String.eqb].
      destruct (ascii_dec d c) as [-> | Hdc].
      * rewrite Ascii.eqb_refl. apply IH; assumption.
      * destruct (Ascii.eqb_spec c d) as [E | _]; [symmetry in E; contradiction | reflexivity].
Qed.

Lemma prefix_bare (a b : string) :
  countByte "(" a = 0 -> String.prefix (b +:+ "(") a = false.
Proof.
  revert a. induction b as [| d b IH]; intros a Ha.
  - change ("" +:+ "(") with "(". destruct a as [| c a]; [reflexivity |].
    apply countByte_zero_cons in Ha as [Hc _]. cbn [String.prefix].
    destruct (ascii_dec "(" c) as [E | _]; [symmetry in E; contradiction | reflexivity].
  - rewrite append_cons. destruct a as [| c a]; [reflexivity |].
    apply countByte_zero_cons in Ha as [Hc Ha]. cbn [String.prefix].
    destruct (ascii_dec d c); [apply IH, Ha | reflexivity].
Qed.

Lemma HasPrefix_termText (needle : string) (u : textUnit) :
  goodUnit "(" ")" "," u -> countByte "(" needle = 0 ->
  strings.HasPrefix (termText u) (needle +:+ "(")
  = match u_body u with
    | Some _ => String.eqb (u_pre u) needle
    | None => false
    end.
Proof.
  intros (Hpre & _ & _) Hn. unfold strings.HasPrefix, termText, unitText.
  destruct (u_body u) as [b |].
  - rewrite append_cons. change ("" +:+ ?x) with x. apply prefix_open; assumption.
  - rewrite append_nil_r. apply prefix_bare, Hpre.
Qed.

Lemma termText_eqb (needle : string) (u : textUnit) :
  countByte "(" needle = 0 ->
  String.eqb (termText u) needle
  = match u_body u with
    | Some _ => false
    | None => String.eqb (u_pre u) needle
    end.
Proof.
  intros Hn. unfold termText, unitText. destruct (u_body u) as [b |].
  - destruct (String.eqb_spec (u_pre u +:+ "(" +:+ b +:+ ")") needle) as [E | _]; [| reflexivity].
    rewrite <- E, countByte_append in Hn.
    change ("(" +:+ b +:+ ")") with (String "(" (b +:+ ")")) in Hn.
    cbn [countByte] in Hn. rewrite Ascii.eqb_refl in Hn. lia.
  - rewrite append_nil_r. reflexivity.
Qed.

Lemma hasTagArg_named (needle : string) (terms : list textUnit) :
  terms <> [] -> Forall (goodUnit "(" ")" ",") terms -> Forall pipeFree terms ->
  countByte "(" needle = 0 ->
  hasTagArg needle (joinWith "," (map termText terms))
  = existsb (fun u => String.eqb (u_pre u) needle) terms.
Proof.
  intros Hne Hgood Hfree Hn. unfold hasTagArg.
  rewrite splitTagValues_terms by assumption. clear Hne Hfree.
  induction Hgood as [| u us Hu _ IH]; [reflexivity |].
  cbn [map existsb]. rewrite IH, (HasPrefix_termText _ _ Hu Hn), (termText_eqb _ _ Hn).
  destruct (u_body u); [| rewrite orb_false_r]; reflexivity.
Qed.

Lemma tagArgs_named (needle : string) (terms : list textUnit) :
  terms <> [] -> Forall (goodUnit "(" ")" ",") terms -> Forall pipeFree terms ->
  countByte "(" needle = 0 ->
  tagArgs needle (joinWith "," (map termText terms)) = lookupToken needle terms.
Proof.
  intros Hne Hgood Hfree Hn. unfold tagArgs.
  rewrite splitTagValues_terms by assumption. clear Hne Hfree.
  induction Hgood as [| u us Hu _ IH]; [reflexivity |].
  cbn [map tagArgsIn lookupToken]. rewrite IH, (HasPrefix_termText _ _ Hu Hn).
  destruct u as [pre [b |]]; cbn [u_body u_pre]; [| reflexivity].
  destruct (String.eqb_spec pre needle) as [-> | _]; [| reflexivity].
  unfold termText, unitText. cbn [u_pre u_body].
  rewrite <- !append_assoc, TrimSuffix_append, TrimPrefix_append. reflexivity.
Qed.

(** X6.  On a tag value made of terms separated by one comma, each a name
    without parenthesis and comma, alone or with arguments in parentheses
    that hold no parenthesis, and none with the byte [|] of the sentinel,
    [hasTagArg] tells for a name [needle] without parenthesis whether a term
    has that name, with or without arguments, and [tagArgs] returns the
    arguments of the first term [needle(...)], the empty string if there is
    none: a name that is the end of another ([oneof], [noneof]) is not
    mistaken for it. *)
Theorem terms_by_name :
  forall (needle : string) (terms : list textUnit),
    terms <> [] ->
    Forall (goodUnit "(" ")" ",") terms ->
    Forall pipeFree terms ->
    countByte "(" needle = 0 ->
    hasTagArg needle (joinWith "," (map termText terms))
    = existsb (fun u => String.eqb (u_pre u) needle) terms
    /\ tagArgs needle (joinWith "," (map termText terms)) = lookupToken needle terms.
Proof.
  intros. split; [apply hasTagArg_named | apply tagArgs_named]; assumption.
Qed.

Lemma terms_by_name_witness :
  hasTagArg "oneof"
    (joinWith ","
       (map termText [TextUnit "noneof" (Some "a,b"); TextUnit "between" None;
                      TextUnit "oneof" (Some "1,2")]))
  = existsb (fun u => String.eqb (u_pre u) "oneof")
            [TextUnit "noneof" (Some "a,b"); TextUnit "between" None;
             TextUnit "oneof" (Some "1,2")]
  /\ tagArgs "oneof"
       (joinWith ","
          (map termText [TextUnit "noneof" (Some "a,b"); TextUnit "between" None;
                         TextUnit "oneof" (Some "1,2")]))
     = lookupToken "oneof"
         [TextUnit "noneof" (Some "a,b"); TextUnit "between" None;
          TextUnit "oneof" (Some "1,2")].
Proof.
  apply (terms_by_name "oneof"
           [TextUnit "noneof" (Some "a,b"); TextUnit "between" None;
            TextUnit "oneof" (Some "1,2")]).
  - discriminate.
  - units_ok.
  - units_ok.
  - reflexivity.
Defined.

(** ** Rules and attribute types *)


Lemma isIn_In (s : string) (l : list string) : isIn s l = true -> In s l.
Proof.
  unfold isIn. intros H. apply existsb_exists in H as (x & Hin & E).
  apply String.eqb_eq in E. subst. exact Hin.
Qed.

(** Evaluate the membership tests on a known type string. *)
Ltac eval_isIn :=
  repeat match goal with
         | |- context [isIn ?a ?L] =>
             let b := eval vm_compute in (isIn a L) in
             change (isIn a L) with b
         | |- context [String.eqb ?a SpecialTypeBlock] =>
             let b := eval vm_compute in (String.eqb a SpecialTypeBlock) in
             change (String.eqb a SpecialTypeBlock) with b
         end;
  cbn iota.

(** The cases of [leaf]: the type string is one of the listed ones. *)
Ltac leaf_cases H t :=
  unfold listOrSet in H;
  repeat match type of H with
         | context [if isIn t ?L then _ else _] =>
             let E := fresh "E" in
             destruct (isIn t L) eqn:E;
             [ apply isIn_In in E; cbn [In] in E;
               repeat (destruct E as [E | E]; [| try contradiction]); try contradiction
             |]
         end.

Lemma between_fits (model : rtype) (tags tagV : string) (l : Attribute)
      (x : AttributeValidator) :
  leaf model tags = Some l ->
  betweenValidator tagV (typeString model) tags = OK (Some x) ->
  fits (a_Type l) x = true.
Proof.
  intros H. unfold leaf in H. cbv zeta in H. unfold betweenValidator.
  destruct (negb _); [discriminate |].
  destruct (forEach _ _) as [nums |]; [| discriminate]. cbn [bind].
  generalize (strconv.toInt (nth 0 nums strconv.NaN)) (strconv.toInt (nth 1 nums strconv.NaN))
             (nth 0 nums strconv.NaN) (nth 1 nums strconv.NaN).
  intros i0 i1 f0 f1.
  remember (typeString model) as t eqn:Ht. clear Ht.
  leaf_cases H t; try discriminate H; subst t; eval_isIn;
    destruct (String.eqb (tagValue TagCollection tags) TagCollectionSet);
    injection H as <-; intros Hx; try discriminate Hx; injection Hx as <-; reflexivity.
Qed.

Lemma oneOf_fits (model : rtype) (tags tagV : string) (l : Attribute)
      (x : AttributeValidator) :
  leaf model tags = Some l ->
  oneOfValidator tagV (typeString model) tags = OK (Some x) ->
  fits (a_Type l) x = true.
Proof.
  intros H. unfold leaf in H. cbv zeta in H. unfold oneOfValidator.
  generalize (strings.Split (tagArgs TagValidatorOneOf tagV) ","). intros args.
  remember (typeString model) as t eqn:Ht. clear Ht.
  leaf_cases H t; try discriminate H; subst t; eval_isIn;
    try destruct (String.eqb (tagValue TagCollection tags) TagCollectionSet);
    injection H as <-;
    try destruct (forEach _ _); cbn [bind];
    intros Hx; try discriminate Hx; injection Hx as <-; reflexivity.
Qed.

Lemma noneOf_fits (model : rtype) (tags tagV : string) (l : Attribute)
      (x : AttributeValidator) :
  leaf model tags = Some l ->
  noneOfValidator tagV (typeString model) tags = OK (Some x) ->
  fits (a_Type l) x = true.
Proof.
  intros H. unfold leaf in H. cbv zeta in H. unfold noneOfValidator.
  generalize (strings.Split (tagArgs TagValidatorNoneOf tagV) ","). intros args.
  remember (typeString model) as t eqn:Ht. clear Ht.
  leaf_cases H t; try discriminate H; subst t; eval_isIn;
    try destruct (String.eqb (tagValue TagCollection tags) TagCollectionSet);
    injection H as <-;
    try destruct (forEach _ _); cbn [bind];
    intros Hx; try discriminate Hx; injection Hx as <-; reflexivity.
Qed.

Lemma leaf_not_block (model : rtype) (tags : string) (l : Attribute) :
  leaf model tags = Some l -> String.eqb (typeString model) SpecialTypeBlock = false.
Proof.
  intros H. destruct (String.eqb_spec (typeString model) SpecialTypeBlock) as [E |]; [| reflexivity].
  unfold leaf in H. rewrite E in H. discriminate H.
Qed.

Lemma forallb_appendIf (p : AttributeValidator -> bool) (vals : list AttributeValidator)
      (v : option AttributeValidator) :
  forallb p vals = true -> (forall x, v = Some x -> p x = true) ->
  forallb p (appendIf vals v) = true.
Proof.
  intros Hv Hx. destruct v as [x |]; [| exact Hv]. cbn [appendIf].
  rewrite forallb_app, Hv. cbn. rewrite (Hx x eq_refl). reflexivity.
Qed.

Lemma leaf_validators (model : rtype) (tags tagV : string) (l : Attribute)
      (vals : list AttributeValidator) :
  leaf model tags = Some l ->
  validators tagV (typeString model) false tags = OK vals ->
  forallb (fits (a_Type l)) vals = true.
Proof.
  intros Hleaf. unfold validators. rewrite (leaf_not_block _ _ _ Hleaf), andb_false_r.
  intros H.
  apply bind_OK_inv in H as (v1 & H1 & H).
  apply bind_OK_inv in H as (v2 & H2 & H).
  apply bind_OK_inv in H as (v3 & H3 & [= <-]).
  assert (F1 : forallb (fits (a_Type l)) v1 = true).
  { destruct (hasTagArg TagValidatorBetween tagV); [| injection H1 as <-; reflexivity].
    apply bind_OK_inv in H1 as (v & Hv & [= <-]).
    apply forallb_appendIf; [reflexivity |]. intros x ->.
    eapply between_fits; eassumption. }
  assert (F2 : forallb (fits (a_Type l)) v2 = true).
  { destruct (hasTagArg TagValidatorOneOf tagV); [| injection H2 as <-; exact F1].
    apply bind_OK_inv in H2 as (v & Hv & [= <-]).
    apply forallb_appendIf; [exact F1 |]. intros x ->.
    eapply oneOf_fits; eassumption. }
  destruct (hasTagArg TagValidatorNoneOf tagV); [| injection H3 as <-; exact F2].
  apply bind_OK_inv in H3 as (v & Hv & [= <-]).
  apply forallb_appendIf; [exact F2 |]. intros x ->.
  eapply noneOf_fits; eassumption.
Qed.

Lemma leaf_attribute_fits (model : rtype) (tags : string) (fromSlice : bool) (level : nat)
      (l : Attribute) (n : nest) :
  leaf model tags = Some l ->
  rAttribute model tags fromSlice level = OK n ->
  exists a, n = mkNest None None (Some a)
            /\ a_Type a = a_Type l
            /\ forallb (fits (a_Type a)) (a_Validators a) = true.
Proof.
  intros Hleaf Hr.
  destruct (rAttribute_leaf_inv _ _ _ _ _ _ Hleaf Hr) as (a & -> & Ha).
  exists a. split; [reflexivity |].
  apply addAttrOptions_inv in Ha as (pm & vals & _ & Hvals & _ & Hv & Ht & _).
  cbn [a_Type typeOnly] in Ht. split; [exact Ht |]. rewrite Ht, Hv.
  destruct (negb (String.eqb (tagValue TagValidators tags) "")).
  - eapply leaf_validators; eassumption.
  - cbn in Hvals. injection Hvals as <-. reflexivity.
Qed.

(** X7.  Every validator of an attribute that [leaf] resolves is one for the
    type of the attribute ([fits]): a size validator of the list kind on a
    list and of the set kind on a set, [leaf] and [betweenValidator] reading
    the same [collection] tag; a length or string validator on a string; a
    number validator on the matching number type. *)
Theorem validators_fit_type :
  forall (model : rtype) (tags : string) (fromSlice : bool) (level : nat)
         (l : Attribute) (n : nest),
    leaf model tags = Some l ->
    rAttribute model tags fromSlice level = OK n ->
    exists a, n = mkNest None None (Some a)
              /\ a_Type a = a_Type l
              /\ forallb (fits (a_Type a)) (a_Validators a) = true.
Proof. exact leaf_attribute_fits. Qed.

Lemma validators_fit_type_witness :
  exists a,
    mkNest None None
      (Some (mkAttribute (types.SetType types.StringType) false true false false "" "" ""
               [SetSizeBetween 1 3] []))
    = mkNest None None (Some a)
    /\ a_Type a = types.SetType types.StringType
    /\ forallb (fits (a_Type a)) (a_Validators a) = true.
Proof.
  apply (validators_fit_type (TSlice (TBasic "string" "string"))
           (raw "tfsdk:'names' collection:'set' valid:'between(1,3)'") false 1
           (typeOnly (types.SetType types.StringType))).
  - vm_compute. reflexivity.
  - vm_compute. reflexivity.
Defined.

(** X8.  An attribute of type Bool or Map never gets a validator, whatever
    its [valid] tag asks for. *)
Theorem bool_and_map_unvalidated :
  forall (model : rtype) (tags : string) (fromSlice : bool) (level : nat)
         (l : Attribute) (n : nest),
    leaf model tags = Some l ->
    (a_Type l = types.BoolType \/ exists e, a_Type l = types.MapType e) ->
    rAttribute model tags fromSlice level = OK n ->
    exists a, n = mkNest None None (Some a) /\ a_Validators a = [].
Proof.
  intros model tags fromSlice level l n Hleaf Ht Hr.
  destruct (leaf_attribute_fits _ _ _ _ _ _ Hleaf Hr) as (a & -> & Hta & Hf).
  exists a. split; [reflexivity |].
  destruct (a_Validators a) as [| v vs]; [reflexivity |].
  cbn [forallb] in Hf. apply andb_true_iff in Hf as [Hv _].
  rewrite Hta in Hv. destruct Ht as [E | [e E]]; rewrite E in Hv; destruct v; discriminate Hv.
Qed.

Lemma bool_and_map_unvalidated_witness :
  exists a,
    mkNest None None
      (Some (mkAttribute types.BoolType false true false false "" "" "" [] []))
    = mkNest None None (Some a)
    /\ a_Validators a = [].
Proof.
  apply (bool_and_map_unvalidated (TBasic "bool" "bool")
           (raw "tfsdk:'on' valid:'oneof(true,false),between(1,2)'") false 1
           (typeOnly types.BoolType)).
  - vm_compute. reflexivity.
  - left. reflexivity.
  - vm_compute. reflexivity.
Defined.

Lemma defaultMod_non_scalar (dv attrType : string) :
  isIn attrType scalarTypes = false -> defaultMod dv attrType = OK [].
Proof.
  unfold isIn, scalarTypes. cbn [existsb]. intros H.
  repeat (apply orb_false_iff in H as [? H]).
  unfold defaultMod, isIn. cbn [existsb].
  repeat match goal with
         | E : String.eqb attrType _ = false |- _ => rewrite E; clear E
         end.
  reflexivity.
Qed.

Lemma pMods_non_scalar (v attrType : string) :
  isIn attrType scalarTypes = false ->
  pMods v attrType
  = OK ((if hasTagArg TagPlanModifierReplace v then [RequiresReplace] else [])
          ++ (if hasTagArg TagPlanModifierUSFU v then [UseStateForUnknown] else [])).
Proof.
  intros H. unfold pMods. rewrite (defaultMod_non_scalar _ _ H). cbn [bind].
  destruct (hasTagArg TagPlanModifierReplace v), (hasTagArg TagPlanModifierUSFU v),
           (hasTagArg TagPlanModifierDefault v); reflexivity.
Qed.

Lemma no_default_in (v : string) (d : types.Value) :
  ~ In (DefaultValue d)
       ((if hasTagArg TagPlanModifierReplace v then [RequiresReplace] else [])
          ++ (if hasTagArg TagPlanModifierUSFU v then [UseStateForUnknown] else [])).
Proof.
  destruct (hasTagArg TagPlanModifierReplace v), (hasTagArg TagPlanModifierUSFU v);
    cbn; intuition discriminate.
Qed.

(** X9.  A [default] term has an effect on scalar attributes only: for any
    other attribute type [pMods] does not panic and returns the modifiers of
    [replace] and [usfu] alone, so that no list, set or map attribute and no
    block holds a [DefaultValue]. *)
Theorem default_only_on_scalars :
  (forall v attrType : string,
      isIn attrType scalarTypes = false ->
      pMods v attrType
      = OK ((if hasTagArg TagPlanModifierReplace v then [RequiresReplace] else [])
              ++ (if hasTagArg TagPlanModifierUSFU v then [UseStateForUnknown] else [])))
  /\ (forall (model : rtype) (tags : string) (fromSlice : bool) (level : nat)
             (l : Attribute) (n : nest),
         leaf model tags = Some l ->
         isIn (typeString model) scalarTypes = false ->
         rAttribute model tags fromSlice level = OK n ->
         exists a, attribute n = Some a
                   /\ forall d, ~ In (DefaultValue d) (a_PlanModifiers a))
  /\ (forall (blocks : gmap string Block) (attrs : gmap string Attribute)
             (slice : bool) (tags : string) (n : nest),
         blockNest blocks attrs slice tags = OK n ->
         exists b, block n = Some b
                   /\ forall d, ~ In (DefaultValue d) (b_PlanModifiers b)).
Proof.
  split; [exact pMods_non_scalar | split].
  - intros model tags fromSlice level l n Hleaf Hns Hr.
    destruct (leaf_pMods _ _ _ _ _ _ Hleaf Hr) as (a & Ha & Hpm).
    exists a. split; [exact Ha |]. intros d.
    rewrite (pMods_non_scalar _ _ Hns) in Hpm. injection Hpm as <-. apply no_default_in.
  - intros blocks attrs slice tags n Hn.
    destruct (blockNest_pMods _ _ _ _ _ Hn) as (b & Hb & Hpm).
    exists b. split; [exact Hb |]. intros d.
    rewrite (pMods_non_scalar _ SpecialTypeBlock eq_refl) in Hpm.
    injection Hpm as <-. apply no_default_in.
Qed.

Lemma default_only_on_scalars_witness :
  exists a,
    attribute
      (mkNest None None
         (Some (mkAttribute (types.ListType types.Int64Type) false true false false "" "" ""
                  [] [UseStateForUnknown])))
    = Some a
    /\ forall d, ~ In (DefaultValue d) (a_PlanModifiers a).
Proof.
  apply (proj1 (proj2 default_only_on_scalars) (TSlice (TBasic "int" "int"))
           (raw "pmods:'default(3),usfu'") false 1
           (typeOnly (types.ListType types.Int64Type))).
  - vm_compute. reflexivity.
  - vm_compute. reflexivity.
  - vm_compute. reflexivity.
Defined.

Lemma existsb_named_app (needle : string) (before after : list textUnit) (u : textUnit) :
  existsb (fun u => String.eqb (u_pre u) needle) (before ++ u :: after)
  = existsb (fun u => String.eqb (u_pre u) needle) (before ++ after)
    || String.eqb (u_pre u) needle.
Proof.
  rewrite !existsb_app. cbn [existsb].
  destruct (existsb _ before), (String.eqb (u_pre u) needle), (existsb _ after); reflexivity.
Qed.

Lemma existsb_not_named (needle : string) (names : list string) (us : list textUnit) :
  In needle names ->
  Forall (fun u => ~ In (u_pre u) names) us ->
  existsb (fun u => String.eqb (u_pre u) needle) us = false.
Proof.
  intros Hin Hus. induction Hus as [| u us Hu _ IH]; [reflexivity |].
  cbn [existsb]. rewrite IH, orb_false_r.
  destruct (String.eqb_spec (u_pre u) needle) as [E | _]; [| reflexivity].
  exfalso. apply Hu. rewrite E. exact Hin.
Qed.

Lemma lookupToken_named_app (needle v : string) (names : list string)
      (before after : list textUnit) :
  In needle names ->
  Forall (fun u => ~ In (u_pre u) names) (before ++ after) ->
  lookupToken needle (before ++ TextUnit needle (Some v) :: after) = v.
Proof.
  intros Hin Hus. apply Forall_app in Hus as [Hb _].
  induction Hb as [| u us Hu _ IH]; cbn [app lookupToken u_pre u_body].
  - rewrite String.eqb_refl. reflexivity.
  - destruct (u_body u); [| exact IH].
    destruct (String.eqb_spec (u_pre u) needle) as [E | _]; [| exact IH].
    exfalso. apply Hu. rewrite E. exact Hin.
Qed.

(** X10.  For a string attribute whose [valid] tag value is made of terms
    (names without parenthesis and comma, arguments without parenthesis,
    nothing with the byte [|] of the sentinel), with one term
    [oneof(v1,...,vn)] of values without comma and no [between] or [noneof]
    term, [validators] returns the one validator [StringOneOf [v1; ...; vn]]:
    the values as written, blanks and empty values included, in their
    order. *)
Theorem string_oneof_values :
  forall (attrType tags : string) (fromSlice : bool) (before after : list textUnit)
         (values : list string),
    isIn attrType ["types.String"; "string"] = true ->
    Forall (goodUnit "(" ")" ",")
           (before ++ TextUnit TagValidatorOneOf (Some (joinWith "," values)) :: after) ->
    Forall pipeFree
           (before ++ TextUnit TagValidatorOneOf (Some (joinWith "," values)) :: after) ->
    Forall (fun u => ~ In (u_pre u) [TagValidatorBetween; TagValidatorOneOf; TagValidatorNoneOf])
           (before ++ after) ->
    values <> [] ->
    Forall (fun x => countByte "," x = 0) values ->
    validators
      (joinWith ","
         (map termText
              (before ++ TextUnit TagValidatorOneOf (Some (joinWith "," values)) :: after)))
      attrType fromSlice tags
    = OK [StringOneOf values].
Proof.
  intros attrType tags fromSlice before after values Ht Hgood Hfree Hnames Hne Hvals.
  set (terms := before ++ TextUnit TagValidatorOneOf (Some (joinWith "," values)) :: after) in *.
  assert (Hterms : terms <> []) by (subst terms; destruct before; discriminate).
  set (names := [TagValidatorBetween; TagValidatorOneOf; TagValidatorNoneOf]) in *.
  assert (I1 : In TagValidatorBetween names) by (left; reflexivity).
  assert (I2 : In TagValidatorOneOf names) by (right; left; reflexivity).
  assert (I3 : In TagValidatorNoneOf names) by (right; right; left; reflexivity).
  assert (Hb : hasTagArg TagValidatorBetween (joinWith "," (map termText terms)) = false).
  { rewrite hasTagArg_named by (assumption || reflexivity). subst terms.
    rewrite existsb_named_app.
    rewrite (existsb_not_named _ _ _ I1 Hnames). reflexivity. }
  assert (Hn : hasTagArg TagValidatorNoneOf (joinWith "," (map termText terms)) = false).
  { rewrite hasTagArg_named by (assumption || reflexivity). subst terms.
    rewrite existsb_named_app.
    rewrite (existsb_not_named _ _ _ I3 Hnames). reflexivity. }
  assert (Ho : hasTagArg TagValidatorOneOf (joinWith "," (map termText terms)) = true).
  { rewrite hasTagArg_named by (assumption || reflexivity). subst terms.
    rewrite existsb_named_app. cbn [u_pre]. rewrite String.eqb_refl. apply orb_true_r. }
  assert (Ha : strings.Split (tagArgs TagValidatorOneOf (joinWith "," (map termText terms))) ","
               = values).
  { rewrite tagArgs_named by (assumption || reflexivity). subst terms.
    rewrite (lookupToken_named_app _ _ _ _ _ I2 Hnames).
    apply Split_joinWith; assumption. }
  unfold validators. rewrite Hb, Hn, Ho. cbn [bind negb].
  unfold oneOfValidator. rewrite Ha.
  unfold isIn in Ht. cbn [existsb] in Ht.
  repeat (apply orb_true_iff in Ht as [Ht | Ht]); try discriminate Ht;
    apply String.eqb_eq in Ht; subst attrType; reflexivity.
Qed.

Lemma string_oneof_values_witness :
  validators
    (joinWith ","
       (map termText
            ([TextUnit "required" None]
               ++ TextUnit TagValidatorOneOf (Some (joinWith "," ["red"; " green"; ""]))
               :: [TextUnit "other" (Some "1,2")])))
    "types.String" false ""
  = OK [StringOneOf ["red"; " green"; ""]].
Proof.
  apply (string_oneof_values "types.String" "" false [TextUnit "required" None]
           [TextUnit "other" (Some "1,2")] ["red"; " green"; ""]).
  - reflexivity.
  - units_ok.
  - units_ok.
  - repeat (apply List.Forall_cons;
            [cbn; intros [H | [H | [H | []]]]; discriminate H |]).
    apply List.Forall_nil.
  - discriminate.
  - repeat (apply List.Forall_cons; [reflexivity |]). apply List.Forall_nil.
Defined.

(** X11.  For a string attribute whose [pmods] tag value is made of terms
    (names without parenthesis and comma, arguments without parenthesis,
    nothing with the byte [|] of the sentinel), the first term [default(v)]
    gives the modifier [DefaultValue (types.String v)], with [v] as written,
    commas and blanks included; it is the last modifier, and the only
    default. *)
Theorem string_default_verbatim :
  forall (attrType v : string) (before after : list textUnit),
    isIn attrType ["types.String"; "string"] = true ->
    Forall (goodUnit "(" ")" ",") (before ++ TextUnit TagPlanModifierDefault (Some v) :: after) ->
    Forall pipeFree (before ++ TextUnit TagPlanModifierDefault (Some v) :: after) ->
    Forall (fun u => u_pre u <> TagPlanModifierDefault) before ->
    exists pm,
      pMods (joinWith ","
               (map termText (before ++ TextUnit TagPlanModifierDefault (Some v) :: after)))
            attrType
      = OK (pm ++ [DefaultValue (types.String v)])
      /\ forall d, ~ In (DefaultValue d) pm.
Proof.
  intros attrType v before after Ht Hgood Hfree Hb.
  set (terms := before ++ TextUnit TagPlanModifierDefault (Some v) :: after) in *.
  assert (Hterms : terms <> []) by (subst terms; destruct before; discriminate).
  assert (Hd : hasTagArg TagPlanModifierDefault (joinWith "," (map termText terms)) = true).
  { rewrite hasTagArg_named by (assumption || reflexivity). subst terms.
    rewrite existsb_named_app. cbn [u_pre]. rewrite String.eqb_refl. apply orb_true_r. }
  assert (Ha : tagArgs TagPlanModifierDefault (joinWith "," (map termText terms)) = v).
  { rewrite tagArgs_named by (assumption || reflexivity). subst terms.
    clear -Hb. induction Hb as [| u us Hu _ IH]; cbn [app lookupToken u_pre u_body].
    - rewrite String.eqb_refl. reflexivity.
    - destruct (u_body u); [| exact IH].
      destruct (String.eqb_spec (u_pre u) TagPlanModifierDefault); [contradiction | exact IH]. }
  unfold pMods. rewrite Hd, Ha.
  assert (Hdm : defaultMod v attrType = OK [DefaultValue (types.String v)]).
  { unfold isIn in Ht. cbn [existsb] in Ht.
    repeat (apply orb_true_iff in Ht as [Ht | Ht]); try discriminate Ht;
      apply String.eqb_eq in Ht; subst attrType; reflexivity. }
  rewrite Hdm. cbn [bind]. eexists. split; [reflexivity |].
  intros d.
  destruct (hasTagArg TagPlanModifierReplace _), (hasTagArg TagPlanModifierUSFU _);
    cbn; intuition discriminate.
Qed.

Lemma string_default_verbatim_witness :
  exists pm,
    pMods (joinWith ","
             (map termText ([TextUnit "replace" None]
                              ++ TextUnit TagPlanModifierDefault (Some "a, b")
                              :: [TextUnit "usfu" None])))
          "string"
    = OK (pm ++ [DefaultValue (types.String "a, b")])
    /\ forall d, ~ In (DefaultValue d) pm.
Proof.
  apply (string_default_verbatim "string" "a, b" [TextUnit "replace" None]
           [TextUnit "usfu" None]).
  - reflexivity.
  - units_ok.
  - units_ok.
  - repeat (apply List.Forall_cons; [discriminate |]). apply List.Forall_nil.
Defined.

Lemma validators_block_between (tagV tags : string) (fromSlice : bool) (a b : string)
      (x y : strconv.float64) :
  hasTagArg TagValidatorBetween tagV = true ->
  strings.Split (tagArgs TagValidatorBetween tagV) "," = [a; b] ->
  strconv.ParseFloat a = strconv.Parsed x ->
  strconv.ParseFloat b = strconv.Parsed y ->
  validators tagV SpecialTypeBlock fromSlice tags
  = OK [if String.eqb (tagValue TagCollection tags) TagCollectionSet
        then SetSizeBetween (strconv.toInt x) (strconv.toInt y)
        else ListSizeBetween (strconv.toInt x) (strconv.toInt y)].
Proof.
  intros Hb Hs Ha Hy. unfold validators. rewrite Hb. cbn [negb andb].
  unfold betweenValidator. rewrite Hs. cbn [length Nat.eqb negb forEach].
  unfold parseFloatOr. rewrite Ha, Hy. cbn [bind nth].
  change (isIn SpecialTypeBlock collectionTypes) with true. cbn iota.
  change (oneOfValidator tagV SpecialTypeBlock tags)
    with (@OK (option AttributeValidator) None).
  change (noneOfValidator tagV SpecialTypeBlock tags)
    with (@OK (option AttributeValidator) None).
  destruct (String.eqb (tagValue TagCollection tags) TagCollectionSet),
           (hasTagArg TagValidatorOneOf tagV), (hasTagArg TagValidatorNoneOf tagV);
    reflexivity.
Qed.

(** X12.  A [between(a,b)] term with two numbers on a block replaces the
    implicit size validators: the block has the one validator
    SizeBetween(x, y), of the set kind for [collection:"set"] and of the list
    kind otherwise, whether it comes from a slice or not and whether it is
    required or not.  The bounds [x] and [y] are the integers [int] makes of
    what [ParseFloat] reads: the binary64 value nearest to the literal, its
    fraction discarded, so that [0.99999999999999999999] gives the bound 1
    and [0.9999999999] the bound 0. *)
Theorem block_explicit_between :
  (forall (blocks : gmap string Block) (attrs : gmap string Attribute)
          (slice : bool) (tags a b : string) (x y : strconv.float64),
      hasTagArg TagValidatorBetween (tagValue TagValidators tags) = true ->
      strings.Split (tagArgs TagValidatorBetween (tagValue TagValidators tags)) ","
      = [a; b] ->
      strconv.ParseFloat a = strconv.Parsed x ->
      strconv.ParseFloat b = strconv.Parsed y ->
      exists blk,
        blockNest blocks attrs slice tags = OK (mkNest None (Some blk) None)
        /\ b_Validators blk
           = [if String.eqb (tagValue TagCollection tags) TagCollectionSet
              then SetSizeBetween (strconv.toInt x) (strconv.toInt y)
              else ListSizeBetween (strconv.toInt x) (strconv.toInt y)])
  /\ strconv.ParseFloat "0.99999999999999999999" = strconv.Parsed (strconv.Fin 1)
  /\ blockNest ∅ ∅ true (raw "valid:'between(0.99999999999999999999,5)'")
     = OK (mkNest None
             (Some (mkBlock ∅ ∅ BlockNestingModeList "" "" "" [ListSizeBetween 1 5] []))
             None)
  /\ blockNest ∅ ∅ true (raw "valid:'between(0.9999999999,5)'")
     = OK (mkNest None
             (Some (mkBlock ∅ ∅ BlockNestingModeList "" "" "" [ListSizeBetween 0 5] []))
             None).
Proof.
  split; [| repeat split; vm_compute; reflexivity].
  intros blocks attrs slice tags a b x y Hb Hs Ha Hy.
  unfold blockNest, addBlockOptions.
  rewrite (validators_block_between _ tags slice _ _ _ _ Hb Hs Ha Hy).
  destruct (pMods_block_total (tagValue TagPlanModifiers tags)) as (pm & Hpm).
  rewrite Hpm.
  destruct (negb (String.eqb (tagValue TagPlanModifiers tags) ""));
    cbn [bind]; eexists; split; reflexivity.
Qed.

Lemma block_explicit_between_witness :
  exists blk,
    blockNest ∅ ∅ true (raw "required:'true' valid:'between(2,5)'")
    = OK (mkNest None (Some blk) None)
    /\ b_Validators blk = [ListSizeBetween 2 5].
Proof.
  apply (proj1 block_explicit_between ∅ ∅ true
           (raw "required:'true' valid:'between(2,5)'")
           "2" "5" (strconv.Fin 2) (strconv.Fin 5)).
  - vm_compute. reflexivity.
  - vm_compute. reflexivity.
  - vm_compute. reflexivity.
  - vm_compute. reflexivity.
Defined.

(** ** The walk over the fields *)

(** Induction on a reflected type, with the property for the types of the
    fields of a struct. *)
Lemma rtype_fields_ind (P : rtype -> Prop) :
  (forall str kind, P (TBasic str kind)) ->
  (forall str fields, Forall (fun f => P (FieldType f)) fields -> P (TStruct str fields)) ->
  (forall elem, P elem -> P (TSlice elem)) ->
  (forall key elem, P key -> P elem -> P (TMap key elem)) ->
  forall t, P t.
Proof.
  intros Hb Hs Hsl Hm. fix IH 1. intros [str kind | str fields | elem | key elem].
  - apply Hb.
  - apply Hs. revert fields. fix IHf 1. intros [| f fields].
    + constructor.
    + constructor; [apply IH | apply IHf].
  - apply Hsl, IH.
  - apply Hm; apply IH.
Qed.

Lemma walkFields_ext (visit1 visit2 : rtype -> string -> result nest)
      (fields : list (StructField rtype)) (maps : gmap string Attribute * gmap string Block) :
  Forall (fun f => forall tg, visit1 (FieldType f) tg = visit2 (FieldType f) tg) fields ->
  walkFields visit1 fields maps = walkFields visit2 fields maps.
Proof.
  intros H. revert maps. induction H as [| f fields Hf _ IH]; intros maps; [reflexivity |].
  cbn [walkFields]. destruct (negb (IsExported f)); [apply IH |].
  rewrite Hf. destruct (visit2 (FieldType f) (Tag f)); cbn [bind]; [apply IH | reflexivity].
Qed.

Lemma rAttribute_depth (model : rtype) :
  forall (tags : string) (fromSlice : bool) (level level' : nat),
    rAttribute model tags fromSlice (S level) = rAttribute model tags fromSlice (S level').
Proof.
  induction model as [str kind | str fields IH | elem IH | key elem _ _] using rtype_fields_ind;
    intros tags fromSlice level level'.
  - reflexivity.
  - cbn [rAttribute]. destruct (leaf (TStruct str fields) tags); [reflexivity |].
    rewrite (walkFields_ext (fun t tg => rAttribute t tg false (S level + 1))
                            (fun t tg => rAttribute t tg false (S level' + 1))).
    + reflexivity.
    + eapply List.Forall_impl; [| exact IH]. cbn beta. intros f Hf tg.
      rewrite !Nat.add_1_r. apply Hf.
  - cbn [rAttribute]. destruct (leaf (TSlice elem) tags); [reflexivity |].
    destruct (kindOf elem); try reflexivity. rewrite !Nat.add_1_r. apply IH.
  - reflexivity.
Qed.

Lemma size_guard {V : Type} (m : gmap string V) : (if (0 <? size m)%nat then m else ∅) = m.
Proof.
  destruct (0 <? size m)%nat eqn:Hs; [reflexivity |].
  apply Nat.ltb_ge in Hs. symmetry. apply map_size_empty_iff. lia.
Qed.

Lemma schemaNest_maps (blocks : gmap string Block) (attrs : gmap string Attribute) :
  schemaNest blocks attrs = mkNest (Some (mkSchema attrs blocks 0 "" "" "")) None None.
Proof.
  unfold schemaNest. cbn [s_Attributes s_Blocks s_Version s_DeprecationMessage s_Description
                          s_MarkdownDescription].
  pose proof (size_guard blocks) as Hb. pose proof (size_guard attrs) as Ha.
  destruct (0 <? size blocks)%nat, (0 <? size attrs)%nat; cbn in *; congruence.
Qed.

Lemma orTag_empty (key tags : string) : orTag key tags "" = tagValue key tags.
Proof.
  unfold orTag. destruct (String.eqb_spec (tagValue key tags) "") as [-> | _]; reflexivity.
Qed.

Lemma blockNest_inv (blocks : gmap string Block) (attrs : gmap string Attribute)
      (slice : bool) (tags : string) (n : nest) :
  blockNest blocks attrs slice tags = OK n ->
  exists b,
    n = mkNest None (Some b) None
    /\ b_Attributes b = attrs
    /\ b_Blocks b = blocks
    /\ b_Description b = tagValue TagDescription tags
    /\ b_MarkdownDescription b = tagValue TagMarkdownDescription tags
    /\ b_DeprecationMessage b = tagValue TagDeprecationMessage tags.
Proof.
  unfold blockNest, addBlockOptions. intros H.
  apply bind_OK_inv in H as (b & Hb & [= <-]).
  apply bind_OK_inv in Hb as (pm & _ & Hb).
  apply bind_OK_inv in Hb as (vals & _ & [= <-]).
  eexists. split; [reflexivity |].
  cbn [b_Attributes b_Blocks b_Description b_MarkdownDescription b_DeprecationMessage].
  pose proof (size_guard blocks) as Hbl. pose proof (size_guard attrs) as Hat.
  repeat split.
  - destruct (0 <? size blocks)%nat, (0 <? size attrs)%nat; cbn in *; congruence.
  - destruct (0 <? size blocks)%nat, (0 <? size attrs)%nat; cbn in *; congruence.
  - destruct (0 <? size blocks)%nat, (0 <? size attrs)%nat; apply orTag_empty.
  - destruct (0 <? size blocks)%nat, (0 <? size attrs)%nat; apply orTag_empty.
  - destruct (0 <? size blocks)%nat, (0 <? size attrs)%nat; apply orTag_empty.
Qed.

Lemma addAttrOptions_texts (t : types.Type_) (a : Attribute) (tags attrType : string) :
  addAttrOptions (typeOnly t) tags attrType = OK a ->
  a_Description a = tagValue TagDescription tags
  /\ a_MarkdownDescription a = tagValue TagMarkdownDescription tags
  /\ a_DeprecationMessage a = tagValue TagDeprecationMessage tags.
Proof.
  unfold addAttrOptions. intros H.
  apply bind_OK_inv in H as (pm & _ & H).
  apply bind_OK_inv in H as (vals & _ & [= <-]).
  cbn [a_Description a_MarkdownDescription a_DeprecationMessage typeOnly].
  repeat split; apply orTag_empty.
Qed.

(** What a field below the root compiles to: an attribute, from [leaf] on the
    field or on the element of a slice, or a block. *)
Lemma rAttribute_below_root (model : rtype) (tags : string) (fromSlice : bool) (level : nat)
      (n : nest) :
  rAttribute model tags fromSlice (S level) = OK n ->
  (exists t attrType a,
      n = mkNest None None (Some a) /\ addAttrOptions (typeOnly t) tags attrType = OK a)
  \/ (exists blocks attrs slice b,
         n = mkNest None (Some b) None /\ blockNest blocks attrs slice tags = OK n).
Proof.
  assert (Hleaf : forall m fs lv l,
             leaf m tags = Some l -> rAttribute m tags fs lv = OK n ->
             exists t attrType a,
               n = mkNest None None (Some a)
               /\ addAttrOptions (typeOnly t) tags attrType = OK a).
  { intros m fs lv l Hl Hr.
    destruct (rAttribute_leaf_inv _ _ _ _ _ _ Hl Hr) as (a & -> & Ha). eauto 6. }
  assert (Hstruct : forall str fields fs lv,
             leaf (TStruct str fields) tags = None ->
             rAttribute (TStruct str fields) tags fs (S lv) = OK n ->
             exists blocks attrs slice b,
               n = mkNest None (Some b) None /\ blockNest blocks attrs slice tags = OK n).
  { intros str fields fs lv Hl Hr. rewrite (rAttribute_struct _ _ _ _ _ Hl) in Hr.
    apply bind_OK_inv in Hr as (maps & _ & Hr). cbn [Nat.eqb] in Hr.
    destruct (blockNest_inv _ _ _ _ _ Hr) as (b & -> & _). eauto 8. }
  intros Hr. destruct (leaf model tags) as [l |] eqn:Hl; [left; eauto |].
  destruct model as [str kind | str fields | elem | key elem].
  - cbn [rAttribute] in Hr. rewrite Hl in Hr. discriminate.
  - right. eauto.
  - cbn [rAttribute] in Hr. rewrite Hl in Hr.
    destruct elem as [? ? | str fields | ? | ? ?]; try discriminate Hr.
    cbn [kindOf] in Hr. rewrite Nat.add_1_r in Hr.
    destruct (leaf (TStruct str fields) tags) as [l |] eqn:Hl'; [left | right]; eauto.
  - cbn [rAttribute] in Hr. rewrite Hl in Hr. discriminate.
Qed.

Lemma place_other (s k : string) (n : nest) (maps : gmap string Attribute * gmap string Block) :
  s <> k ->
  fst (place s n maps) !! k = fst maps !! k /\ snd (place s n maps) !! k = snd maps !! k.
Proof.
  intros Hne. unfold place. cbn [fst snd].
  destruct (attribute n), (block n); rewrite ?lookup_insert_ne by exact Hne; auto.
Qed.

Lemma place_same (s : string) (n : nest) (maps : gmap string Attribute * gmap string Block) :
  (forall a, attribute n = Some a -> fst (place s n maps) !! s = Some a)
  /\ (forall b, block n = Some b -> snd (place s n maps) !! s = Some b).
Proof.
  unfold place. cbn [fst snd]. split.
  - intros a ->. apply lookup_insert_eq.
  - intros b ->. apply lookup_insert_eq.
Qed.

Lemma walkFields_keep (visit : rtype -> string -> result nest)
      (fields : list (StructField rtype)) (k : string)
      (maps maps' : gmap string Attribute * gmap string Block) :
  walkFields visit fields maps = OK maps' ->
  (forall g, In g fields -> IsExported g = true -> snakeCase (Name g) (Tag g) <> k) ->
  fst maps' !! k = fst maps !! k /\ snd maps' !! k = snd maps !! k.
Proof.
  revert maps. induction fields as [| f fields IH]; intros maps Hw Hk.
  - injection Hw as <-. auto.
  - cbn [walkFields] in Hw. destruct (IsExported f) eqn:Hexp; cbn [negb] in Hw.
    + apply bind_OK_inv in Hw as (n & _ & Hw).
      destruct (IH _ Hw) as [Ha Hb]; [intros g Hg; apply Hk; right; exact Hg |].
      destruct (place_other (snakeCase (Name f) (Tag f)) k n maps) as [Ha' Hb'].
      { apply Hk; [left; reflexivity | exact Hexp]. }
      split; congruence.
    + apply (IH _ Hw). intros g Hg. apply Hk. right. exact Hg.
Qed.

Lemma walkFields_field (visit : rtype -> string -> result nest)
      (before after : list (StructField rtype)) (f : StructField rtype)
      (maps maps' : gmap string Attribute * gmap string Block) :
  walkFields visit (before ++ f :: after) maps = OK maps' ->
  IsExported f = true ->
  (forall g, In g after -> IsExported g = true ->
             snakeCase (Name g) (Tag g) <> snakeCase (Name f) (Tag f)) ->
  exists n,
    visit (FieldType f) (Tag f) = OK n
    /\ (forall a, attribute n = Some a
                  -> fst maps' !! snakeCase (Name f) (Tag f) = Some a)
    /\ (forall b, block n = Some b
                  -> snd maps' !! snakeCase (Name f) (Tag f) = Some b).
Proof.
  intros Hw Hexp Hafter. revert maps Hw.
  induction before as [| g before IH]; intros maps Hw; cbn [app walkFields] in Hw.
  - rewrite Hexp in Hw. cbn [negb] in Hw. apply bind_OK_inv in Hw as (n & Hn & Hw).
    exists n. split; [exact Hn |].
    destruct (walkFields_keep _ _ _ _ _ Hw Hafter) as [Ha Hb].
    destruct (place_same (snakeCase (Name f) (Tag f)) n maps) as [Ha' Hb'].
    split; intros x Hx; [rewrite Ha; apply Ha' | rewrite Hb; apply Hb']; exact Hx.
  - destruct (negb (IsExported g)); [apply (IH _ Hw) |].
    apply bind_OK_inv in Hw as (n & _ & Hw). apply (IH _ Hw).
Qed.

Lemma walkFields_keys (visit : rtype -> string -> result nest)
      (fields : list (StructField rtype))
      (maps maps' : gmap string Attribute * gmap string Block) (k : string) :
  (forall t tg n, visit t tg = OK n -> is_Some (attribute n) \/ is_Some (block n)) ->
  walkFields visit fields maps = OK maps' ->
  (is_Some (fst maps' !! k) \/ is_Some (snd maps' !! k))
  <-> (is_Some (fst maps !! k) \/ is_Some (snd maps !! k))
      \/ exists f, In f fields /\ IsExported f = true /\ snakeCase (Name f) (Tag f) = k.
Proof.
  intros Hshape. revert maps. induction fields as [| f fields IH]; intros maps Hw.
  - injection Hw as <-. split; [auto | intros [H | (f & [] & _)]; exact H].
  - cbn [walkFields] in Hw. destruct (IsExported f) eqn:Hexp; cbn [negb] in Hw.
    + apply bind_OK_inv in Hw as (n & Hn & Hw). rewrite (IH _ Hw). clear IH Hw.
      set (s := snakeCase (Name f) (Tag f)).
      destruct (String.eqb_spec s k) as [E | Hne].
      * split; [intros _ | intros _; left].
        -- right. exists f. split; [left; reflexivity | split; assumption].
        -- destruct (place_same s n maps) as [Ha Hb]. rewrite <- E.
           destruct (Hshape _ _ _ Hn) as [[a Hx] | [b Hx]]; [left | right]; eauto.
      * destruct (place_other s k n maps Hne) as [-> ->].
        split; (intros [H | (g & Hg & Hge & Hgk)]; [left; exact H | right]).
        -- exists g. split; [right; exact Hg | split; assumption].
        -- destruct Hg as [<- | Hg]; [contradiction |].
           exists g. split; [exact Hg | split; assumption].
    + rewrite (IH _ Hw). split; (intros [H | (g & Hg & Hge & Hgk)]; [left; exact H | right]).
      * exists g. split; [right; exact Hg | split; assumption].
      * destruct Hg as [<- | Hg]; [congruence |].
        exists g. split; [exact Hg | split; assumption].
Qed.

Lemma below_root_shape (t : rtype) (tg : string) (level : nat) (n : nest) :
  rAttribute t tg false (S level) = OK n -> is_Some (attribute n) \/ is_Some (block n).
Proof.
  intros H. destruct (rAttribute_below_root _ _ _ _ _ H)
    as [(? & ? & a & -> & _) | (? & ? & ? & b & -> & _)]; [left | right]; eauto.
Qed.

Lemma schemaLevelOptions_maps (s s' : Schema) (tags : string) :
  schemaLevelOptions s tags = OK s' ->
  s_Attributes s' = s_Attributes s /\ s_Blocks s' = s_Blocks s.
Proof.
  unfold schemaLevelOptions. intros H. apply bind_OK_inv in H as (v & _ & [= <-]). auto.
Qed.

Lemma New_inv (str : string) (fields : list (StructField rtype)) (sch : Schema) :
  New (TStruct str fields) = OK sch ->
  exists maps,
    leaf (TStruct str fields) "" = None
    /\ walkFields (fun t tg => rAttribute t tg false 1) fields (∅, ∅) = OK maps
    /\ s_Attributes sch = fst maps
    /\ s_Blocks sch = snd maps
    /\ match schemaField fields with
       | Some tags => schemaLevelOptions (mkSchema (fst maps) (snd maps) 0 "" "" "") tags = OK sch
       | None => sch = mkSchema (fst maps) (snd maps) 0 "" "" ""
       end.
Proof.
  unfold New. intros H. apply bind_OK_inv in H as (n & Hn & H).
  destruct (leaf (TStruct str fields) "") as [l |] eqn:Hl.
  - destruct (rAttribute_leaf_inv _ _ _ _ _ _ Hl Hn) as (a & -> & _). discriminate H.
  - rewrite (rAttribute_struct _ _ _ _ _ Hl) in Hn.
    apply bind_OK_inv in Hn as (maps & Hw & [= <-]).
    rewrite schemaNest_maps in H. cbn [schema] in H.
    exists maps. split; [reflexivity | split; [exact Hw |]].
    destruct (schemaField fields) as [tags |].
    + destruct (schemaLevelOptions_maps _ _ _ H) as [-> ->]. auto.
    + injection H as <-. auto.
Qed.

(** X13.  The names of the schema [New] returns are the schema names of the
    exported fields of the model: a name is a key of the attributes or of the
    blocks exactly when [snakeCase] gives it for an exported field. *)
Theorem New_keys :
  forall (str : string) (fields : list (StructField rtype)) (sch : Schema) (k : string),
    New (TStruct str fields) = OK sch ->
    (is_Some (s_Attributes sch !! k) \/ is_Some (s_Blocks sch !! k))
    <-> exists f, In f fields /\ IsExported f = true /\ snakeCase (Name f) (Tag f) = k.
Proof.
  intros str fields sch k H.
  destruct (New_inv _ _ _ H) as (maps & _ & Hw & -> & -> & _).
  etransitivity;
    [apply (walkFields_keys _ _ _ _ k (fun t tg n => below_root_shape t tg 0 n) Hw) |].
  cbn [fst snd]. rewrite !lookup_empty. split; [| auto].
  intros [[[x Hx] | [x Hx]] | Hf]; [discriminate | discriminate | exact Hf].
Qed.

Lemma New_keys_witness :
  (is_Some (s_Attributes
              (mkSchema
                 (<["name" := mkAttribute types.StringType true false false false "" "" "" [] []]> ∅)
                 ∅ 0 "" "" "") !! "name")
   \/ is_Some (s_Blocks
                 (mkSchema
                    (<["name" := mkAttribute types.StringType true false false false
                                   "" "" "" [] []]> ∅)
                    ∅ 0 "" "" "") !! "name"))
  <-> exists f,
      In f [mkField "Name" true (TStruct "types.String" []) (raw "tfsdk:'name' required:'true'");
            mkField "hidden" false (TBasic "chan int" "chan") ""]
      /\ IsExported f = true /\ snakeCase (Name f) (Tag f) = "name".
Proof.
  apply (New_keys "struct { Name types.String; hidden chan int }"
           [mkField "Name" true (TStruct "types.String" []) (raw "tfsdk:'name' required:'true'");
            mkField "hidden" false (TBasic "chan int" "chan") ""]).
  vm_compute. reflexivity.
Defined.

(** X14.  An exported field that no later exported field shares its schema
    name with is found in the schema under that name, as what [rAttribute]
    compiles the field to: in the attributes if that is an attribute, in the
    blocks if it is a block.  The same holds for the fields of a struct
    below the root and the block it becomes. *)
Theorem New_field_entry :
  (forall (str : string) (before after : list (StructField rtype)) (f : StructField rtype)
          (sch : Schema),
      New (TStruct str (before ++ f :: after)) = OK sch ->
      IsExported f = true ->
      (forall g, In g after -> IsExported g = true ->
                 snakeCase (Name g) (Tag g) <> snakeCase (Name f) (Tag f)) ->
      exists n,
        rAttribute (FieldType f) (Tag f) false 1 = OK n
        /\ (forall a, attribute n = Some a
                      -> s_Attributes sch !! snakeCase (Name f) (Tag f) = Some a)
        /\ (forall b, block n = Some b
                      -> s_Blocks sch !! snakeCase (Name f) (Tag f) = Some b))
  /\ (forall (str tags : string) (before after : list (StructField rtype))
             (f : StructField rtype) (fromSlice : bool) (level : nat) (blk : Block),
         leaf (TStruct str (before ++ f :: after)) tags = None ->
         rAttribute (TStruct str (before ++ f :: after)) tags fromSlice (S level)
         = OK (mkNest None (Some blk) None) ->
         IsExported f = true ->
         (forall g, In g after -> IsExported g = true ->
                    snakeCase (Name g) (Tag g) <> snakeCase (Name f) (Tag f)) ->
         exists n,
           rAttribute (FieldType f) (Tag f) false 1 = OK n
           /\ (forall a, attribute n = Some a
                         -> b_Attributes blk !! snakeCase (Name f) (Tag f) = Some a)
           /\ (forall b, block n = Some b
                         -> b_Blocks blk !! snakeCase (Name f) (Tag f) = Some b)).
Proof.
  split.
  - intros str before after f sch H Hexp Hafter.
    destruct (New_inv _ _ _ H) as (maps & _ & Hw & -> & -> & _).
    apply (walkFields_field _ _ _ _ _ _ Hw Hexp Hafter).
  - intros str tags before after f fromSlice level blk Hl Hr Hexp Hafter.
    rewrite (rAttribute_struct _ _ _ _ _ Hl) in Hr.
    apply bind_OK_inv in Hr as (maps & Hw & Hr). cbn [Nat.eqb] in Hr.
    destruct (blockNest_inv _ _ _ _ _ Hr) as (b & [= <-] & -> & -> & _).
    destruct (walkFields_field _ _ _ _ _ _ Hw Hexp Hafter) as (n & Hn & Ha & Hb).
    exists n. rewrite Nat.add_1_r, (rAttribute_depth _ _ _ _ 0) in Hn. auto.
Qed.

Lemma New_field_entry_witness :
  exists n,
    rAttribute (TStruct "types.String" []) (raw "tfsdk:'name' required:'true'") false 1 = OK n
    /\ (forall a, attribute n = Some a ->
                  s_Attributes
                    (mkSchema
                       (<["name" := mkAttribute types.StringType true false false false
                                      "" "" "" [] []]> ∅)
                       ∅ 0 "" "" "")
                  !! snakeCase "Name" (raw "tfsdk:'name' required:'true'") = Some a)
    /\ (forall b, block n = Some b ->
                  s_Blocks
                    (mkSchema
                       (<["name" := mkAttribute types.StringType true false false false
                                      "" "" "" [] []]> ∅)
                       ∅ 0 "" "" "")
                  !! snakeCase "Name" (raw "tfsdk:'name' required:'true'") = Some b).
Proof.
  apply (proj1 New_field_entry "struct { Name types.String; hidden chan int }" []
           [mkField "hidden" false (TBasic "chan int" "chan") ""]
           (mkField "Name" true (TStruct "types.String" []) (raw "tfsdk:'name' required:'true'"))).
  - vm_compute. reflexivity.
  - reflexivity.
  - intros g [<- | []] H. discriminate H.
Defined.

(** *** The root *)

Lemma tagValue_no_tags (key : string) : tagValue key "" = "".
Proof. reflexivity. Qed.

Lemma forEach_panic_inv {A B : Type} (f : A -> result B) (l : list A) (p : panic) :
  forEach f l = Panic p -> exists a, In a l /\ f a = Panic p.
Proof.
  induction l as [| x l IH]; [discriminate |]. cbn [forEach]. intros H.
  apply bind_Panic_inv in H as [H | (b & _ & H)].
  - exists x. split; [left; reflexivity | exact H].
  - apply bind_Panic_inv in H as [H | (bs & _ & H)]; [| discriminate].
    destruct (IH H) as (a & Ha & Hf). exists a. split; [right; exact Ha | exact Hf].
Qed.

(** The panics of the rule engine. *)
Lemma pMods_not_root_panic (v attrType : string) : pMods v attrType <> Panic PanicNoSchema.
Proof.
  unfold pMods. destruct (hasTagArg TagPlanModifierDefault v); [| discriminate].
  intros H. apply bind_Panic_inv in H as [H | (d & _ & H)]; [| discriminate].
  revert H. unfold defaultMod, parseFloatOr.
  repeat match goal with
         | |- context [if ?c then _ else _] => destruct c
         | |- context [match ?x with strconv.Parsed _ => _ | strconv.Failed _ => _ end] =>
             destruct x; cbn [bind]
         | |- context [match ?x with Some _ => _ | None => _ end] => destruct x
         end; discriminate.
Qed.

Lemma parse_not_root_panic {A : Type} (parse : string -> result A) (args : list string) :
  (forall a, parse a <> Panic PanicNoSchema) ->
  forEach parse args <> Panic PanicNoSchema.
Proof.
  intros Hp H. apply forEach_panic_inv in H as (a & _ & H). exact (Hp a H).
Qed.

Lemma parseFloatOr_not_root (mk : string -> strconv.NumError -> panic) (a : string) :
  (forall x e, mk x e <> PanicNoSchema) -> parseFloatOr mk a <> Panic PanicNoSchema.
Proof.
  intros Hmk. unfold parseFloatOr. destruct (strconv.ParseFloat a); [discriminate |].
  intros [= H]. exact (Hmk _ _ H).
Qed.

Lemma parseIntOr_not_root (mk : string -> panic) (a : string) :
  (forall x, mk x <> PanicNoSchema) -> parseIntOr mk a <> Panic PanicNoSchema.
Proof.
  intros Hmk. unfold parseIntOr. destruct (strconv.ParseInt a); [discriminate |].
  intros [= H]. exact (Hmk _ H).
Qed.

Lemma parseBigOr_not_root (mk : string -> panic) (a : string) :
  (forall x, mk x <> PanicNoSchema) -> parseBigOr mk a <> Panic PanicNoSchema.
Proof.
  intros Hmk. unfold parseBigOr. destruct (big.Parse a); [discriminate |].
  intros [= H]. exact (Hmk _ H).
Qed.

Lemma betweenValidator_not_root (v attrType tags : string) :
  betweenValidator v attrType tags <> Panic PanicNoSchema.
Proof.
  unfold betweenValidator. destruct (negb _); [discriminate |].
  intros H. apply bind_Panic_inv in H as [H | (nums & _ & H)].
  - revert H. apply parse_not_root_panic. intros a.
    apply parseFloatOr_not_root. discriminate.
  - revert H. repeat match goal with
                     | |- context [if ?c then _ else _] => destruct c
                     end; discriminate.
Qed.

Lemma oneOfValidator_not_root (v attrType tags : string) :
  oneOfValidator v attrType tags <> Panic PanicNoSchema.
Proof.
  unfold oneOfValidator.
  repeat match goal with
         | |- context [if ?c then _ else _] => destruct c
         end; try discriminate;
    intros H; apply bind_Panic_inv in H as [H | (nums & _ & H)]; try discriminate H;
    revert H; apply parse_not_root_panic; intros a;
    [apply parseFloatOr_not_root | apply parseIntOr_not_root | apply parseBigOr_not_root];
    discriminate.
Qed.

Lemma noneOfValidator_not_root (v attrType tags : string) :
  noneOfValidator v attrType tags <> Panic PanicNoSchema.
Proof.
  unfold noneOfValidator.
  repeat match goal with
         | |- context [if ?c then _ else _] => destruct c
         end; try discriminate;
    intros H; apply bind_Panic_inv in H as [H | (nums & _ & H)]; try discriminate H;
    revert H; apply parse_not_root_panic; intros a;
    [apply parseFloatOr_not_root | apply parseIntOr_not_root | apply parseBigOr_not_root];
    discriminate.
Qed.

Lemma step_not_root (b : bool) (r : result (option AttributeValidator))
      (vals : list AttributeValidator) :
  r <> Panic PanicNoSchema ->
  (if b then v <- r ;; OK (appendIf vals v) else OK vals) <> Panic PanicNoSchema.
Proof.
  intros Hr. destruct b; [| discriminate]. intros H.
  apply bind_Panic_inv in H as [H | (x & _ & H)]; [exact (Hr H) | discriminate].
Qed.

Lemma validators_not_root (v attrType : string) (fromSlice : bool) (tags : string) :
  validators v attrType fromSlice tags <> Panic PanicNoSchema.
Proof.
  unfold validators. intros H.
  apply bind_Panic_inv in H as [H | (v1 & _ & H)].
  { revert H. apply step_not_root, betweenValidator_not_root. }
  apply bind_Panic_inv in H as [H | (v2 & _ & H)].
  { revert H. apply step_not_root, oneOfValidator_not_root. }
  apply bind_Panic_inv in H as [H | (v3 & _ & H)]; [| discriminate].
  revert H. apply step_not_root, noneOfValidator_not_root.
Qed.

Lemma addAttrOptions_not_root (a : Attribute) (tags attrType : string) :
  addAttrOptions a tags attrType <> Panic PanicNoSchema.
Proof.
  unfold addAttrOptions. intros H.
  apply bind_Panic_inv in H as [H | (pm & _ & H)].
  { destruct (negb _); [exact (pMods_not_root_panic _ _ H) | discriminate]. }
  apply bind_Panic_inv in H as [H | (vals & _ & H)]; [| discriminate].
  destruct (negb _); [exact (validators_not_root _ _ _ _ H) | discriminate].
Qed.

Lemma blockNest_not_root (blocks : gmap string Block) (attrs : gmap string Attribute)
      (slice : bool) (tags : string) :
  blockNest blocks attrs slice tags <> Panic PanicNoSchema.
Proof.
  unfold blockNest, addBlockOptions. intros H.
  apply bind_Panic_inv in H as [H | (b & _ & H)]; [| discriminate].
  apply bind_Panic_inv in H as [H | (pm & _ & H)].
  { destruct (negb _); [exact (pMods_not_root_panic _ _ H) | discriminate]. }
  apply bind_Panic_inv in H as [H | (vals & _ & H)]; [| discriminate].
  exact (validators_not_root _ _ _ _ H).
Qed.

Lemma walkFields_not_root (visit : rtype -> string -> result nest)
      (fields : list (StructField rtype)) (maps : gmap string Attribute * gmap string Block) :
  Forall (fun f => forall tg, visit (FieldType f) tg <> Panic PanicNoSchema) fields ->
  walkFields visit fields maps <> Panic PanicNoSchema.
Proof.
  intros H. revert maps. induction H as [| f fields Hf _ IH]; intros maps; [discriminate |].
  cbn [walkFields]. destruct (negb (IsExported f)); [apply IH |].
  intros Hw. apply bind_Panic_inv in Hw as [Hw | (n & _ & Hw)]; [exact (Hf _ Hw) |].
  exact (IH _ Hw).
Qed.

Lemma rAttribute_not_root (model : rtype) :
  forall (tags : string) (fromSlice : bool) (level : nat),
    rAttribute model tags fromSlice level <> Panic PanicNoSchema.
Proof.
  induction model as [str kind | str fields IH | elem IH | key elem _ _] using rtype_fields_ind;
    intros tags fromSlice level; cbn [rAttribute];
    (destruct (leaf _ tags) as [l |];
     [ intros H; apply bind_Panic_inv in H as [H | (a & _ & H)];
       [exact (addAttrOptions_not_root _ _ _ H) | discriminate] |]);
    try discriminate.
  - intros H. apply bind_Panic_inv in H as [H | (maps & _ & H)].
    + revert H. apply walkFields_not_root.
      eapply List.Forall_impl; [| exact IH]. cbn beta. intros f Hf tg. apply Hf.
    + destruct (level =? 0)%nat; [discriminate | exact (blockNest_not_root _ _ _ _ H)].
  - destruct (kindOf elem); try discriminate. apply IH.
Qed.

(** X15.  The panics of [New] about the model itself: a model that is no
    struct gives "expected struct"; "no schema achieved" is given exactly for
    a struct of a type that [leaf] takes for an attribute (a [types.String]
    value, say). *)
Theorem New_root_panics :
  (forall model : rtype,
      kindOf model <> KStruct ->
      New model = Panic (PanicExpectedStruct (kindString (kindOf model))))
  /\ (forall model : rtype,
         New model = Panic PanicNoSchema
         <-> kindOf model = KStruct /\ leaf model "" <> None).
Proof.
  split.
  - intros [str kind | str fields | elem | key elem] Hk; try reflexivity. contradiction.
  - intros model. split.
    + destruct model as [str kind | str fields | elem | key elem]; try discriminate.
      intros H. split; [reflexivity |]. intros Hl. unfold New in H.
      rewrite (rAttribute_struct _ _ _ _ _ Hl) in H.
      apply bind_Panic_inv in H as [H | (n & Hn & H)].
      * apply bind_Panic_inv in H as [H | (maps & _ & H)]; [| discriminate].
        revert H. apply walkFields_not_root. apply Forall_forall.
        intros f _ tg. apply rAttribute_not_root.
      * apply bind_OK_inv in Hn as (maps & _ & [= <-]).
        rewrite schemaNest_maps in H. cbn [schema] in H.
        destruct (schemaField fields); [| discriminate].
        unfold schemaLevelOptions in H.
        apply bind_Panic_inv in H as [H | (v & _ & H)]; [| discriminate].
        destruct (negb _); [| discriminate]. destruct (strconv.ParseInt _); discriminate.
    + intros [Hk Hl]. destruct model as [str kind | str fields | elem | key elem];
        try discriminate Hk.
      destruct (leaf (TStruct str fields) "") as [l |] eqn:El; [| contradiction].
      unfold New. rewrite (rAttribute_leaf _ _ _ _ _ El).
      destruct (addAttrOptions_total l "" str eq_refl eq_refl) as (a & Ha).
      cbn [typeString]. rewrite Ha. reflexivity.
Qed.

Lemma New_root_panics_witness :
  New (TSlice (TStruct "types.String" []))
  = Panic (PanicExpectedStruct (kindString (kindOf (TSlice (TStruct "types.String" []))))).
Proof. apply (proj1 New_root_panics (TSlice (TStruct "types.String" []))). discriminate. Defined.

(** *** Schema-level options *)

Lemma schemaField_first (before after : list (StructField rtype)) (f : StructField rtype) :
  IsExported f = false -> Name f = "_" -> kindOf (FieldType f) = KStruct ->
  Forall (fun g => IsExported g = true \/ Name g <> "_" \/ kindOf (FieldType g) <> KStruct)
         before ->
  schemaField (before ++ f :: after) = Some (Tag f).
Proof.
  intros Hexp Hname Hkind Hb. induction Hb as [| g before Hg _ IH]; cbn [app schemaField].
  - rewrite Hexp, Hname, Hkind. reflexivity.
  - destruct Hg as [Hg | [Hg | Hg]].
    + rewrite Hg. exact IH.
    + apply String.eqb_neq in Hg. rewrite Hg, andb_false_r. exact IH.
    + destruct (kindOf (FieldType g)); try contradiction; rewrite andb_false_r; exact IH.
Qed.

Lemma schemaField_none (fields : list (StructField rtype)) :
  Forall (fun g => IsExported g = true \/ Name g <> "_" \/ kindOf (FieldType g) <> KStruct)
         fields ->
  schemaField fields = None.
Proof.
  intros Hb. induction Hb as [| g fields Hg _ IH]; cbn [schemaField]; [reflexivity |].
  destruct Hg as [Hg | [Hg | Hg]].
  - rewrite Hg. exact IH.
  - apply String.eqb_neq in Hg. rewrite Hg, andb_false_r. exact IH.
  - destruct (kindOf (FieldType g)); try contradiction; rewrite andb_false_r; exact IH.
Qed.

Lemma schemaLevelOptions_inv (maps : gmap string Attribute * gmap string Block)
      (tags : string) (sch : Schema) :
  schemaLevelOptions (mkSchema (fst maps) (snd maps) 0 "" "" "") tags = OK sch ->
  s_Description sch = tagValue TagDescription tags
  /\ s_MarkdownDescription sch = tagValue TagMarkdownDescription tags
  /\ s_DeprecationMessage sch = tagValue TagDeprecationMessage tags
  /\ (if String.eqb (tagValue TagVersion tags) ""
      then s_Version sch = 0%Z
      else strconv.ParseInt (tagValue TagVersion tags) = strconv.Parsed (s_Version sch)).
Proof.
  unfold schemaLevelOptions. intros H. apply bind_OK_inv in H as (v & Hv & [= <-]).
  cbn [s_Description s_MarkdownDescription s_DeprecationMessage s_Version].
  rewrite !orTag_empty. repeat split.
  destruct (String.eqb (tagValue TagVersion tags) ""); cbn [negb] in Hv.
  - injection Hv as <-. reflexivity.
  - destruct (strconv.ParseInt _); [injection Hv as <-; reflexivity | discriminate].
Qed.

(** X16.  The options of the schema come from the tag of the first unexported
    struct field named [_], and from nothing else: its [desc], [md] and
    [deprecation] values and its [version], 0 if it has none; without such a
    field they are empty and 0.  A [version] that is no integer makes [New]
    panic. *)
Theorem New_schema_level :
  (forall (str : string) (before after : list (StructField rtype)) (f : StructField rtype)
          (sch : Schema),
      IsExported f = false -> Name f = "_" -> kindOf (FieldType f) = KStruct ->
      Forall (fun g => IsExported g = true \/ Name g <> "_" \/ kindOf (FieldType g) <> KStruct)
             before ->
      New (TStruct str (before ++ f :: after)) = OK sch ->
      s_Description sch = tagValue TagDescription (Tag f)
      /\ s_MarkdownDescription sch = tagValue TagMarkdownDescription (Tag f)
      /\ s_DeprecationMessage sch = tagValue TagDeprecationMessage (Tag f)
      /\ (if String.eqb (tagValue TagVersion (Tag f)) ""
          then s_Version sch = 0%Z
          else strconv.ParseInt (tagValue TagVersion (Tag f))
               = strconv.Parsed (s_Version sch)))
  /\ (forall (str : string) (fields : list (StructField rtype)) (sch : Schema),
         Forall (fun g => IsExported g = true \/ Name g <> "_"
                          \/ kindOf (FieldType g) <> KStruct) fields ->
         New (TStruct str fields) = OK sch ->
         s_Description sch = "" /\ s_MarkdownDescription sch = ""
         /\ s_DeprecationMessage sch = "" /\ s_Version sch = 0%Z)
  /\ (forall (str : string) (before after : list (StructField rtype)) (f : StructField rtype)
             (e : strconv.NumError),
         IsExported f = false -> Name f = "_" -> kindOf (FieldType f) = KStruct ->
         Forall (fun g => IsExported g = true \/ Name g <> "_"
                          \/ kindOf (FieldType g) <> KStruct) before ->
         tagValue TagVersion (Tag f) <> "" ->
         strconv.ParseInt (tagValue TagVersion (Tag f)) = strconv.Failed e ->
         exists p, New (TStruct str (before ++ f :: after)) = Panic p).
Proof.
  split; [| split].
  - intros str before after f sch Hexp Hname Hkind Hb H.
    destruct (New_inv _ _ _ H) as (maps & _ & _ & _ & _ & Hs).
    rewrite (schemaField_first _ _ _ Hexp Hname Hkind Hb) in Hs.
    apply (schemaLevelOptions_inv _ _ _ Hs).
  - intros str fields sch Hf H.
    destruct (New_inv _ _ _ H) as (maps & _ & _ & _ & _ & Hs).
    rewrite (schemaField_none _ Hf) in Hs. subst sch. auto.
  - intros str before after f e Hexp Hname Hkind Hb Hv He.
    destruct (New (TStruct str (before ++ f :: after))) as [sch | p] eqn:H; [| eauto].
    destruct (New_inv _ _ _ H) as (maps & _ & _ & _ & _ & Hs).
    rewrite (schemaField_first _ _ _ Hexp Hname Hkind Hb) in Hs.
    apply schemaLevelOptions_inv in Hs as (_ & _ & _ & Hs).
    apply String.eqb_neq in Hv. rewrite Hv, He in Hs. discriminate.
Qed.

Lemma New_schema_level_witness :
  s_Description
    (mkSchema
       (<["name" := mkAttribute types.StringType true false false false "" "" "" [] []]> ∅)
       ∅ 3 "" "" "A thing, described")
  = tagValue TagDescription (raw "md:'A thing, described' version:'3'")
  /\ s_MarkdownDescription
       (mkSchema
          (<["name" := mkAttribute types.StringType true false false false "" "" "" [] []]> ∅)
          ∅ 3 "" "" "A thing, described")
     = tagValue TagMarkdownDescription (raw "md:'A thing, described' version:'3'")
  /\ s_DeprecationMessage
       (mkSchema
          (<["name" := mkAttribute types.StringType true false false false "" "" "" [] []]> ∅)
          ∅ 3 "" "" "A thing, described")
     = tagValue TagDeprecationMessage (raw "md:'A thing, described' version:'3'")
  /\ (if String.eqb (tagValue TagVersion (raw "md:'A thing, described' version:'3'")) ""
      then s_Version
             (mkSchema
                (<["name" := mkAttribute types.StringType true false false false
                               "" "" "" [] []]> ∅)
                ∅ 3 "" "" "A thing, described") = 0%Z
      else strconv.ParseInt (tagValue TagVersion (raw "md:'A thing, described' version:'3'"))
           = strconv.Parsed
               (s_Version
                  (mkSchema
                     (<["name" := mkAttribute types.StringType true false false false
                                    "" "" "" [] []]> ∅)
                     ∅ 3 "" "" "A thing, described"))).
Proof.
  apply (proj1 New_schema_level "struct { Name types.String; _ struct {}; _ struct {} }"
           [mkField "Name" true (TStruct "types.String" []) (raw "tfsdk:'name' required:'true'")]
           [mkField "_" false (TStruct "struct {}" []) (raw "md:'Another' version:'4'")]
           (mkField "_" false (TStruct "struct {}" []) (raw "md:'A thing, described' version:'3'"))).
  - reflexivity.
  - reflexivity.
  - reflexivity.
  - apply List.Forall_cons; [left; reflexivity | apply List.Forall_nil].
  - vm_compute. reflexivity.
Defined.

(** *** Depth *)

Lemma leaf_struct_tags (str : string) (fields : list (StructField rtype)) (tags tags' : string) :
  leaf (TStruct str fields) tags = None -> leaf (TStruct str fields) tags' = None.
Proof.
  unfold leaf, listOrSet. cbn [typeString].
  repeat match goal with
         | |- context [if isIn str ?L then _ else _] => destruct (isIn str L)
         end; try discriminate; try reflexivity;
    destruct (String.eqb (tagValue TagCollection tags) TagCollectionSet); discriminate.
Qed.

(** X17.  Below the root the depth plays no part: a field compiles to the
    same result at every level above 0.  And a struct gives the same
    attributes and blocks as the schema at the root and as a block below
    it. *)
Theorem nesting_depth_irrelevant :
  (forall (model : rtype) (tags : string) (fromSlice : bool) (level level' : nat),
      rAttribute model tags fromSlice (S level) = rAttribute model tags fromSlice (S level'))
  /\ (forall (str : string) (fields : list (StructField rtype)) (tags tags' : string)
             (fromSlice fromSlice' : bool) (level : nat) (sch : Schema) (blk : Block),
         rAttribute (TStruct str fields) tags fromSlice 0 = OK (mkNest (Some sch) None None) ->
         rAttribute (TStruct str fields) tags' fromSlice' (S level)
         = OK (mkNest None (Some blk) None) ->
         b_Attributes blk = s_Attributes sch /\ b_Blocks blk = s_Blocks sch).
Proof.
  split; [intros; apply rAttribute_depth |].
  intros str fields tags tags' fromSlice fromSlice' level sch blk H0 H1.
  destruct (leaf (TStruct str fields) tags) as [l |] eqn:Hl.
  { destruct (rAttribute_leaf_inv _ _ _ _ _ _ Hl H0) as (a & [=] & _). }
  rewrite (rAttribute_struct _ _ _ _ _ Hl) in H0.
  rewrite (rAttribute_struct _ _ _ _ _ (leaf_struct_tags _ _ _ tags' Hl)) in H1.
  rewrite (walkFields_ext _ (fun t tg => rAttribute t tg false (0 + 1))) in H1.
  - apply bind_OK_inv in H0 as (maps & Hw & H0). rewrite Hw in H1. cbn [bind Nat.eqb] in *.
    rewrite schemaNest_maps in H0. injection H0 as <-.
    destruct (blockNest_inv _ _ _ _ _ H1) as (b & [= <-] & -> & -> & _). auto.
  - apply Forall_forall. intros f _ tg. rewrite !Nat.add_1_r. apply rAttribute_depth.
Qed.

Lemma nesting_depth_irrelevant_witness :
  b_Attributes
    (mkBlock (<["id" := mkAttribute types.Int64Type false true false false "" "" "" [] []]> ∅)
             ∅ BlockNestingModeList "" "" "" [] [])
  = s_Attributes
      (mkSchema (<["id" := mkAttribute types.Int64Type false true false false "" "" "" [] []]> ∅)
                ∅ 0 "" "" "")
  /\ b_Blocks
       (mkBlock (<["id" := mkAttribute types.Int64Type false true false false "" "" "" [] []]> ∅)
                ∅ BlockNestingModeList "" "" "" [] [])
     = s_Blocks
         (mkSchema (<["id" := mkAttribute types.Int64Type false true false false
                                "" "" "" [] []]> ∅)
                   ∅ 0 "" "" "").
Proof.
  apply (proj2 nesting_depth_irrelevant "mdlschm.Rule"
           [mkField "ID" true (TBasic "int64" "int64") ""]
           "" (raw "tfsdk:'rules'") false true 2).
  - vm_compute. reflexivity.
  - vm_compute. reflexivity.
Defined.

(** *** Descriptions *)

(** X18.  For a field whose tag string is made of tokens separated by one
    blank (keys without colon and blank, quoted values without quote and
    colon, nothing with the byte [|] of the sentinel), the description, the
    markdown description and the deprecation message of the attribute or
    block it compiles to are the values of the first [desc], [md] and
    [deprecation] tokens, blanks and commas included, and empty when there is
    no such token. *)
Theorem texts_pass_through :
  forall (model : rtype) (tokens : list textUnit) (fromSlice : bool) (level : nat) (n : nest),
    Forall (goodUnit ":" dq " ") tokens ->
    Forall pipeFree tokens ->
    rAttribute model (joinWith " " (map tokenText tokens)) fromSlice (S level) = OK n ->
    (forall a, attribute n = Some a ->
               a_Description a = lookupToken TagDescription tokens
               /\ a_MarkdownDescription a = lookupToken TagMarkdownDescription tokens
               /\ a_DeprecationMessage a = lookupToken TagDeprecationMessage tokens)
    /\ (forall b, block n = Some b ->
                  b_Description b = lookupToken TagDescription tokens
                  /\ b_MarkdownDescription b = lookupToken TagMarkdownDescription tokens
                  /\ b_DeprecationMessage b = lookupToken TagDeprecationMessage tokens).
Proof.
  intros model tokens fromSlice level n Hgood Hfree Hr.
  assert (Hval : forall key, tagValue key (joinWith " " (map tokenText tokens))
                             = lookupToken key tokens).
  { intros key. destruct tokens as [| u us]; [reflexivity |].
    apply tagValue_tokens; [discriminate | assumption | assumption]. }
  destruct (rAttribute_below_root _ _ _ _ _ Hr)
    as [(t & attrType & a & -> & Ha) | (blocks & attrs & slice & b & -> & Hb)].
  - split; [| discriminate]. intros a' [= <-].
    rewrite <- !Hval. eapply addAttrOptions_texts. exact Ha.
  - split; [discriminate |]. intros b' [= <-].
    destruct (blockNest_inv _ _ _ _ _ Hb) as (b' & [= <-] & _ & _ & H).
    rewrite <- !Hval. exact H.
Qed.

Lemma texts_pass_through_witness :
  (forall a,
      attribute
        (mkNest None None
           (Some (mkAttribute types.StringType false true false false
                    "A name, with blanks" "" "Use another one" [] [])))
      = Some a ->
      a_Description a
      = lookupToken TagDescription
          [TextUnit "tfsdk" (Some "name"); TextUnit "desc" (Some "A name, with blanks");
           TextUnit "deprecation" (Some "Use another one")]
      /\ a_MarkdownDescription a
         = lookupToken TagMarkdownDescription
             [TextUnit "tfsdk" (Some "name"); TextUnit "desc" (Some "A name, with blanks");
              TextUnit "deprecation" (Some "Use another one")]
      /\ a_DeprecationMessage a
         = lookupToken TagDeprecationMessage
             [TextUnit "tfsdk" (Some "name"); TextUnit "desc" (Some "A name, with blanks");
              TextUnit "deprecation" (Some "Use another one")])
  /\ (forall b,
         block
           (mkNest None None
              (Some (mkAttribute types.StringType false true false false
                       "A name, with blanks" "" "Use another one" [] [])))
         = Some b ->
         b_Description b
         = lookupToken TagDescription
             [TextUnit "tfsdk" (Some "name"); TextUnit "desc" (Some "A name, with blanks");
              TextUnit "deprecation" (Some "Use another one")]
         /\ b_MarkdownDescription b
            = lookupToken TagMarkdownDescription
                [TextUnit "tfsdk" (Some "name"); TextUnit "desc" (Some "A name, with blanks");
                 TextUnit "deprecation" (Some "Use another one")]
         /\ b_DeprecationMessage b
            = lookupToken TagDeprecationMessage
                [TextUnit "tfsdk" (Some "name"); TextUnit "desc" (Some "A name, with blanks");
                 TextUnit "deprecation" (Some "Use another one")]).
Proof.
  apply (texts_pass_through (TBasic "string" "string")
           [TextUnit "tfsdk" (Some "name"); TextUnit "desc" (Some "A name, with blanks");
            TextUnit "deprecation" (Some "Use another one")] false 0).
  - units_ok.
  - units_ok.
  - vm_compute. reflexivity.
Defined.

(** *** Models that always compile *)

Lemma walkFields_total (visit : rtype -> string -> result nest)
      (fields : list (StructField rtype)) (maps : gmap string Attribute * gmap string Block) :
  Forall (fun f => IsExported f = true -> exists n, visit (FieldType f) (Tag f) = OK n) fields ->
  exists maps', walkFields visit fields maps = OK maps'.
Proof.
  intros H. revert maps. induction H as [| f fields Hf _ IH]; intros maps; [cbn; eauto |].
  cbn [walkFields]. destruct (IsExported f); cbn [negb]; [| apply IH].
  destruct (Hf eq_refl) as (n & ->). cbn [bind]. apply IH.
Qed.

(** X19.  [New] returns a schema for every struct model, not itself of a leaf
    type, whose exported fields are of leaf types and have neither a [pmods]
    nor a [valid] value, and whose fields [_] have no [version] value. *)
Theorem plain_leaf_models_compile :
  forall (str : string) (fields : list (StructField rtype)),
    leaf (TStruct str fields) "" = None ->
    Forall (fun f => IsExported f = true ->
                     leaf (FieldType f) (Tag f) <> None
                     /\ tagValue TagPlanModifiers (Tag f) = ""
                     /\ tagValue TagValidators (Tag f) = "") fields ->
    Forall (fun g => IsExported g = true \/ Name g <> "_" \/ kindOf (FieldType g) <> KStruct
                     \/ tagValue TagVersion (Tag g) = "") fields ->
    exists sch, New (TStruct str fields) = OK sch.
Proof.
  intros str fields Hl Hf Hs. unfold New. rewrite (rAttribute_struct _ _ _ _ _ Hl).
  destruct (walkFields_total (fun t tg => rAttribute t tg false (0 + 1)) fields (∅, ∅))
    as (maps & ->).
  { eapply List.Forall_impl; [| exact Hf]. cbn beta. intros f H Hexp.
    destruct (H Hexp) as (Hleaf & Hp & Hv).
    destruct (leaf (FieldType f) (Tag f)) as [l |] eqn:El; [| contradiction].
    eapply leaf_total; eassumption. }
  cbn [bind Nat.eqb]. rewrite schemaNest_maps. cbn [schema].
  clear Hf Hl. induction Hs as [| g fields Hg _ IH]; cbn [schemaField]; [eauto |].
  destruct Hg as [Hg | [Hg | [Hg | Hg]]].
  - rewrite Hg. exact IH.
  - apply String.eqb_neq in Hg. rewrite Hg, andb_false_r. exact IH.
  - destruct (kindOf (FieldType g)); try contradiction; rewrite andb_false_r; exact IH.
  - destruct (negb (IsExported g) && (Name g =? "_")%string && _); [| exact IH].
    unfold schemaLevelOptions. rewrite Hg. cbn. eauto.
Qed.

Lemma plain_leaf_models_compile_witness :
  exists sch,
    New (TStruct "struct { Name types.String; Tags []string; hidden chan int }"
           [mkField "Name" true (TStruct "types.String" []) (raw "tfsdk:'name' required:'true'");
            mkField "Tags" true (TSlice (TBasic "string" "string")) (raw "collection:'set'");
            mkField "hidden" false (TBasic "chan int" "chan") ""])
    = OK sch.
Proof.
  apply plain_leaf_models_compile.
  - reflexivity.
  - apply List.Forall_cons;
      [intros _; vm_compute; repeat split; try reflexivity; discriminate |].
    apply List.Forall_cons;
      [intros _; vm_compute; repeat split; try reflexivity; discriminate |].
    apply List.Forall_cons; [intros H; discriminate H | apply List.Forall_nil].
  - apply List.Forall_cons; [left; reflexivity |].
    apply List.Forall_cons; [left; reflexivity |].
    apply List.Forall_cons; [right; left; discriminate | apply List.Forall_nil].
Defined.

(** *** Fields the walker does not look at, and the order of the fields *)

Lemma walkFields_exported (visit : rtype -> string -> result nest)
      (fields : list (StructField rtype)) (maps : gmap string Attribute * gmap string Block) :
  walkFields visit fields maps = walkFields visit (List.filter IsExported fields) maps.
Proof.
  revert maps. induction fields as [| f fields IH]; intros maps; [reflexivity |].
  cbn [walkFields List.filter]. destruct (IsExported f) eqn:E; cbn [negb]; [| apply IH].
  cbn [walkFields]. rewrite E. cbn [negb].
  destruct (visit (FieldType f) (Tag f)); cbn [bind]; [apply IH | reflexivity].
Qed.

(** X20.  The walker does not look at unexported fields: a struct compiles to
    the same result, schema, block or panic, as the struct without them. *)
Theorem unexported_fields_ignored :
  forall (str : string) (fields : list (StructField rtype)) (tags : string)
         (fromSlice : bool) (level : nat),
    rAttribute (TStruct str fields) tags fromSlice level
    = rAttribute (TStruct str (List.filter IsExported fields)) tags fromSlice level.
Proof.
  intros str fields tags fromSlice level. cbn [rAttribute].
  change (leaf (TStruct str (List.filter IsExported fields)) tags)
    with (leaf (TStruct str fields) tags).
  destruct (leaf (TStruct str fields) tags); [reflexivity |].
  rewrite walkFields_exported. reflexivity.
Qed.

Lemma place_comm (s1 s2 : string) (n1 n2 : nest)
      (maps : gmap string Attribute * gmap string Block) :
  s1 <> s2 -> place s1 n1 (place s2 n2 maps) = place s2 n2 (place s1 n1 maps).
Proof.
  intros Hne. unfold place. cbn [fst snd].
  destruct (attribute n1), (attribute n2), (block n1), (block n2);
    f_equal; try reflexivity; apply insert_insert_ne; congruence.
Qed.

Lemma walkFields_perm (visit : rtype -> string -> result nest)
      (fields fields' : list (StructField rtype)) :
  Permutation fields fields' ->
  (forall f g, In f fields -> In g fields -> IsExported f = true -> IsExported g = true ->
               snakeCase (Name f) (Tag f) = snakeCase (Name g) (Tag g) -> f = g) ->
  forall maps maps',
    walkFields visit fields maps = OK maps' -> walkFields visit fields' maps = OK maps'.
Proof.
  induction 1 as [| x l l' Hp IH | x y l | l l' l'' Hp1 IH1 Hp2 IH2]; intros Hkey maps maps' Hw.
  - exact Hw.
  - cbn [walkFields] in *.
    assert (Hkey' : forall f g, In f l -> In g l -> IsExported f = true -> IsExported g = true ->
                                snakeCase (Name f) (Tag f) = snakeCase (Name g) (Tag g) -> f = g).
    { intros f g Hf Hg. apply Hkey; right; assumption. }
    destruct (negb (IsExported x)); [apply (IH Hkey' _ _ Hw) |].
    apply bind_OK_inv in Hw as (n & -> & Hw). cbn [bind]. apply (IH Hkey' _ _ Hw).
  - cbn [walkFields] in *.
    destruct (IsExported x) eqn:Ex, (IsExported y) eqn:Ey; cbn [negb] in *; try exact Hw.
    apply bind_OK_inv in Hw as (ny & Hy & Hw).
    apply bind_OK_inv in Hw as (nx & Hx & Hw).
    rewrite Hx. cbn [bind]. rewrite Hy. cbn [bind].
    destruct (String.eqb_spec (snakeCase (Name x) (Tag x)) (snakeCase (Name y) (Tag y)))
      as [E | Hne].
    + assert (x = y) as -> by (apply Hkey; cbn; auto).
      assert (nx = ny) as -> by congruence. exact Hw.
    + rewrite place_comm by congruence. exact Hw.
  - apply IH2; [| apply IH1; assumption].
    intros f g Hf Hg. apply Hkey; eapply Permutation_in; try eassumption;
      apply Permutation_sym; exact Hp1.
Qed.

(** X21.  The order of the fields plays no part in the result: when the
    exported fields have schema names of their own, a struct that compiles
    gives the same result with its fields in any other order; so does [New],
    as long as the same field [_] comes first. *)
Theorem field_order_irrelevant :
  (forall (str : string) (fields fields' : list (StructField rtype)) (tags : string)
          (fromSlice : bool) (level : nat) (n : nest),
      Permutation fields fields' ->
      (forall f g, In f fields -> In g fields -> IsExported f = true -> IsExported g = true ->
                   snakeCase (Name f) (Tag f) = snakeCase (Name g) (Tag g) -> f = g) ->
      rAttribute (TStruct str fields) tags fromSlice level = OK n ->
      rAttribute (TStruct str fields') tags fromSlice level = OK n)
  /\ (forall (str : string) (fields fields' : list (StructField rtype)) (sch : Schema),
         Permutation fields fields' ->
         (forall f g, In f fields -> In g fields -> IsExported f = true -> IsExported g = true ->
                      snakeCase (Name f) (Tag f) = snakeCase (Name g) (Tag g) -> f = g) ->
         schemaField fields' = schemaField fields ->
         New (TStruct str fields) = OK sch ->
         New (TStruct str fields') = OK sch).
Proof.
  assert (H : forall str fields fields' tags fromSlice level n,
             Permutation fields fields' ->
             (forall f g, In f fields -> In g fields ->
                          IsExported f = true -> IsExported g = true ->
                          snakeCase (Name f) (Tag f) = snakeCase (Name g) (Tag g) -> f = g) ->
             rAttribute (TStruct str fields) tags fromSlice level = OK n ->
             rAttribute (TStruct str fields') tags fromSlice level = OK n).
  { intros str fields fields' tags fromSlice level n Hp Hkey. cbn [rAttribute].
    change (leaf (TStruct str fields') tags) with (leaf (TStruct str fields) tags).
    destruct (leaf (TStruct str fields) tags); [auto |].
    intros Hr. apply bind_OK_inv in Hr as (maps & Hw & Hr).
    rewrite (walkFields_perm _ _ _ Hp Hkey _ _ Hw). exact Hr. }
  split; [exact H |].
  intros str fields fields' sch Hp Hkey Hs. unfold New. intros Hn.
  apply bind_OK_inv in Hn as (n & Hr & Hn).
  rewrite (H _ _ _ _ _ _ _ Hp Hkey Hr). cbn [bind]. rewrite Hs. exact Hn.
Qed.

Lemma field_order_irrelevant_witness :
  rAttribute (TStruct "struct { ID int64; Name string }"
                [mkField "ID" true (TBasic "int64" "int64") "";
                 mkField "Name" true (TBasic "string" "string") (raw "required:'true'")])
             "" false 0
  = OK (mkNest
          (Some (mkSchema
                   (<["id" := mkAttribute types.Int64Type false true false false "" "" "" [] []]>
                      (<["name" := mkAttribute types.StringType true false false false
                                     "" "" "" [] []]> ∅))
                   ∅ 0 "" "" ""))
          None None).
Proof.
  apply (proj1 field_order_irrelevant "struct { ID int64; Name string }"
           [mkField "Name" true (TBasic "string" "string") (raw "required:'true'");
            mkField "ID" true (TBasic "int64" "int64") ""]).
  - apply perm_swap.
  - intros f g [<- | [<- | []]] [<- | [<- | []]] _ _ H;
      first [reflexivity | vm_compute in H; discriminate H].
  - vm_compute. reflexivity.
Defined.

(** *** The name normalizer *)

Lemma lowerByte_idem (c : ascii) : strings.lowerByte (strings.lowerByte c) = strings.lowerByte c.
Proof. destruct c as [[] [] [] [] [] [] [] []]; reflexivity. Qed.

Lemma ToLower_idem (s : string) : strings.ToLower (strings.ToLower s) = strings.ToLower s.
Proof.
  induction s as [| c s IH]; [reflexivity |].
  cbn [strings.ToLower]. rewrite lowerByte_idem, IH. reflexivity.
Qed.

Lemma ToLower_substring (n m : nat) (s : string) :
  strings.ToLower (substring n m s) = substring n m (strings.ToLower s).
Proof.
  revert n m. induction s as [| c s IH]; intros n m.
  - destruct n, m; reflexivity.
  - destruct n as [| n]; destruct m as [| m]; cbn [substring strings.ToLower];
      rewrite ?IH; reflexivity.
Qed.

Lemma ToLower_length (s : string) : String.length (strings.ToLower s) = String.length s.
Proof. induction s as [| c s IH]; [reflexivity |]. cbn. rewrite IH. reflexivity. Qed.

Lemma TrimPrefix_lower (s pre : string) :
  strings.ToLower s = s -> strings.ToLower (strings.TrimPrefix s pre) = strings.TrimPrefix s pre.
Proof.
  intros H. unfold strings.TrimPrefix. destruct (strings.HasPrefix s pre); [| exact H].
  rewrite ToLower_substring, H. reflexivity.
Qed.

Lemma lower_not_upper (c : ascii) :
  strings.lowerByte c = c -> regexp.range "A" "Z" c = false.
Proof.
  destruct c as [[] [] [] [] [] [] [] []]; vm_compute; intros H;
    first [reflexivity | discriminate H].
Qed.

Lemma lower_cons (c : ascii) (s : string) :
  strings.ToLower (String c s) = String c s ->
  strings.lowerByte c = c /\ strings.ToLower s = s.
Proof. cbn [strings.ToLower]. intros [= Hc Hs]. auto. Qed.

Lemma Replace_IDs_lower (s : string) :
  strings.ToLower s = s -> strings.Replace s "IDs" "Ids" = s.
Proof.
  unfold strings.Replace. induction s as [| c s IH]; [reflexivity |].
  intros H. apply lower_cons in H as [Hc Hs]. cbn [strings.replaceFrom String.prefix].
  destruct (ascii_dec "I" c) as [<- | _]; [discriminate Hc |].
  rewrite (IH Hs). reflexivity.
Qed.

Lemma replaceAll_none (re : regexp.Regexp) (repl : list string -> string) (s : string) :
  (forall t, strings.ToLower t = t -> regexp.matchAt re t = None) ->
  strings.ToLower s = s ->
  regexp.ReplaceAllString re s repl = s.
Proof.
  intros Hre. unfold regexp.ReplaceAllString. induction s as [| c s IH]; [reflexivity |].
  intros H. cbn [regexp.replaceAllFrom]. rewrite (Hre _ H).
  apply lower_cons in H as [_ Hs]. rewrite (IH Hs). reflexivity.
Qed.

Lemma reLowerThenCaps_lower (t : string) :
  strings.ToLower t = t -> regexp.matchAt reLowerThenCaps t = None.
Proof.
  intros H. unfold regexp.matchAt, reLowerThenCaps.
  cbn [regexp.atLeast repeat app regexp.matchHere].
  destruct t as [| c t]; [reflexivity |].
  destruct (regexp.range "a" "z" c); [| reflexivity].
  apply lower_cons in H as [_ H].
  destruct t as [| d t]; [reflexivity |].
  apply lower_cons in H as [Hd _]. rewrite (lower_not_upper _ Hd). reflexivity.
Qed.

Lemma reCapLower_lower (t : string) :
  strings.ToLower t = t -> regexp.matchAt reCapLower t = None.
Proof.
  intros H. unfold regexp.matchAt, reCapLower. cbn [regexp.matchHere].
  destruct t as [| c t]; [reflexivity |].
  apply lower_cons in H as [Hc _]. rewrite (lower_not_upper _ Hc). reflexivity.
Qed.

Lemma upper_not_lower (c : ascii) :
  regexp.range "A" "Z" c = false -> strings.lowerByte c = c.
Proof.
  destruct c as [[] [] [] [] [] [] [] []]; vm_compute; intros H;
    first [reflexivity | discriminate H].
Qed.

Lemma noUpper_ToLower (s : string) : noUpper s = true <-> strings.ToLower s = s.
Proof.
  induction s as [| c s IH]; [split; reflexivity |].
  cbn [noUpper strings.ToLower]. rewrite andb_true_iff, negb_true_iff, IH. split.
  - intros [Hc Hs]. rewrite (upper_not_lower _ Hc), Hs. reflexivity.
  - intros [= Hc Hs]. split; [apply lower_not_upper, Hc | exact Hs].
Qed.

(** X22.  Without a [snake] tag and for a name of ASCII bytes, [snakeCase]
    returns a name without the upper-case letters [A] to [Z], and a name that
    has none is returned as it is, but for one leading underscore. *)
Theorem snakeCase_lower_case :
  (forall camel allTags : string,
      tagValue TagSnakeName allTags = "" ->
      isASCII camel = true ->
      noUpper (snakeCase camel allTags) = true)
  /\ (forall camel allTags : string,
         tagValue TagSnakeName allTags = "" ->
         isASCII camel = true ->
         noUpper camel = true ->
         snakeCase camel allTags = strings.TrimPrefix camel "_").
Proof.
  split.
  - intros camel allTags Ht _. apply noUpper_ToLower.
    unfold snakeCase. rewrite Ht. cbn [String.eqb negb].
    apply TrimPrefix_lower, ToLower_idem.
  - intros camel allTags Ht _ Hc%noUpper_ToLower.
    unfold snakeCase. rewrite Ht. cbn [String.eqb negb].
    rewrite (Replace_IDs_lower _ Hc).
    rewrite (replaceAll_none _ _ _ reLowerThenCaps_lower Hc).
    rewrite (replaceAll_none _ _ _ reCapLower_lower Hc), Hc. reflexivity.
Qed.

Lemma snakeCase_lower_case_witness :
  snakeCase "_already_snake_2" "" = strings.TrimPrefix "_already_snake_2" "_".
Proof. apply (proj2 snakeCase_lower_case "_already_snake_2" ""); reflexivity. Defined.

(** ** The default value plan modifier *)

Import defaultvalue.

(** X23.  [Modify] of the default value modifier writes the plan of the
    response at most: it leaves the response as it is when the configuration
    is not null; when it is null, the plan becomes the default if it is
    unknown or null and stays otherwise, so that with a default that is
    neither null nor unknown the plan is known and not null afterwards, and a
    second pass changes nothing. *)
Theorem Modify_fills_unset_plan :
  forall (V : Type) (HV : attr.Value V) (dflt : V)
         (req : ModifyAttributePlanRequest V) (res : ModifyAttributePlanResponse V),
    (r_RequiresReplace (Modify dflt req res) = r_RequiresReplace res
     /\ r_Diagnostics (Modify dflt req res) = r_Diagnostics res)
    /\ (attr.IsNull (AttributeConfig req) = false -> Modify dflt req res = res)
    /\ (attr.IsNull (AttributeConfig req) = true ->
        r_AttributePlan res = AttributePlan req ->
        r_AttributePlan (Modify dflt req res)
        = if attr.IsUnknown (AttributePlan req) || attr.IsNull (AttributePlan req)
          then dflt else AttributePlan req)
    /\ (attr.IsNull (AttributeConfig req) = true ->
        r_AttributePlan res = AttributePlan req ->
        attr.IsNull dflt = false -> attr.IsUnknown dflt = false ->
        attr.IsNull (r_AttributePlan (Modify dflt req res)) = false
        /\ attr.IsUnknown (r_AttributePlan (Modify dflt req res)) = false
        /\ Modify dflt (mkRequest (AttributeConfig req)
                                  (r_AttributePlan (Modify dflt req res)))
                  (Modify dflt req res)
           = Modify dflt req res).
Proof.
  intros V HV dflt req res. split; [| split; [| split]].
  - unfold Modify. destruct (negb _); [split; reflexivity |].
    destruct (_ && _); split; reflexivity.
  - intros Hc. unfold Modify. rewrite Hc. reflexivity.
  - intros Hc Hres. unfold Modify. rewrite Hc. cbn [negb].
    destruct (attr.IsUnknown (AttributePlan req)), (attr.IsNull (AttributePlan req));
      cbn [negb andb orb r_AttributePlan]; auto.
  - intros Hc Hres Hn Hu. unfold Modify. rewrite Hc. cbn [negb AttributeConfig AttributePlan].
    destruct (attr.IsUnknown (AttributePlan req)) eqn:Eu;
      destruct (attr.IsNull (AttributePlan req)) eqn:En;
      cbn [negb andb r_AttributePlan];
      rewrite ?Hres, ?Hn, ?Hu, ?Eu, ?En, ?Hc;
      cbn [negb andb r_RequiresReplace r_Diagnostics]; repeat split; reflexivity.
Qed.

Lemma Modify_fills_unset_plan_witness :
  attr.IsNull (r_AttributePlan
                 (Modify (attr.literal (types.String "game"))
                         (mkRequest (attr.mkScalar false true (types.String ""))
                                    (attr.mkScalar true false (types.String "")))
                         (mkResponse (attr.mkScalar true false (types.String "")) false [])))
  = false
  /\ attr.IsUnknown (r_AttributePlan
                       (Modify (attr.literal (types.String "game"))
                               (mkRequest (attr.mkScalar false true (types.String ""))
                                          (attr.mkScalar true false (types.String "")))
                               (mkResponse (attr.mkScalar true false (types.String ""))
                                           false [])))
     = false.
Proof.
  destruct (Modify_fills_unset_plan attr.Scalar _ (attr.literal (types.String "game"))
              (mkRequest (attr.mkScalar false true (types.String ""))
                         (attr.mkScalar true false (types.String "")))
              (mkResponse (attr.mkScalar true false (types.String "")) false []))
    as (_ & _ & _ & H).
  destruct H as (Hn & Hu & _); [reflexivity .. |]. split; assumption.
Defined.
